(** * Play Store comments service: the review-retrieval pipeline

    A shallow embedding of [services/playStoreAPI.js], [routes/comments.js],
    [middleware/validation.js] and [config/config.js], the properties of the
    pipeline that the specification states about them, and properties of
    the code around it.

    Conventions of the embedding.
    - A JavaScript string is the list of its UTF-16 code units, each an [N].
    - A JavaScript Number that the pipeline computes with (a length, a limit,
      the result of [parseInt], a rating) is [NaN], an infinity or an
      integer.  [parseInt] rounds what it reads to the nearest Number, as
      the code's does: it is exact up to 2^53, rounded beyond, and
      infinite past the largest Number.
    - An [async] function is a resumption ([proc]): a tree that either returns,
      throws, or issues one HTTP GET and continues with whatever the network
      answers.
    - [new Date().toISOString().split('T')[0]] is the argument [today].
    - A value of the JSON body of the batch route is left abstract: the
      handler keeps it as it is or converts it to a text, and the
      conversion can throw. *)

From Stdlib Require Import ZArith NArith Lia String Ascii SpecFloat DecimalString DecimalPos.
From stdpp Require Import base option list gmap.

Local Open Scope N_scope.

(** ** Strings *)

Abbreviation jsstring := (list N).

(** A literal of the source, as the list of its code units. *)
Definition lit (s : string) : jsstring :=
  List.map N_of_ascii (list_ascii_of_string s).

(** Markup and pattern texts are written with the apostrophe standing for the
    double quote (code unit 34). *)
Definition unit_of_ascii (a : ascii) : N :=
  if Ascii.eqb a "'" then 34 else N_of_ascii a.

Definition markup (s : string) : jsstring :=
  List.map unit_of_ascii (list_ascii_of_string s).

(** WhiteSpace and LineTerminator of ECMA-262: what [\s] matches and what
    [trim] strips. *)
Definition is_space (c : N) : bool :=
  (c =? 9) || (c =? 10) || (c =? 11) || (c =? 12) || (c =? 13) || (c =? 32)
  || (c =? 160) || (c =? 5760) || ((8192 <=? c) && (c <=? 8202))
  || (c =? 8232) || (c =? 8233) || (c =? 8239) || (c =? 8287)
  || (c =? 12288) || (c =? 65279).

(** LineTerminator: what [.] does not match. *)
Definition is_line_terminator (c : N) : bool :=
  (c =? 10) || (c =? 13) || (c =? 8232) || (c =? 8233).

Definition is_digit (c : N) : bool := (48 <=? c) && (c <=? 57).

(** Canonicalize of a non-unicode, ignore-case RegExp, on the ASCII letters:
    a code unit above 127 never folds onto an ASCII one, so against the ASCII
    literals of the patterns below this is the whole case folding. *)
Definition ascii_upper (c : N) : N :=
  if (97 <=? c) && (c <=? 122) then c - 32 else c.

Fixpoint is_prefix (p s : jsstring) : bool :=
  match p, s with
  | [], _ => true
  | a :: p', b :: s' => (a =? b) && is_prefix p' s'
  | _ :: _, [] => false
  end.

(** [String.prototype.includes]. *)
Fixpoint includes (s needle : jsstring) : bool :=
  is_prefix needle s
  || match s with [] => false | _ :: s' => includes s' needle end.

Fixpoint drop_spaces (s : jsstring) : jsstring :=
  match s with
  | c :: s' => if is_space c then drop_spaces s' else s
  | [] => []
  end.

(** [String.prototype.trim]. *)
Definition trim (s : jsstring) : jsstring :=
  rev (drop_spaces (rev (drop_spaces s))).

(** [String.prototype.substring(0, n)]. *)
Definition substring0 (n : nat) (s : jsstring) : jsstring := take n s.

(** ** Numbers *)

Inductive number :=
  | NaN
  | Finite (z : Z)
  | Infinity (negative : bool).

#[global] Instance number_eq_dec : EqDecision number.
Proof. solve_decision. Defined.

(** [n >= limit] for an array length [n]; any comparison with NaN is false. *)
Definition length_ge (n : nat) (limit : number) : bool :=
  match limit with
  | NaN => false
  | Finite z => (z <=? Z.of_nat n)%Z
  | Infinity negative => negative
  end.

(** [Math.min(limit, n)] for an array length [n]. *)
Definition math_min (limit : number) (n : nat) : number :=
  match limit with
  | NaN => NaN
  | Finite z => Finite (Z.min z (Z.of_nat n))
  | Infinity true => Infinity true
  | Infinity false => Finite (Z.of_nat n)
  end.

(** [Array.prototype.slice(0, limit)]: NaN converts to 0, a negative end
    counts from the end of the array, an infinite one is the nearer end. *)
Definition slice0 {A} (limit : number) (l : list A) : list A :=
  match limit with
  | NaN => []
  | Finite z =>
      if (z <? 0)%Z then take (length l - Z.to_nat (- z)) l
      else take (Z.to_nat z) l
  | Infinity true => []
  | Infinity false => l
  end.

Definition digit_value (radix c : N) : option N :=
  let v :=
    if is_digit c then Some (c - 48)
    else if (97 <=? c) && (c <=? 122) then Some (c - 87)
    else if (65 <=? c) && (c <=? 90) then Some (c - 55)
    else None in
  match v with
  | Some d => if d <? radix then Some d else None
  | None => None
  end.

(** The longest prefix of digits of the radix, folded into its value; [None]
    when the prefix is empty. *)
Fixpoint digits_value (radix : N) (acc : option N) (s : jsstring) : option N :=
  match s with
  | c :: s' =>
      match digit_value radix c with
      | Some d => digits_value radix (Some (default 0 acc * radix + d)) s'
      | None => acc
      end
  | [] => acc
  end.

(** The integer that [parseInt(s)], with no radix argument, reads: leading
    white space, a sign, an optional [0x] prefix, then the digits.  The
    result is the sign and the magnitude; [None] when there is no digit. *)
Definition mathInt (s : jsstring) : option (bool * N) :=
  let s1 := drop_spaces s in
  let '(negative, s2) :=
    match s1 with
    | 45 :: t => (true, t)
    | 43 :: t => (false, t)
    | _ => (false, s1)
    end in
  let '(radix, s3) :=
    match s2 with
    | 48 :: 120 :: t => (16, t)
    | 48 :: 88 :: t => (16, t)
    | _ => (10, s2)
    end in
  match digits_value radix None s3 with
  | Some v => Some (negative, v)
  | None => None
  end.

(** The Number nearest to a natural number, ties going to the even
    significand: the number itself up to 2^53; beyond, its 53 leading bits,
    rounded, and the bits below them cleared; [None] when that passes the
    largest Number, (2^53 - 1) * 2^971. *)
Definition nearest_double (v : N) : option N :=
  if v <=? 2 ^ 53 then Some v
  else
    let k := N.log2 v - 52 in
    let q := N.shiftr v k in
    let r := v - N.shiftl q k in
    let q' := if (2 ^ (k - 1) <? r) || ((r =? 2 ^ (k - 1)) && N.odd q)
              then q + 1 else q in
    if 2 ^ 1024 <=? N.shiftl q' k then None else Some (N.shiftl q' k).

(** The Number of an integer given by sign and magnitude.  (The Number -0,
    which [parseInt] returns for [-0], is [Finite 0] here: the code tells
    the two apart nowhere.) *)
Definition Number_of (negative : bool) (v : N) : number :=
  match nearest_double v with
  | Some x => Finite (if negative then - Z.of_N x else Z.of_N x)
  | None => Infinity negative
  end.

(** [parseInt(s)] with no radix argument: the Number of the integer read,
    NaN when there is none. *)
Definition parseInt (s : jsstring) : number :=
  match mathInt s with
  | Some (negative, v) => Number_of negative v
  | None => NaN
  end.

(** The decimal text of an integer: [ToString] of an integral Number. *)
Definition decimal (z : Z) : jsstring :=
  lit (NilZero.string_of_int (Z.to_int z)).

Local Close Scope N_scope.

(** ** Regular expressions

    The fragment of the RegExp language the source uses: literals, classes,
    a class under [*], [*?] or [+], and one capture group.  The matcher is the
    backtracking one of ECMA-262: a greedy quantifier tries the longest
    repetition first, a lazy one the shortest. *)

Inductive cset :=
  | CDot                     (* . *)
  | CSpace                   (* \s *)
  | CDigit                   (* \d *)
  | COne (c : N)             (* the single unit c *)
  | CUnion (a b : cset)      (* [ab] *)
  | CCompl (a : cset).       (* [^a], and \S for a = \s *)

Inductive node :=
  | Chr (c : N)
  | Cls (s : cset)
  | Star (s : cset)          (* s*  *)
  | StarLazy (s : cset)      (* s*? *)
  | Plus (s : cset)          (* s+  *)
  | GroupOpen
  | GroupClose.

Record regexp := {
  pattern_source : jsstring; (* [pattern.source]: the text between the slashes *)
  ignore_case : bool;        (* the i flag *)
  global : bool;             (* the g flag *)
  prog : list node           (* the pattern, parsed *)
}.

(** *** Reading a pattern

    The text of a RegExp literal is read one unit at a time.  Whatever is
    outside the fragment (alternatives, anchors, ranges, counted
    repetitions, the other escapes) is refused. *)

Inductive atom :=
  | ALit (c : N)
  | ASet (s : cset).

Definition single (a : atom) : node :=
  match a with
  | ALit c => Chr c
  | ASet s => Cls s
  end.

Definition set_of (a : atom) : cset :=
  match a with
  | ALit c => COne c
  | ASet s => s
  end.

Inductive reading :=
  | Plain (pending : option atom)        (* an atom may wait for its quantifier *)
  | Escape                               (* after a backslash *)
  | Starred (a : atom)                   (* after a*: a lazy mark may follow *)
  | ClassStart                           (* after the opening bracket *)
  | Class (negated : bool) (members : list cset)
  | ClassEscape (negated : bool) (members : list cset).

Definition is_letter_or_digit (c : N) : bool :=
  (((97 <=? c) && (c <=? 122)) || ((65 <=? c) && (c <=? 90))
   || ((48 <=? c) && (c <=? 57)))%N.

(** The class escapes of the fragment, and the escaped punctuation. *)
Definition escaped (c : N) : option atom :=
  if (c =? 115)%N then Some (ASet CSpace)
  else if (c =? 83)%N then Some (ASet (CCompl CSpace))
  else if (c =? 100)%N then Some (ASet CDigit)
  else if is_letter_or_digit c then None
  else Some (ALit c).

Definition flush (pending : option atom) (out : list node) : list node :=
  match pending with
  | Some a => single a :: out
  | None => out
  end.

Fixpoint union_of (first : cset) (others : list cset) : cset :=
  match others with
  | [] => first
  | m :: ms => CUnion first (union_of m ms)
  end.

Definition class_of (negated : bool) (members : list cset) : option cset :=
  match members with
  | [] => None
  | m :: ms => Some (if negated then CCompl (union_of m ms) else union_of m ms)
  end.

(** A unit read where an atom may start; [out] is in reverse. *)
Definition read_plain (c : N) (out : list node) : option (reading * list node) :=
  if (c =? 92)%N then Some (Escape, out)
  else if (c =? 91)%N then Some (ClassStart, out)
  else if (c =? 40)%N then Some (Plain None, GroupOpen :: out)
  else if (c =? 41)%N then Some (Plain None, GroupClose :: out)
  else if (c =? 46)%N then Some (Plain (Some (ASet CDot)), out)
  else if ((c =? 42) || (c =? 43) || (c =? 63) || (c =? 123) || (c =? 125)
           || (c =? 124) || (c =? 94) || (c =? 36) || (c =? 93))%N then None
  else Some (Plain (Some (ALit c)), out).

Definition read_class (negated : bool) (members : list cset) (c : N) (out : list node)
  : option (reading * list node) :=
  if (c =? 93)%N then
    match class_of negated members with
    | Some cs => Some (Plain (Some (ASet cs)), out)
    | None => None
    end
  else if (c =? 92)%N then Some (ClassEscape negated members, out)
  else if (c =? 45)%N then None
  else Some (Class negated (members ++ [COne c]), out).

Definition read (m : reading) (c : N) (out : list node) : option (reading * list node) :=
  match m with
  | Plain pending =>
      if (c =? 42)%N then
        match pending with Some a => Some (Starred a, out) | None => None end
      else if (c =? 43)%N then
        match pending with
        | Some a => Some (Plain None, Plus (set_of a) :: out)
        | None => None
        end
      else read_plain c (flush pending out)
  | Escape =>
      match escaped c with
      | Some a => Some (Plain (Some a), out)
      | None => None
      end
  | Starred a =>
      if (c =? 63)%N then Some (Plain None, StarLazy (set_of a) :: out)
      else read_plain c (Star (set_of a) :: out)
  | ClassStart =>
      if (c =? 94)%N then Some (Class true [], out) else read_class false [] c out
  | Class negated members => read_class negated members c out
  | ClassEscape negated members =>
      match escaped c with
      | Some a => Some (Class negated (members ++ [set_of a]), out)
      | None => None
      end
  end.

Fixpoint read_all (s : jsstring) (m : reading) (out : list node) : option (list node) :=
  match s with
  | c :: s' =>
      match read m c out with
      | Some (m', out') => read_all s' m' out'
      | None => None
      end
  | [] =>
      match m with
      | Plain pending => Some (rev (flush pending out))
      | Starred a => Some (rev (Star (set_of a) :: out))
      | _ => None
      end
  end.

(** The RegExp literal [/source/flags]. *)
Definition RegExp (source flags : jsstring) : regexp :=
  {| pattern_source := source;
     ignore_case := bool_decide (105%N ∈ flags);
     global := bool_decide (103%N ∈ flags);
     prog := default [] (read_all source (Plain None) []) |}.

Definition chr_eq (ic : bool) (c ch : N) : bool :=
  if ic then (ascii_upper c =? ascii_upper ch)%N else (c =? ch)%N.

Fixpoint cset_mem (ic : bool) (s : cset) (ch : N) : bool :=
  match s with
  | CDot => negb (is_line_terminator ch)
  | CSpace => is_space ch
  | CDigit => is_digit ch
  | COne c => chr_eq ic c ch
  | CUnion a b => cset_mem ic a ch || cset_mem ic b ch
  | CCompl a => negb (cset_mem ic a ch)
  end.

(** Where a match attempt stands: the units consumed since its start and the
    offsets of the capture group. *)
Record mstate := {
  consumed : nat;
  group_start : option nat;
  group_end : option nat
}.

Definition mstart : mstate :=
  {| consumed := 0; group_start := None; group_end := None |}.

Definition advance (st : mstate) : mstate :=
  {| consumed := S (consumed st);
     group_start := group_start st; group_end := group_end st |}.

Definition open_group (st : mstate) : mstate :=
  {| consumed := consumed st;
     group_start := Some (consumed st); group_end := group_end st |}.

Definition close_group (st : mstate) : mstate :=
  {| consumed := consumed st;
     group_start := group_start st; group_end := Some (consumed st) |}.

Section Quantifiers.
Context (mem : N → bool) (k : jsstring → mstate → option mstate).

Fixpoint star_greedy (s : jsstring) (st : mstate) : option mstate :=
  match s with
  | ch :: s' =>
      if mem ch then
        match star_greedy s' (advance st) with
        | Some r => Some r
        | None => k s st
        end
      else k s st
  | [] => k s st
  end.

Fixpoint star_lazy (s : jsstring) (st : mstate) : option mstate :=
  match k s st with
  | Some r => Some r
  | None =>
      match s with
      | ch :: s' => if mem ch then star_lazy s' (advance st) else None
      | [] => None
      end
  end.
End Quantifiers.

(** One match attempt at the head of [s]. *)
Fixpoint match_here (ic : bool) (p : list node) (s : jsstring) (st : mstate)
  {struct p} : option mstate :=
  match p with
  | [] => Some st
  | Chr c :: p' =>
      match s with
      | ch :: s' => if chr_eq ic c ch then match_here ic p' s' (advance st) else None
      | [] => None
      end
  | Cls cs :: p' =>
      match s with
      | ch :: s' => if cset_mem ic cs ch then match_here ic p' s' (advance st) else None
      | [] => None
      end
  | Star cs :: p' => star_greedy (cset_mem ic cs) (match_here ic p') s st
  | StarLazy cs :: p' => star_lazy (cset_mem ic cs) (match_here ic p') s st
  | Plus cs :: p' =>
      match s with
      | ch :: s' =>
          if cset_mem ic cs ch
          then star_greedy (cset_mem ic cs) (match_here ic p') s' (advance st)
          else None
      | [] => None
      end
  | GroupOpen :: p' => match_here ic p' s (open_group st)
  | GroupClose :: p' => match_here ic p' s (close_group st)
  end.

Definition attempt (r : regexp) (s : jsstring) : option mstate :=
  match_here (ignore_case r) (prog r) s mstart.

(** The text of the capture group of a match that starts at the head of [s]. *)
Definition group_text (s : jsstring) (st : mstate) : option jsstring :=
  match group_start st, group_end st with
  | Some a, Some b => Some (take (b - a) (drop a s))
  | _, _ => None
  end.

(** [String.prototype.match] with a RegExp that has no g flag: the first
    position where an attempt succeeds; the result array is the whole match
    followed by the capture group. *)
Fixpoint match_first (r : regexp) (s : jsstring) : option (jsstring * option jsstring) :=
  match attempt r s with
  | Some st => Some (take (consumed st) s, group_text s st)
  | None =>
      match s with
      | _ :: s' => match_first r s'
      | [] => None
      end
  end.

(** The scan of a RegExp with the g flag.  [skip] units of the string still
    belong to the previous match; after an empty match the scan moves on by
    one unit. *)
Fixpoint scan (r : regexp) (s : jsstring) (skip : nat) : list jsstring :=
  match skip with
  | S n => match s with _ :: s' => scan r s' n | [] => [] end
  | O =>
      match attempt r s with
      | Some st =>
          take (consumed st) s ::
          match s with _ :: s' => scan r s' (pred (consumed st)) | [] => [] end
      | None => match s with _ :: s' => scan r s' 0 | [] => [] end
      end
  end.

(** [String.prototype.match] with a RegExp that has the g flag: the array of
    the whole matches, capture groups left out, or null when there is none. *)
Definition match_all (r : regexp) (s : jsstring) : option (list jsstring) :=
  match scan r s 0 with
  | [] => None
  | ms => Some ms
  end.

(** [String.prototype.replace] with a RegExp that has the g flag and a
    replacement text without [$]. *)
Fixpoint replace_all (r : regexp) (by_ : jsstring) (s : jsstring) (skip : nat) : jsstring :=
  match skip with
  | S n => match s with _ :: s' => replace_all r by_ s' n | [] => [] end
  | O =>
      match attempt r s with
      | Some st =>
          by_ ++
          match s with
          | c :: s' =>
              (if Nat.eqb (consumed st) 0 then [c] else [])
              ++ replace_all r by_ s' (pred (consumed st))
          | [] => []
          end
      | None => match s with c :: s' => c :: replace_all r by_ s' 0 | [] => [] end
      end
  end.

(** The four patterns of [extractReviewsFromHTML], in the order of the
    [reviewPatterns] array. *)
Definition container_pattern : regexp :=
  RegExp (markup "<div[^>]*class='[^']*review[^']*'[^>]*>([\s\S]*?)<\/div>") (lit "gi").

Definition embedded_pattern : regexp :=
  RegExp (markup "<script[^>]*>[\s\S]*?'reviews':\s*(\[.*?\])[\s\S]*?<\/script>")
    (lit "gi").

Definition testid_pattern : regexp :=
  RegExp (markup "<div[^>]*data-testid='[^']*review[^']*'[^>]*>([\s\S]*?)<\/div>")
    (lit "gi").

Definition text_pattern : regexp :=
  RegExp (markup "'reviewText':\s*'([^']+)'") (lit "gi").

Definition reviewPatterns : list regexp :=
  [container_pattern; embedded_pattern; testid_pattern; text_pattern].

(** The patterns of [extractCommentFromHTML]. *)
Definition tag_pattern : regexp := RegExp (markup "<[^>]*>") (lit "g").

Definition spaces_pattern : regexp := RegExp (markup "\s+") (lit "g").

Definition rating_pattern : regexp :=
  RegExp (markup "rating['\s]*:['\s]*(\d+)") (lit "i").

Definition author_pattern : regexp :=
  RegExp (markup "author['\s]*:['\s]*'([^']+)'") (lit "i").

(** ** Review records *)

Record review := {
  text : jsstring;
  rating : Z;
  date : jsstring;
  author : jsstring;
  helpful : Z;
  source : jsstring
}.

#[global] Instance review_eq_dec : EqDecision review.
Proof. solve_decision. Defined.

(** What [JSON.parse] makes of the text of a reviews array, seen through the
    ten properties [processReviewMatches] reads: an absent property is
    [None], a string property its text, a numeric property its value (a
    property of another type is outside the embedding).  A [null] element of
    the array is [None]: reading a property of it throws. *)
Record entry := {
  e_text : option jsstring;
  e_reviewText : option jsstring;
  e_rating : option Z;
  e_starRating : option Z;
  e_date : option jsstring;
  e_reviewDate : option jsstring;
  e_author : option jsstring;
  e_userName : option jsstring;
  e_helpful : option Z;
  e_helpfulCount : option Z
}.

Inductive decoded :=
  | NotArray
  | ArrayOf (elements : list (option entry)).

(** The first code unit of a JSON value: an object, an array, a string, a
    number or one of [true], [false], [null]. *)
Definition json_value_start (c : N) : bool :=
  ((c =? 123) || (c =? 91) || (c =? 34) || (c =? 45) || is_digit c
   || (c =? 116) || (c =? 102) || (c =? 110))%N.

(** JSON white space: space, tab, line feed, carriage return. *)
Fixpoint skip_json_space (s : jsstring) : jsstring :=
  match s with
  | c :: s' =>
      if ((c =? 32) || (c =? 9) || (c =? 10) || (c =? 13))%N
      then skip_json_space s' else s
  | [] => []
  end.

(** [a || b] on two optional strings, and on two optional numbers: the first
    truthy operand ([undefined], the empty string and 0 are falsy). *)
Definition truthy_string (a : option jsstring) : option jsstring :=
  match a with
  | Some (c :: s) => Some (c :: s)
  | _ => None
  end.

Definition truthy_number (a : option Z) : option Z :=
  match a with
  | Some z => if (z =? 0)%Z then None else Some z
  | None => None
  end.

Definition or_string (a b : option jsstring) : option jsstring :=
  match truthy_string a with
  | Some s => Some s
  | None => truthy_string b
  end.

Definition or_number (a b : option Z) : option Z :=
  match truthy_number a with
  | Some z => Some z
  | None => truthy_number b
  end.

(** What [response.data] holds: a text, or anything else (axios decodes a
    JSON body), on which [html.match] is a TypeError. *)
Inductive payload :=
  | Text (s : jsstring)
  | NotText.

Section Extraction.

(** The decoder behind [JSON.parse], for the texts that start as a JSON
    value does; [None] is its SyntaxError.  Nothing is assumed of it. *)
Variable decode_json : jsstring → option decoded.

(** The date part of the current instant. *)
Variable today : jsstring.

(** [JSON.parse(text)]: a text that does not start with a JSON value is a
    SyntaxError, whatever follows. *)
Definition JSON_parse (text : jsstring) : option decoded :=
  match skip_json_space text with
  | c :: _ => if json_value_start c then decode_json text else None
  | [] => None
  end.

Definition extractCommentFromHTML (html : jsstring) : option review :=
  let textContent :=
    trim (replace_all spaces_pattern (lit " ")
            (replace_all tag_pattern (lit " ") html 0) 0) in
  if bool_decide (textContent = []) || (length textContent <? 10)%nat then None
  else if includes textContent (lit "Games") && includes textContent (lit "Apps")
          && includes textContent (lit "Movies") then None
  else
    let rating :=
      match match_first rating_pattern html with
      | Some (_, Some digits) => parseInt digits
      | Some (_, None) => NaN
      | None => Finite 0
      end in
    (* a match always has its group: [rating_and_author_capture] below *)
    let author :=
      match match_first author_pattern html with
      | Some (_, Some name) => name
      | _ => lit "Unknown"
      end in
    Some {| text := textContent;
            rating := match rating with
                      | Finite z => if (1 <=? z)%Z && (z <=? 5)%Z then z else 0%Z
                      | NaN | Infinity _ => 0%Z
                      end;
            date := today;
            author := author;
            helpful := 0;
            source := lit "html" |}.

(** The record built from a decoded review. *)
Definition review_of_entry (e : entry) : review :=
  {| text := default (lit "No text available") (or_string (e_text e) (e_reviewText e));
     rating := default 0%Z (or_number (e_rating e) (e_starRating e));
     date := default today (or_string (e_date e) (e_reviewDate e));
     author := default (lit "Unknown") (or_string (e_author e) (e_userName e));
     helpful := default 0%Z (or_number (e_helpful e) (e_helpfulCount e));
     source := lit "api" |}.

(** [reviewsData.forEach] of the embedded-data branch.  A [null] element
    throws a TypeError, which the enclosing [try] catches: the loop stops
    and the records pushed so far stay. *)
Fixpoint each_entry (limit : number) (es : list (option entry)) (comments : list review)
  : list review :=
  match es with
  | [] => comments
  | e :: es' =>
      if length_ge (length comments) limit then each_entry limit es' comments
      else
        match e with
        | None => comments
        | Some r =>
            if bool_decide (is_Some (or_string (e_text r) (e_reviewText r)))
            then each_entry limit es' (comments ++ [review_of_entry r])
            else each_entry limit es' comments
        end
  end.

(** The record of the bare-text branch. *)
Definition text_record (m : jsstring) : review :=
  {| text := m; rating := 0; date := today; author := lit "Unknown";
     helpful := 0; source := lit "api" |}.

(** [matches.forEach] of the bare-text branch. *)
Fixpoint each_text (limit : number) (index : nat) (matches : list jsstring)
  (comments : list review) : list review :=
  match matches with
  | [] => comments
  | m :: ms =>
      if length_ge (length comments) limit then each_text limit (S index) ms comments
      else if (0 <? index)%nat then
        each_text limit (S index) ms (comments ++ [text_record m])
      else each_text limit (S index) ms comments
  end.

(** [matches.forEach] of the container branch. *)
Fixpoint each_container (limit : number) (matches : list jsstring)
  (comments : list review) : list review :=
  match matches with
  | [] => comments
  | m :: ms =>
      if length_ge (length comments) limit then each_container limit ms comments
      else
        match extractCommentFromHTML m with
        | Some comment =>
            if bool_decide (text comment = []) then each_container limit ms comments
            else each_container limit ms (comments ++ [comment])
        | None => each_container limit ms comments
        end
  end.

Definition processReviewMatches (matches : list jsstring) (pattern : regexp)
  (limit : number) : list review :=
  if includes (pattern_source pattern) (lit "reviews") then
    (* JSON.parse(matches[1]); a missing element reads as undefined *)
    match JSON_parse (default (lit "undefined") (matches !! 1%nat)) with
    | Some (ArrayOf reviewsData) => each_entry limit reviewsData []
    | Some NotArray => []
    | None => []
    end
  else if includes (pattern_source pattern) (lit "reviewText") then
    each_text limit 0 matches []
  else each_container limit matches [].

(** The loop over [reviewPatterns]: [comments] accumulates over the patterns
    and the loop breaks once it holds [limit] records. *)
Fixpoint each_pattern (patterns : list regexp) (html : jsstring) (limit : number)
  (comments : list review) : list review :=
  match patterns with
  | [] => comments
  | pattern :: rest =>
      match match_all pattern html with
      | Some matches =>
          let comments' := comments ++ processReviewMatches matches pattern limit in
          if length_ge (length comments') limit then comments'
          else each_pattern rest html limit comments'
      | None => each_pattern rest html limit comments
      end
  end.

Definition extractReviewsFromHTML (html : payload) (limit : number) : list review :=
  match html with
  | Text s => slice0 limit (each_pattern reviewPatterns s limit [])
  | NotText => []
  end.

End Extraction.

(** ** The sample generator *)

Definition sampleReviews : list review :=
  [
    {| text := lit "This app is absolutely amazing! I use it every day and it works perfectly. The interface is clean and intuitive, and all the features I need are easily accessible. Highly recommend!";
       rating := 5; date := lit "2024-01-15"; author := lit "Sarah Johnson";
       helpful := 24; source := lit "sample" |};
    {| text := lit "Great app overall, but there are a few bugs that need fixing. Sometimes it crashes when I try to upload photos, and the search function could be improved. Otherwise, it's pretty good.";
       rating := 4; date := lit "2024-01-14"; author := lit "Mike Chen";
       helpful := 18; source := lit "sample" |};
    {| text := lit "I've been using this app for months now and it's been a game-changer for me. The performance is excellent and the customer support team is very responsive. Love it!";
       rating := 5; date := lit "2024-01-13"; author := lit "Emily Rodriguez";
       helpful := 31; source := lit "sample" |};
    {| text := lit "The app is okay, but it's missing some important features that I need for work. The UI is a bit outdated and could use a modern refresh. Hoping for updates soon.";
       rating := 3; date := lit "2024-01-12"; author := lit "David Kim";
       helpful := 12; source := lit "sample" |};
    {| text := lit "This is the best app I've ever used! Fast, reliable, and packed with useful features. The developers really know what they're doing. Five stars all the way!";
       rating := 5; date := lit "2024-01-11"; author := lit "Lisa Thompson";
       helpful := 42; source := lit "sample" |};
    {| text := lit "Not bad, but could be better. The app works most of the time, but occasionally freezes. The design is nice though, and it's easy to navigate.";
       rating := 3; date := lit "2024-01-10"; author := lit "Robert Wilson";
       helpful := 8; source := lit "sample" |};
    {| text := lit "Excellent app with outstanding performance! I've tried many alternatives but this one stands out. The features are exactly what I need and the app is very stable.";
       rating := 5; date := lit "2024-01-09"; author := lit "Jennifer Lee";
       helpful := 27; source := lit "sample" |};
    {| text := lit "The app has potential but needs work. There are too many ads and the free version is very limited. The premium features are expensive for what you get.";
       rating := 2; date := lit "2024-01-08"; author := lit "Alex Martinez";
       helpful := 15; source := lit "sample" |};
    {| text := lit "I'm really impressed with this app! It's fast, user-friendly, and has all the features I was looking for. The developers are constantly improving it too.";
       rating := 5; date := lit "2024-01-07"; author := lit "Chris Anderson";
       helpful := 33; source := lit "sample" |};
    {| text := lit "Good app, but the interface could be more intuitive. Some features are hidden and hard to find. Once you get used to it though, it's quite useful.";
       rating := 4; date := lit "2024-01-06"; author := lit "Maria Garcia";
       helpful := 19; source := lit "sample" |}
  ].

Definition generateSampleReviews (appId : jsstring) (limit : number) : list review :=
  slice0 (math_min limit (length sampleReviews)) sampleReviews.

(** ** Asynchronous functions

    An [async] function is the tree of what it does between two [await]s: it
    returns, it throws, or it issues a GET and goes on with the outcome of
    the request. *)

(** How the promise of [axios.get] settles.  It rejects on a network error,
    on a timeout, and on a status that [validateStatus] refuses. *)
Inductive outcome :=
  | Rejected (message : jsstring)
  | Resolved (status : Z) (data : payload).

Inductive proc (A : Type) :=
  | Return (a : A)
  | Throw (message : jsstring)
  | Get (url : jsstring) (k : outcome → proc A).

Arguments Return {A} a.
Arguments Throw {A} message.
Arguments Get {A} url k.

Fixpoint bind {A B} (p : proc A) (f : A → proc B) : proc B :=
  match p with
  | Return a => f a
  | Throw e => Throw e
  | Get url k => Get url (λ o, bind (k o) f)
  end.

(** [try { p } catch (error) { handler }]. *)
Fixpoint try_catch {A} (p : proc A) (handler : jsstring → proc A) : proc A :=
  match p with
  | Return a => Return a
  | Throw e => handler e
  | Get url k => Get url (λ o, try_catch (k o) handler)
  end.

Notation "'let_await' x := p 'in' q" := (bind p (λ x, q))
  (at level 10, x name, p at level 100, q at level 200, only parsing).

(** [await axios.get(url)]: the response, or the rejection thrown. *)
Definition axios_get (url : jsstring) : proc (Z * payload) :=
  Get url (λ o, match o with
                | Rejected e => Throw e
                | Resolved status data => Return (status, data)
                end).

(** How a promise settles. *)
Inductive settled (A : Type) :=
  | Fulfilled (a : A)
  | Failed (message : jsstring).

Arguments Fulfilled {A} a.
Arguments Failed {A} message.

(** The network answers a request knowing the requests issued before it. *)
Definition network := list jsstring → jsstring → outcome.

(** Running a function against a network, from the log of the requests
    issued so far; the result is how its promise settles, and the log. *)
Fixpoint run {A} (net : network) (p : proc A) (log : list jsstring)
  : settled A * list jsstring :=
  match p with
  | Return a => (Fulfilled a, log)
  | Throw e => (Failed e, log)
  | Get url k => run net (k (net log url)) (log ++ [url])
  end.

(** ** Retrieval *)

Definition baseUrl : jsstring := lit "https://play.google.com".

(** The names of the members of [Object.prototype], which a lookup on an
    object literal finds when the literal has no property of that name. *)
Definition object_prototype_keys : list jsstring :=
  [lit "constructor"; lit "__defineGetter__"; lit "__defineSetter__";
   lit "hasOwnProperty"; lit "__lookupGetter__"; lit "__lookupSetter__";
   lit "isPrototypeOf"; lit "propertyIsEnumerable"; lit "toString";
   lit "valueOf"; lit "__proto__"; lit "toLocaleString"].

(** What a template literal makes of such a member: the prototype itself
    under [__proto__], and otherwise a built-in function, whose text is
    printed as Node prints it. *)
Definition inherited_text (key : jsstring) : jsstring :=
  if bool_decide (key = lit "__proto__") then lit "[object Object]"
  else if bool_decide (key = lit "constructor")
       then lit "function Object() { [native code] }"
       else lit "function " ++ key ++ lit "() { [native code] }".

(** [sortMap[sort] || '0'], as the template literal of [buildAppPageUrl]
    prints it.  A [sort] that names a member of [Object.prototype] finds
    that member, which is truthy. *)
Definition getSortParameter (sort : jsstring) : jsstring :=
  if bool_decide (sort = lit "recent") then lit "0"
  else if bool_decide (sort = lit "rating") then lit "1"
  else if bool_decide (sort = lit "helpfulness") then lit "2"
  else if bool_decide (sort ∈ object_prototype_keys) then inherited_text sort
  else lit "0".

Definition buildAppPageUrl (appId sort language country : jsstring) : jsstring :=
  baseUrl ++ lit "/store/apps/details?id=" ++ appId ++ lit "&hl=" ++ language
  ++ lit "&gl=" ++ country ++ lit "&sort=" ++ getSortParameter sort.

Definition alternativeUrl (appId language country : jsstring) : jsstring :=
  baseUrl ++ lit "/store/apps/details?id=" ++ appId ++ lit "&showAllReviews=true&hl="
  ++ language ++ lit "&gl=" ++ country.

(** The [options] of [fetchComments]; [None] is a property left undefined. *)
Record options := {
  limit : option number;
  sort : option jsstring;
  language : option jsstring;
  country : option jsstring
}.

Section Retrieval.

Variable decode_json : jsstring → option decoded.
Variable today : jsstring.

(** The signature of the two retrieval methods, after the destructuring of
    their [options]: [appId], [limit], [sort], [language], [country]. *)
Definition strategy : Type :=
  jsstring → number → jsstring → jsstring → jsstring → proc (list review).

Definition fetchReviewsFromPage : strategy := λ appId limit sort language country,
  try_catch
    (let_await response := axios_get (buildAppPageUrl appId sort language country) in
     if bool_decide (response.1 ≠ 200%Z)
     then Throw (lit "HTTP " ++ decimal response.1 ++ lit ": Failed to fetch app page")
     else Return (extractReviewsFromHTML decode_json today response.2 limit))
    (λ _, Return []).

Definition fetchReviewsAlternative : strategy := λ appId limit sort language country,
  try_catch
    (let_await response := axios_get (alternativeUrl appId language country) in
     if bool_decide (response.1 ≠ 200%Z)
     then Throw (lit "HTTP " ++ decimal response.1 ++ lit ": Failed to fetch reviews page")
     else Return (extractReviewsFromHTML decode_json today response.2 limit))
    (λ _, Return []).

(** [fetchComments], with the two methods it calls on [this] as arguments. *)
Definition fetchCommentsVia (page alternative : strategy)
  (appId : jsstring) (opts : options) : proc (list review) :=
  let limit := default (Finite 50) (limit opts) in
  let sort := default (lit "recent") (sort opts) in
  let language := default (lit "en") (language opts) in
  let country := default (lit "US") (country opts) in
  try_catch
    (let_await comments := page appId limit sort language country in
     let_await comments :=
       (if bool_decide (length comments = 0%nat)
        then alternative appId limit sort language country
        else Return comments) in
     Return (if bool_decide (length comments = 0%nat)
             then generateSampleReviews appId limit
             else comments))
    (λ _, Return (generateSampleReviews appId limit)).

Definition fetchComments : jsstring → options → proc (list review) :=
  fetchCommentsVia fetchReviewsFromPage fetchReviewsAlternative.

End Retrieval.

(** ** Validation middleware ([middleware/validation.js]) *)

(** What the handlers read of a GET request. *)
Record request := {
  params_appId : jsstring;
  query_limit : option jsstring;
  query_sort : option jsstring
}.

(** The body of a POST to [/batch] in which every identifier, the limit and
    the sort have a text.  [body_appIds] is [None] when the property is
    absent or is not an array; [body_limit] is the text of the property,
    which is what [parseInt] reads.  A body that holds a value without a
    text, such as an object with a property [toString] of its own, is a
    [json_body], further down. *)
Record batch_request := {
  body_appIds : option (list jsstring);
  body_limit : option jsstring;
  body_sort : option jsstring
}.

Record batch_result := {
  result_appId : jsstring;
  result_totalComments : nat;
  result_comments : list review
}.

Record batch_error := {
  error_appId : jsstring;
  error_message : jsstring
}.

(** A Number or a String, as [JSON.stringify] tells them apart. *)
Inductive scalar :=
  | Num (z : Z)
  | Str (s : jsstring).

Record stats := {
  stats_totalComments : nat;
  ratingDistribution : gmap jsstring nat;
  dateDistribution : gmap jsstring nat;
  averageRating : scalar;
  totalRating : Z
}.

Inductive body :=
  | ErrorBody (error : jsstring) (message : option jsstring)
  | CommentsBody (appId : jsstring) (totalComments : nat) (comments : list review)
      (metadata_limit : number) (metadata_sort : jsstring)
  | BatchBody (totalApps successful failed : nat)
      (results : list batch_result) (errors : list batch_error)
      (metadata_limit : number) (metadata_sort : jsstring)
  | StatsBody (appId : jsstring) (s : stats) (sampleSize : nat).

Record response := {
  status : Z;
  json : body
}.

Definition is_alnum (c : N) : bool :=
  (((97 <=? c) && (c <=? 122)) || ((65 <=? c) && (c <=? 90)) || is_digit c)%N.

(** [[a-zA-Z0-9._-]]. *)
Definition is_id_unit (c : N) : bool :=
  (is_alnum c || (c =? 46) || (c =? 95) || (c =? 45))%N.

(** [appIdPattern.test]: an alphanumeric unit, then 2 to 99 units of the
    class, then the end of the string. *)
Definition appIdPattern_test (appId : jsstring) : bool :=
  match appId with
  | c :: rest =>
      is_alnum c && forallb is_id_unit rest
      && (2 <=? length rest) && (length rest <=? 99)
  | [] => false
  end.

Definition has_doubled_separator (appId : jsstring) : bool :=
  includes appId (lit "..") || includes appId (lit "__") || includes appId (lit "--").

Definition bad_request (error : jsstring) (message : option jsstring) : response :=
  {| status := 400; json := ErrorBody error message |}.

Definition validSortOptions : list jsstring :=
  [lit "recent"; lit "rating"; lit "helpfulness"].

Definition sort_message : jsstring :=
  lit "Sort must be one of: recent, rating, helpfulness".

(** A middleware answers the request ([Some]) or calls [next()] ([None]). *)
Definition validateAppId (req : request) : option response :=
  if bool_decide (params_appId req = []) then
    Some (bad_request (lit "App ID is required") None)
  else if negb (appIdPattern_test (params_appId req)) then
    Some (bad_request (lit "Invalid app ID format")
            (Some (lit "App ID should contain only letters, numbers, dots, underscores, and hyphens, starting with a letter or number")))
  else if has_doubled_separator (params_appId req) then
    Some (bad_request (lit "Invalid app ID format")
            (Some (lit "App ID cannot contain consecutive dots, underscores, or hyphens")))
  else None.

(** [isNaN(limitNum) || limitNum < 1 || limitNum > max]. *)
Definition limit_out_of_range (limitNum : number) (max : Z) : bool :=
  match limitNum with
  | NaN => true
  | Finite z => (z <? 1)%Z || (max <? z)%Z
  | Infinity _ => true
  end.

Definition validateCommentParams (req : request) : option response :=
  if match query_limit req with
     | Some limit => limit_out_of_range (parseInt limit) 200
     | None => false
     end then
    Some (bad_request (lit "Invalid limit parameter")
            (Some (lit "Limit must be a number between 1 and 200")))
  else if match query_sort req with
          | Some sort => negb (bool_decide (sort ∈ validSortOptions))
          | None => false
          end then
    Some (bad_request (lit "Invalid sort parameter") (Some sort_message))
  else None.

(** The loop of [validateBatchRequest] over the identifiers, from index [i]. *)
Fixpoint validate_each_appId (i : nat) (appIds : list jsstring) : option response :=
  match appIds with
  | [] => None
  | appId :: rest =>
      if bool_decide (trim appId = []) then
        Some (bad_request (lit "Invalid app ID at index " ++ decimal (Z.of_nat i))
                (Some (lit "App ID must be a non-empty string")))
      else if negb (appIdPattern_test (trim appId)) then
        Some (bad_request (lit "Invalid app ID format at index " ++ decimal (Z.of_nat i))
                (Some (lit "App ID should contain only letters, numbers, dots, underscores, and hyphens, starting with a letter or number")))
      else if has_doubled_separator appId then
        Some (bad_request (lit "Invalid app ID format at index " ++ decimal (Z.of_nat i))
                (Some (lit "App ID cannot contain consecutive dots, underscores, or hyphens")))
      else validate_each_appId (S i) rest
  end.

Definition validateBatchRequest (req : batch_request) : option response :=
  match body_appIds req with
  | None => Some (bad_request (lit "appIds must be an array") None)
  | Some appIds =>
      if bool_decide (length appIds = 0) then
        Some (bad_request (lit "appIds array cannot be empty") None)
      else if (10 <? length appIds)%nat then
        Some (bad_request (lit "Maximum 10 apps allowed per batch request") None)
      else
        match validate_each_appId 0 appIds with
        | Some resp => Some resp
        | None =>
            if match body_limit req with
               | Some limit => limit_out_of_range (parseInt limit) 100
               | None => false
               end then
              Some (bad_request (lit "Invalid limit parameter")
                      (Some (lit "Limit must be a number between 1 and 100 for batch requests")))
            else if match body_sort req with
                    | Some sort => negb (bool_decide (sort ∈ validSortOptions))
                    | None => false
                    end then
              Some (bad_request (lit "Invalid sort parameter") (Some sort_message))
            else None
        end
  end.

(** ** Statistics *)

(** [a / b] of two integral Numbers: the IEEE 754 binary64 quotient. *)
Definition double_of_Z (z : Z) : spec_float := binary_normalize 53 1024 z 0 false.

Definition divide (a b : Z) : spec_float :=
  SFdiv 53 1024 (double_of_Z a) (double_of_Z b).

(** The integer [n] for which [n / 100] is nearest to [m * 2^e], the larger
    one when two are as near. *)
Definition hundredths (m : positive) (e : Z) : Z :=
  if (0 <=? e)%Z then Z.pos m * 2 ^ e * 100
  else (Z.pos m * 200 + 2 ^ (- e)) / 2 ^ (1 - e).

(** The digits of [n], at least three of them, with a point before the last
    two. *)
Definition two_places (n : Z) : jsstring :=
  let digits := decimal n in
  let padded := replicate (3 - length digits) 48%N ++ digits in
  take (length padded - 2) padded ++ [46%N] ++ drop (length padded - 2) padded.

(** [x.toFixed(2)], for [x] below 10^21 (the quotients of the handler are). *)
Definition toFixed2 (x : spec_float) : jsstring :=
  match x with
  | S754_nan => lit "NaN"
  | S754_infinity negative => if negative then lit "-Infinity" else lit "Infinity"
  | S754_zero _ => lit "0.00"
  | S754_finite negative m e =>
      (if negative then lit "-" else []) ++ two_places (hundredths m e)
  end.

(** [object[key] = (object[key] || 0) + 1], on an object that starts empty.
    The keys of the handler are the texts of ratings and the first seven
    units of dates: none names a member of [Object.prototype]. *)
Definition count_up (key : jsstring) (object : gmap jsstring nat) : gmap jsstring nat :=
  <[key := default 0 (object !! key) + 1]> object.

(** The state of the [forEach] of the statistics handler. *)
Record tally := {
  by_rating : gmap jsstring nat;
  by_month : gmap jsstring nat;
  running_total : Z
}.

Definition tally_comment (t : tally) (comment : review) : tally :=
  {| by_rating := count_up (decimal (rating comment)) (by_rating t);
     by_month := if bool_decide (date comment = []) then by_month t
                 else count_up (substring0 7 (date comment)) (by_month t);
     running_total := running_total t + rating comment |}.

Definition computeStats (comments : list review) : stats :=
  let t := foldl tally_comment {| by_rating := ∅; by_month := ∅; running_total := 0 |} comments in
  {| stats_totalComments := length comments;
     ratingDistribution := by_rating t;
     dateDistribution := by_month t;
     averageRating :=
       if (0 <? length comments)%nat
       then Str (toFixed2 (divide (running_total t) (Z.of_nat (length comments))))
       else Num 0;
     totalRating := running_total t |}.

(** ** Request handlers ([routes/comments.js]) *)

Definition server_error (error message : jsstring) : response :=
  {| status := 500; json := ErrorBody error (Some message) |}.

Section Handlers.

Variable decode_json : jsstring → option decoded.
Variable today : jsstring.

(** [router.get('/:appId', validateAppId, handler)]. *)
Definition get_comments (req : request) : proc response :=
  match validateAppId req with
  | Some rejected => Return rejected
  | None =>
      let appId := params_appId req in
      let limit := match query_limit req with
                   | Some text => parseInt text
                   | None => Finite 50
                   end in
      let sort := default (lit "recent") (query_sort req) in
      try_catch
        (let_await comments :=
           fetchComments decode_json today appId
             {| limit := Some limit; sort := Some sort;
                language := None; country := None |} in
         Return {| status := 200;
                   json := CommentsBody appId (length comments) comments limit sort |})
        (λ message, Return (server_error (lit "Failed to fetch comments") message))
  end.

(** [router.get('/:appId/stats', validateAppId, handler)]. *)
Definition get_stats (req : request) : proc response :=
  match validateAppId req with
  | Some rejected => Return rejected
  | None =>
      let appId := params_appId req in
      let limit := match query_limit req with
                   | Some text => parseInt text
                   | None => Finite 100
                   end in
      try_catch
        (let_await comments :=
           fetchComments decode_json today appId
             {| limit := Some limit; sort := Some (lit "recent");
                language := None; country := None |} in
         Return {| status := 200;
                   json := StatsBody appId (computeStats comments) (length comments) |})
        (λ message, Return (server_error (lit "Failed to fetch comment statistics") message))
  end.

(** *** The batch handler

    [appIds.map(async ...)] starts one task per identifier, each of which
    issues its first request at once; [Promise.all] waits for all of them.
    A task is the resumption of its [fetchComments]; the answers to the
    pending requests arrive in any order.  The handler is given first on a
    body of texts, where no conversion can throw, and then on any body. *)

Inductive slot :=
  | Pending (appId : jsstring) (url : jsstring) (k : outcome → proc (list review))
  | Settled.

Record pool := {
  slots : list slot;
  results : list batch_result;
  errors : list batch_error
}.

(** A task runs up to its next [await]: it waits for a request, or it is
    over, with its entry pushed on [results] or, from the [catch], on
    [errors]. *)
Definition advance_task (appId : jsstring) (p : proc (list review))
  (results : list batch_result) (errors : list batch_error)
  : slot * list batch_result * list batch_error :=
  match p with
  | Get url k => (Pending appId url k, results, errors)
  | Return comments =>
      (Settled,
       results ++ [{| result_appId := appId;
                      result_totalComments := length comments;
                      result_comments := comments |}],
       errors)
  | Throw message =>
      (Settled, results,
       errors ++ [{| error_appId := appId; error_message := message |}])
  end.

(** The synchronous part of [appIds.map]: every task up to its first
    [await], in the order of the identifiers.  The limit is the Number that
    [parseInt] makes of the text of the body's limit, which it does without
    throwing: see [start_batch] for a limit or an identifier without a
    text. *)
Fixpoint start_tasks (limit : number) (sort : jsstring) (appIds : list jsstring)
  (pl : pool) : pool :=
  match appIds with
  | [] => pl
  | appId :: rest =>
      let '(s, results, errors) :=
        advance_task appId
          (fetchComments decode_json today appId
             {| limit := Some limit; sort := Some sort;
                language := None; country := None |})
          (results pl) (errors pl) in
      start_tasks limit sort rest
        {| slots := slots pl ++ [s]; results := results; errors := errors |}
  end.

(** Task [i] goes on as [p], up to its next [await]. *)
Definition resume (i : nat) (appId : jsstring) (p : proc (list review)) (pl : pool)
  : pool :=
  let '(s, results, errors) := advance_task appId p (results pl) (errors pl) in
  {| slots := <[i := s]> (slots pl); results := results; errors := errors |}.

(** The answer [o] to the pending request of task [i] arrives. *)
Definition deliver (i : nat) (o : outcome) (pl : pool) : pool :=
  match slots pl !! i with
  | Some (Pending appId url k) => resume i appId (k o) pl
  | _ => pl
  end.

(** The answers, in the order in which they arrive. *)
Definition arrivals := list (nat * outcome).

Definition deliver_all (events : arrivals) (pl : pool) : pool :=
  foldl (λ pl ev, deliver ev.1 ev.2 pl) pl events.

Definition all_settled (pl : pool) : bool :=
  forallb (λ s, match s with Settled => true | Pending _ _ _ => false end) (slots pl).

(** [router.post('/batch', handler)].  The response, once every task is
    over; [None] while a request is still waiting for its answer. *)
Definition post_batch (req : batch_request) (events : arrivals) : option response :=
  match body_appIds req with
  | None =>
      Some {| status := 400;
              json := ErrorBody (lit "appIds array is required and must not be empty") None |}
  | Some appIds =>
      if bool_decide (length appIds = 0) then
        Some {| status := 400;
                json := ErrorBody (lit "appIds array is required and must not be empty") None |}
      else if (10 <? length appIds)%nat then
        Some {| status := 400;
                json := ErrorBody (lit "Maximum 10 apps allowed per batch request") None |}
      else
        let limit := match body_limit req with
                     | Some text => parseInt text
                     | None => Finite 20
                     end in
        let sort := default (lit "recent") (body_sort req) in
        let pl := deliver_all events
                    (start_tasks limit sort appIds
                       {| slots := []; results := []; errors := [] |}) in
        if all_settled pl then
          Some {| status := 200;
                  json := BatchBody (length appIds) (length (results pl))
                            (length (errors pl)) (results pl) (errors pl) limit sort |}
        else None
  end.

End Handlers.

(** *** The batch handler on any body

    The route checks [appIds] for an array of 1 to 10 items and nothing
    else: an item, the limit and the sort are whatever JSON values the body
    holds.  The handler hands such a value on as it is, and converts it to
    a text: in a template literal, in [parseInt], as a property key.
    [ToString] is that conversion; it is [None] where the conversion throws
    a TypeError, as it does for an object with a property [toString] of its
    own, and for an array that holds one.  The body is the object that the
    JSON middleware hands over.  [post_batch] above is this handler on a
    body of texts ([post_batch_of_texts] below). *)

(** The message of that TypeError. *)
Definition cannot_convert : jsstring := lit "Cannot convert object to primitive value".

Section AnyBody.

Context {value : Type} (ToString : value → option jsstring).
Variable decode_json : jsstring → option decoded.
Variable today : jsstring.

(** The body of a POST to [/batch].  [json_appIds] is [None] when the
    property is absent, falsy or not an array; [json_limit] and [json_sort]
    are [None] when the property is absent, which is when the defaults 20
    and ['recent'] apply. *)
Record json_body := {
  json_appIds : option (list value);
  json_limit : option value;
  json_sort : option value
}.

Record json_result := {
  entry_appId : value;
  entry_totalComments : nat;
  entry_comments : list review
}.

Record json_error := {
  failed_appId : value;
  failed_message : jsstring
}.

(** The JSON of a response; a [metadata_sort] of [None] is the default
    ['recent'] of a body without a sort. *)
Inductive json_reply :=
  | ErrorReply (error : jsstring) (message : option jsstring)
  | BatchReply (totalApps successful failed : nat)
      (results : list json_result) (errors : list json_error)
      (metadata_limit : number) (metadata_sort : option value).

Record json_response := {
  reply_status : Z;
  reply_json : json_reply
}.

(** [parseInt(limit)]: [None] when the conversion of the limit throws. *)
Definition parseInt_of (limit : option value) : option number :=
  match limit with
  | Some v => parseInt <$> ToString v
  | None => Some (Finite 20)
  end.

(** The sort that reaches [getSortParameter]: the text of the value, the
    default when the body has none, and [None] when the conversion
    throws. *)
Definition sort_of (sort : option value) : option jsstring :=
  match sort with
  | Some v => ToString v
  | None => Some (lit "recent")
  end.

(** [fetchComments(appId, { limit, sort })] on values.  For an identifier
    without a text the template literal of the first [console.log] throws
    inside the [try], the one of the [catch] throws again, and the promise
    is rejected.  For a sort without a text [sortMap[sort]] throws inside
    the [try] of [fetchReviewsFromPage], which answers with no record and
    without a request. *)
Definition fetchComments_of (appId : value) (limit : number) (sort : option value)
  : proc (list review) :=
  match ToString appId with
  | None => Throw cannot_convert
  | Some id =>
      match sort_of sort with
      | Some order =>
          fetchComments decode_json today id
            {| limit := Some limit; sort := Some order;
               language := None; country := None |}
      | None =>
          fetchCommentsVia (λ _ _ _ _ _, Return [])
            (fetchReviewsAlternative decode_json today) id
            {| limit := Some limit; sort := None;
               language := None; country := None |}
      end
  end.

(** The [try] block of the closure of [appIds.map], up to its pushes:
    [parseInt(limit)] is evaluated first, inside the [try]. *)
Definition batch_task (limit sort : option value) (appId : value) : proc (list review) :=
  match parseInt_of limit with
  | Some n => fetchComments_of appId n sort
  | None => Throw cannot_convert
  end.

Inductive task :=
  | Waiting (appId : value) (url : jsstring) (k : outcome → proc (list review))
  | Over.

(** The tasks, and the arrays [results] and [errors] of the handler. *)
Record batch := {
  tasks : list task;
  pushed : list json_result;
  caught : list json_error
}.

(** A task runs up to its next request: it waits for the answer, or it is
    over, with its entry pushed on [results] or, from the [catch], on
    [errors]. *)
Definition run_task (appId : value) (p : proc (list review))
  (results : list json_result) (errors : list json_error)
  : task * list json_result * list json_error :=
  match p with
  | Get url k => (Waiting appId url k, results, errors)
  | Return comments =>
      (Over,
       results ++ [{| entry_appId := appId;
                      entry_totalComments := length comments;
                      entry_comments := comments |}],
       errors)
  | Throw message =>
      (Over, results,
       errors ++ [{| failed_appId := appId; failed_message := message |}])
  end.

(** Every task up to its first request, in the order of the identifiers:
    the batch when the handler comes to wait for the network.  A task that
    throws before any request has pushed its error by then. *)
Fixpoint start_batch (limit sort : option value) (appIds : list value) (b : batch)
  : batch :=
  match appIds with
  | [] => b
  | appId :: rest =>
      let '(t, results, errors) :=
        run_task appId (batch_task limit sort appId) (pushed b) (caught b) in
      start_batch limit sort rest
        {| tasks := tasks b ++ [t]; pushed := results; caught := errors |}
  end.

(** The answer [o] to the pending request of task [i] arrives. *)
Definition answer (i : nat) (o : outcome) (b : batch) : batch :=
  match tasks b !! i with
  | Some (Waiting appId url k) =>
      let '(t, results, errors) := run_task appId (k o) (pushed b) (caught b) in
      {| tasks := <[i := t]> (tasks b); pushed := results; caught := errors |}
  | _ => b
  end.

Definition answer_all (events : arrivals) (b : batch) : batch :=
  foldl (λ b ev, answer ev.1 ev.2 b) b events.

Definition all_over (b : batch) : bool :=
  forallb (λ t, match t with Over => true | Waiting _ _ _ => false end) (tasks b).

(** [router.post('/batch', handler)].  The response, once every task is
    over; [None] while a request is still waiting for its answer.  For the
    metadata [parseInt(limit)] is evaluated once more, outside the
    closures: a limit without a text throws there, and the [catch] of the
    handler answers 500. *)
Definition post_batch_json (req : json_body) (events : arrivals)
  : option json_response :=
  match json_appIds req with
  | None =>
      Some {| reply_status := 400;
              reply_json :=
                ErrorReply (lit "appIds array is required and must not be empty") None |}
  | Some appIds =>
      if bool_decide (length appIds = 0) then
        Some {| reply_status := 400;
                reply_json :=
                  ErrorReply (lit "appIds array is required and must not be empty") None |}
      else if (10 <? length appIds)%nat then
        Some {| reply_status := 400;
                reply_json :=
                  ErrorReply (lit "Maximum 10 apps allowed per batch request") None |}
      else
        let b := answer_all events
                   (start_batch (json_limit req) (json_sort req) appIds
                      {| tasks := []; pushed := []; caught := [] |}) in
        if all_over b then
          match parseInt_of (json_limit req) with
          | Some limit =>
              Some {| reply_status := 200;
                      reply_json :=
                        BatchReply (length appIds) (length (pushed b)) (length (caught b))
                          (pushed b) (caught b) limit (json_sort req) |}
          | None =>
              Some {| reply_status := 500;
                      reply_json :=
                        ErrorReply (lit "Failed to process batch request")
                          (Some cannot_convert) |}
          end
        else None
  end.

End AnyBody.

Arguments json_body : clear implicits.
Arguments json_result : clear implicits.
Arguments json_error : clear implicits.
Arguments json_reply : clear implicits.
Arguments json_response : clear implicits.
Arguments task : clear implicits.
Arguments batch : clear implicits.

(** ** App information ([getAppInfo])

    *** The optional quantifier

    One pattern of [extractAppInfo] puts a unit under [?], which the
    fragment above leaves out.  The fragment is extended by that one
    quantifier; a pattern without it is matched as before. *)

Inductive xnode :=
  | Core (n : node)
  | Opt (s : cset).          (* s? *)

(** Reading: a [?] after an atom is the optional quantifier (after a star it
    is the lazy mark, as before); everything else is read as before. *)
Definition xread (m : reading) (c : N) (out : list xnode)
  : option (reading * list xnode) :=
  match m, (c =? 63)%N with
  | Plain (Some a), true => Some (Plain None, Opt (set_of a) :: out)
  | _, _ =>
      match read m c [] with
      | Some (m', emitted) => Some (m', (Core <$> emitted) ++ out)
      | None => None
      end
  end.

Fixpoint xread_all (s : jsstring) (m : reading) (out : list xnode)
  : option (list xnode) :=
  match s with
  | c :: s' =>
      match xread m c out with
      | Some (m', out') => xread_all s' m' out'
      | None => None
      end
  | [] =>
      match m with
      | Plain pending => Some (rev ((Core <$> flush pending []) ++ out))
      | Starred a => Some (rev (Core (Star (set_of a)) :: out))
      | _ => None
      end
  end.

Record xregexp := {
  xignore_case : bool;
  xprog : list xnode
}.

Definition XRegExp (source flags : jsstring) : xregexp :=
  {| xignore_case := bool_decide (105%N ∈ flags);
     xprog := default [] (xread_all source (Plain None) []) |}.

Fixpoint xmatch_here (ic : bool) (p : list xnode) (s : jsstring) (st : mstate)
  {struct p} : option mstate :=
  match p with
  | [] => Some st
  | Core (Chr c) :: p' =>
      match s with
      | ch :: s' => if chr_eq ic c ch then xmatch_here ic p' s' (advance st) else None
      | [] => None
      end
  | Core (Cls cs) :: p' =>
      match s with
      | ch :: s' => if cset_mem ic cs ch then xmatch_here ic p' s' (advance st) else None
      | [] => None
      end
  | Core (Star cs) :: p' => star_greedy (cset_mem ic cs) (xmatch_here ic p') s st
  | Core (StarLazy cs) :: p' => star_lazy (cset_mem ic cs) (xmatch_here ic p') s st
  | Core (Plus cs) :: p' =>
      match s with
      | ch :: s' =>
          if cset_mem ic cs ch
          then star_greedy (cset_mem ic cs) (xmatch_here ic p') s' (advance st)
          else None
      | [] => None
      end
  | Core GroupOpen :: p' => xmatch_here ic p' s (open_group st)
  | Core GroupClose :: p' => xmatch_here ic p' s (close_group st)
  | Opt cs :: p' =>
      match s with
      | ch :: s' =>
          if cset_mem ic cs ch then
            match xmatch_here ic p' s' (advance st) with
            | Some r => Some r
            | None => xmatch_here ic p' s st
            end
          else xmatch_here ic p' s st
      | [] => xmatch_here ic p' s st
      end
  end.

Definition xattempt (r : xregexp) (s : jsstring) : option mstate :=
  xmatch_here (xignore_case r) (xprog r) s mstart.

(** [String.prototype.match] with a pattern without the g flag. *)
Fixpoint xmatch_first (r : xregexp) (s : jsstring) : option (jsstring * option jsstring) :=
  match xattempt r s with
  | Some st => Some (take (consumed st) s, group_text s st)
  | None =>
      match s with
      | _ :: s' => xmatch_first r s'
      | [] => None
      end
  end.

(** *** Numbers with a fraction *)

(** The longest run of decimal digits at the head of a text, and the rest. *)
Fixpoint span_digits (s : jsstring) : jsstring * jsstring :=
  match s with
  | c :: s' =>
      if is_digit c then let '(ds, rest) := span_digits s' in (c :: ds, rest)
      else ([], s)
  | [] => ([], [])
  end.

(** The value of a run of decimal digits; 0 for the empty run. *)
Definition digits_N (ds : jsstring) : N := default 0%N (digits_value 10 None ds).

(** The binary64 Number nearest to [n * 10^e], ties to even: the value of
    a decimal literal (ECMA-262 lets an implementation be less exact past
    the twentieth digit; V8 is not). *)
Definition decimal_double (negative : bool) (n : N) (e : Z) : spec_float :=
  match n with
  | N0 => S754_zero negative
  | Npos p =>
      if (0 <=? e)%Z then
        binary_normalize 53 1024
          ((if negative then Z.neg p else Z.pos p) * 10 ^ e) 0 false
      else
        SFdiv 53 1024 (S754_finite negative p 0)
          (S754_finite false (Z.to_pos (10 ^ (- e))) 0)
  end.

(** [parseFloat]: leading white space, a sign, then [Infinity] or the longest
    decimal literal (digits, a point, digits, an exponent); NaN when there
    is none. *)
Definition parseFloat (s : jsstring) : spec_float :=
  let s1 := drop_spaces s in
  let '(negative, s2) :=
    match s1 with
    | 45%N :: t => (true, t)
    | 43%N :: t => (false, t)
    | _ => (false, s1)
    end in
  if is_prefix (lit "Infinity") s2 then S754_infinity negative
  else
    let '(int_digits, s3) := span_digits s2 in
    let '(frac_digits, s4) :=
      match s3 with
      | 46%N :: t => span_digits t
      | _ => ([], s3)
      end in
    if bool_decide (int_digits = [] ∧ frac_digits = []) then S754_nan
    else
      let exponent :=
        match s4 with
        | c :: t =>
            if ((c =? 101) || (c =? 69))%N then
              let '(minus, t') :=
                match t with
                | 45%N :: u => (true, u)
                | 43%N :: u => (false, u)
                | _ => (false, t)
                end in
              match span_digits t' with
              | ([], _) => 0%Z
              | (ds, _) => if minus : bool then (- Z.of_N (digits_N ds))%Z
                           else Z.of_N (digits_N ds)
              end
            else 0%Z
        | [] => 0%Z
        end in
      decimal_double negative (digits_N (int_digits ++ frac_digits))
        (exponent - Z.of_nat (length frac_digits)).

(** *** The functions *)

(** A property read on an object literal: a string of the table, or what
    [Object.prototype] holds under that key (a function, or for [__proto__]
    the prototype itself). *)
Inductive looked_up :=
  | OwnText (s : jsstring)
  | Inherited (key : jsstring).

Module AppInfo.
Record t := {
  name : looked_up;
  developer : jsstring;
  category : jsstring;
  rating : spec_float;
  totalRatings : number;
  downloads : jsstring;
  size : jsstring;
  version : jsstring
}.
End AppInfo.

Definition appNames : gmap jsstring jsstring :=
  list_to_map
    [(lit "com.whatsapp", lit "WhatsApp Messenger");
     (lit "com.instagram.android", lit "Instagram");
     (lit "com.twitter.android", lit "Twitter");
     (lit "com.facebook.katana", lit "Facebook");
     (lit "com.google.android.youtube", lit "YouTube")].

(** [appNames[appId] || 'Sample App']: every value of the table and every
    member of [Object.prototype] is truthy. *)
Definition generateSampleAppInfo (appId : jsstring) : AppInfo.t :=
  {| AppInfo.name :=
       match appNames !! appId with
       | Some n => OwnText n
       | None =>
           if bool_decide (appId ∈ object_prototype_keys) then Inherited appId
           else OwnText (lit "Sample App")
       end;
     AppInfo.developer := lit "Sample Developer";
     AppInfo.category := lit "Communication";
     AppInfo.rating := decimal_double false 42 (-1);
     AppInfo.totalRatings := Finite 1500000;
     AppInfo.downloads := lit "1B+";
     AppInfo.size := lit "45MB";
     AppInfo.version := lit "2.23.45.78" |}.

(** The patterns of [extractAppInfo]. *)
Definition info_name_pattern : regexp :=
  RegExp (markup "<h1[^>]*>([^<]+)<\/h1>") (lit "i").

Definition info_developer_pattern : regexp :=
  RegExp (markup "developer['\s]*:['\s]*'([^']+)'") (lit "i").

Definition info_rating_pattern : xregexp :=
  XRegExp (markup "rating['\s]*:['\s]*(\d+\.?\d*)") (lit "i").

Definition info_totalRatings_pattern : regexp :=
  RegExp (markup "totalRatings['\s]*:['\s]*(\d+)") (lit "i").

(** [extractAppInfo].  On a payload that is not a text [html.match] is a
    TypeError, and so is the [trim] of a name group that took no part in
    the match: the [catch] answers with the sample of ['unknown'].  The
    other three fields read their group as it is; the group of these
    patterns always takes part in a match. *)
Definition extractAppInfo (html : payload) : AppInfo.t :=
  match html with
  | NotText => generateSampleAppInfo (lit "unknown")
  | Text html =>
      match match_first info_name_pattern html with
      | Some (_, None) => generateSampleAppInfo (lit "unknown")
      | nameMatch =>
          {| AppInfo.name :=
               match nameMatch with
               | Some (_, Some group) => OwnText (trim group)
               | _ => OwnText (lit "Unknown")
               end;
             AppInfo.developer :=
               match match_first info_developer_pattern html with
               | Some (_, Some group) => group
               | _ => lit "Unknown"
               end;
             AppInfo.category := lit "Unknown";
             AppInfo.rating :=
               match xmatch_first info_rating_pattern html with
               | Some (_, Some group) => parseFloat group
               | Some (_, None) => S754_nan
               | None => S754_zero false
               end;
             AppInfo.totalRatings :=
               match match_first info_totalRatings_pattern html with
               | Some (_, Some group) => parseInt group
               | Some (_, None) => NaN
               | None => Finite 0
               end;
             AppInfo.downloads := lit "Unknown";
             AppInfo.size := lit "Unknown";
             AppInfo.version := lit "Unknown" |}
      end
  end.

Definition appInfoUrl (appId : jsstring) : jsstring :=
  baseUrl ++ lit "/store/apps/details?id=" ++ appId ++ lit "&hl=en&gl=US".

Definition getAppInfo (appId : jsstring) : proc AppInfo.t :=
  try_catch
    (let_await response := axios_get (appInfoUrl appId) in
     if bool_decide (response.1 ≠ 200%Z)
     then Throw (lit "HTTP " ++ decimal response.1 ++ lit ": Failed to fetch app info")
     else Return (extractAppInfo response.2))
    (λ _, Return (generateSampleAppInfo appId)).

#[global] Instance cset_eq_dec : EqDecision cset.
Proof. solve_decision. Defined.

#[global] Instance node_eq_dec : EqDecision node.
Proof. solve_decision. Defined.

#[global] Instance xnode_eq_dec : EqDecision xnode.
Proof. solve_decision. Defined.

(** ** Configuration ([config/config.js]) *)

(** [process.env]: a variable holds a text, or is not set. *)
Definition environment : Type := jsstring → option jsstring.





Module Config.

Record server := {
  port : scalar;
  host : jsstring;
  environment : jsstring
}.

Record playStore := {
  baseUrl : jsstring;
  userAgent : jsstring;
  language : jsstring;
  country : jsstring;
  requestDelay : number;
  timeout : number;
  maxRedirects : number
}.

Record scraping := {
  maxCommentsPerRequest : number;
  maxBatchApps : number;
  defaultCommentLimit : number;
  enableFallbackParsing : bool;
  retryAttempts : number;
  retryDelay : number
}.

Record rateLimit := {
  windowMs : number;
  max : number;
  message : jsstring
}.

Record security := {
  enableCors : bool;
  enableHelmet : bool;
  corsOrigin : jsstring
}.

Record logging := {
  level : jsstring;
  enableConsoleLogging : bool;
  enableFileLogging : bool;
  logFilePath : jsstring
}.

Record cache := {
  enableCache : bool;
  cacheTTL : number;
  maxCacheSize : number
}.

Record t := {
  of_server : server;
  of_playStore : playStore;
  of_scraping : scraping;
  of_rateLimit : rateLimit;
  of_security : security;
  of_logging : logging;
  of_cache : cache
}.

End Config.


(* ================================================================== *)
(** * The vocabulary of the properties *)

(** An attempt consumes units of the string it is given, and no more. *)
Definition within (s : jsstring) (st st' : mstate) : Prop :=
  consumed st ≤ consumed st' ≤ consumed st + length s.

(** The text of a match by a pattern that starts with a literal: it starts
    with that literal, up to case. *)
Definition starts_like (ic : bool) (c : N) (m : jsstring) : Prop :=
  ∃ ch rest, m = ch :: rest ∧ chr_eq ic c ch = true.

(** The group offsets are set once and for all. *)
Definition keeps_group (st st' : mstate) : Prop :=
  (is_Some (group_start st) → is_Some (group_start st'))
  ∧ (is_Some (group_end st) → is_Some (group_end st')).

(** The invariant of a record handed to a caller. *)
Definition valid_review (r : review) : Prop :=
  text r ≠ [] ∧ (0 ≤ rating r ≤ 5)%Z.

(** The text of a block of markup: its tags and its runs of white space
    replaced by a space, and the ends trimmed. *)
Definition textContent (html : jsstring) : jsstring :=
  trim (replace_all spaces_pattern (lit " ") (replace_all tag_pattern (lit " ") html 0) 0).

(** A text that makes a record: 10 units or more, and not the three words
    of the navigation bar together. *)
Definition usable_text (t : jsstring) : Prop :=
  10 ≤ length t
  ∧ ¬ (includes t (lit "Games") = true ∧ includes t (lit "Apps") = true
       ∧ includes t (lit "Movies") = true).

(** No [r] with an [a] right after it, in either letter case: no place
    where a match of the rating pattern could start. *)
Fixpoint no_ra (s : jsstring) : bool :=
  match s with
  | c :: s' =>
      negb (chr_eq true 114 c
            && match s' with c' :: _ => chr_eq true 97 c' | [] => false end)
      && no_ra s'
  | [] => true
  end.

(** The rating a block states: what [parseInt] reads after the first
    [rating] with its colon, if there is one. *)
Definition stated_rating (html : jsstring) : option number :=
  match match_first rating_pattern html with
  | Some (_, Some digits) => Some (parseInt digits)
  | _ => None
  end.

Definition with_date (d : jsstring) (r : review) : review :=
  {| text := text r; rating := rating r; date := d; author := author r;
     helpful := helpful r; source := source r |}.

(** What a retrieval method makes of the outcome of its request. *)
Definition page_records (decode_json : jsstring → option decoded) (today : jsstring)
  (limit : number) (o : outcome) : list review :=
  match o with
  | Resolved status data =>
      if bool_decide (status = 200%Z)
      then extractReviewsFromHTML decode_json today data limit
      else []
  | Rejected _ => []
  end.

(** What [fetchComments] returns and the requests it has issued by then, read
    off the two answers of the network. *)
Definition fetched (decode_json : jsstring → option decoded) (today : jsstring)
  (net : network) (appId : jsstring) (opts : options) (log : list jsstring)
  : list review * list jsstring :=
  let limit := default (Finite 50) (limit opts) in
  let sort := default (lit "recent") (sort opts) in
  let language := default (lit "en") (language opts) in
  let country := default (lit "US") (country opts) in
  let url1 := buildAppPageUrl appId sort language country in
  let url2 := alternativeUrl appId language country in
  let c1 := page_records decode_json today limit (net log url1) in
  let c2 := page_records decode_json today limit (net (log ++ [url1]) url2) in
  if bool_decide (c1 = []) then
    if bool_decide (c2 = []) then (generateSampleReviews appId limit, log ++ [url1; url2])
    else (c2, log ++ [url1; url2])
  else (c1, log ++ [url1]).

(** The total of the counts of a histogram. *)
Definition histogram_total (object : gmap jsstring nat) : nat :=
  map_fold (λ _ n acc, n + acc) 0 object.

(** A resumption that cannot throw, whatever the network answers. *)
Inductive never_throws {A} : proc A → Prop :=
  | never_throws_return a : never_throws (Return a)
  | never_throws_get url k : (∀ o, never_throws (k o)) → never_throws (Get url k).

(** What [validateCommentParams] lets through: no limit or one that parses
    to an integer of the range, no sort or one of the three orders. *)
Definition limit_in_range (limit : option jsstring) (max : Z) : Prop :=
  match limit with
  | None => True
  | Some text => ∃ z, parseInt text = Finite z ∧ (1 ≤ z ≤ max)%Z
  end.

Definition sort_allowed (sort : option jsstring) : Prop :=
  match sort with
  | None => True
  | Some order => order ∈ validSortOptions
  end.

(** The decimal digits of a numeral, as a text. *)

Definition digits_of (d : Decimal.uint) : jsstring := lit (NilEmpty.string_of_uint d).

(** The Number nearest to an integer. *)

Definition Number_of_Z (z : Z) : number := Number_of (z <? 0)%Z (Z.abs_N z).

(** [nearest_double] and the rounding of the Standard Library's model of
    IEEE 754, at the precision and the exponent range of a binary64, give
    the same Number for [v]. *)

Definition rounds_like_binary64 (v : N) : bool :=
  match nearest_double v, double_of_Z (Z.of_N v) with
  | Some 0%N, S754_zero false => true
  | Some x, S754_finite false m e =>
      if (0 <=? e)%Z then bool_decide (Z.of_N x = Z.pos m * 2 ^ e)%Z
      else bool_decide (Z.of_N x * 2 ^ (- e) = Z.pos m)%Z
  | None, S754_infinity false => true
  | _, _ => false
  end.

(** A Number that is neither NaN nor below 0. *)

Definition not_negative (n : number) : Prop :=
  match n with
  | NaN => False
  | Finite z => (0 ≤ z)%Z
  | Infinity negative => negative = false
  end.

(** What the pattern of an identifier asks for: 3 to 100 units of
    [[a-zA-Z0-9._-]], the first of them a letter or a digit. *)

Definition id_shape (s : jsstring) : Prop :=
  3 ≤ length s ≤ 100
  ∧ (∃ c, head s = Some c ∧ is_alnum c = true)
  ∧ Forall (λ c, is_id_unit c = true) s.

(** No dot, underscore or hyphen next to another of the same. *)

Definition no_doubled_separator (s : jsstring) : Prop :=
  ∀ i c, s !! i = Some c → s !! S i = Some c → c ≠ 46%N ∧ c ≠ 95%N ∧ c ≠ 45%N.

(** What the loop of [validateBatchRequest] lets through: the pattern is
    tested on the trimmed identifier, the doubled separators on the
    identifier as it is. *)

Definition batch_id (appId : jsstring) : Prop :=
  id_shape (trim appId) ∧ no_doubled_separator appId.

(** The two openings of the errors of that loop; the index follows. *)

Definition batch_id_messages : list jsstring :=
  [lit "Invalid app ID at index "; lit "Invalid app ID format at index "].

(** A request with its identifier, its limit, its sort replaced. *)

Definition with_appId (req : request) (appId : jsstring) : request :=
  {| params_appId := appId; query_limit := query_limit req;
     query_sort := query_sort req |}.

Definition with_limit (req : request) (text : jsstring) : request :=
  {| params_appId := params_appId req; query_limit := Some text;
     query_sort := query_sort req |}.

(** A property of a histogram object: absent at a count of 0. *)

Definition positive_count (n : nat) : option nat :=
  match n with 0 => None | S _ => Some n end.

(** What a task of the batch handler may still do: return, or issue the
    request of the alternative method and return at its answer. *)

Definition last_stage (p : proc (list review)) : Prop := ∃ comments, p = Return comments.

Definition first_stage (url2 : jsstring) (p : proc (list review)) : Prop :=
  last_stage p ∨ ∃ k, p = Get url2 k ∧ ∀ o, last_stage (k o).

(** A task of the batch handler, for the identifier it was started for: it
    is over, or it waits for the page of that identifier, or for the
    alternative page of that identifier. *)

Definition task_state (sort : jsstring) (appId : jsstring) (s : slot) : Prop :=
  match s with
  | Settled => True
  | Pending id url k =>
      id = appId
      ∧ (url = buildAppPageUrl appId sort (lit "en") (lit "US")
         ∧ (∀ o, first_stage (alternativeUrl appId (lit "en") (lit "US")) (k o))
         ∨ url = alternativeUrl appId (lit "en") (lit "US")
           ∧ ∀ o, last_stage (k o))
  end.

(** A task that waits for the answer to its first request. *)

Definition first_request (sort : jsstring) (appId : jsstring) (s : slot) : Prop :=
  ∃ k, s = Pending appId (buildAppPageUrl appId sort (lit "en") (lit "US")) k
       ∧ ∀ o, first_stage (alternativeUrl appId (lit "en") (lit "US")) (k o).

(** The batch handler on any body. *)

Section AnyBodyVocabulary.

Context {value : Type} (ToString : value → option jsstring).

(** The entry of [errors] for an identifier whose conversion throws. *)
Definition conversion_error (appId : value) : json_error value :=
  {| failed_appId := appId; failed_message := cannot_convert |}.

(** The identifier whose task an arriving answer finishes with a result,
    if it finishes one. *)
Definition finishes (i : nat) (o : outcome) (b : batch value) : list value :=
  match tasks b !! i with
  | Some (Waiting appId url k) =>
      match k o with
      | Return _ => [appId]
      | _ => []
      end
  | _ => []
  end.

(** The identifiers in the order in which the answers finish their
    tasks. *)
Fixpoint completion_order (events : arrivals) (b : batch value) : list value :=
  match events with
  | [] => []
  | ev :: rest => finishes ev.1 ev.2 b ++ completion_order rest (answer ev.1 ev.2 b)
  end.

Definition task_ids (t : task value) : list value :=
  match t with
  | Waiting appId _ _ => [appId]
  | Over => []
  end.

Definition task_ok (t : task value) : Prop :=
  match t with
  | Waiting _ _ k => ∀ o, never_throws (k o)
  | Over => True
  end.

Definition entry_counted (r : json_result value) : Prop :=
  entry_totalComments r = length (entry_comments r).

(** The task of an identifier when the handler comes to wait for the
    network.  It is over for an identifier without a text; otherwise it
    waits for the page of the identifier, or, under a sort without a text,
    for the alternative page. *)
Definition first_task (sort : option value) (appId : value) (t : task value) : Prop :=
  match ToString appId with
  | None => t = Over
  | Some id =>
      ∃ k, match sort_of ToString sort with
           | Some order =>
               t = Waiting appId (buildAppPageUrl id order (lit "en") (lit "US")) k
               ∧ ∀ o, first_stage (alternativeUrl id (lit "en") (lit "US")) (k o)
           | None =>
               t = Waiting appId (alternativeUrl id (lit "en") (lit "US")) k
               ∧ ∀ o, last_stage (k o)
           end
  end.

(** The invariant of the tasks over the identifiers [ids], under a limit
    with a text: [errors] holds the identifiers without a text, no task
    can throw any more, and every identifier with a text is either waiting
    for an answer or has its entry in [results]. *)
Record batch_inv (ids : list value) (b : batch value) : Prop := {
  inv_caught : caught b = conversion_error <$> filter (λ v, ToString v = None) ids;
  inv_tasks : Forall task_ok (tasks b);
  inv_ids : (entry_appId <$> pushed b) ++ (tasks b ≫= task_ids)
            ≡ₚ filter (λ v, is_Some (ToString v)) ids;
  inv_counted : Forall entry_counted (pushed b)
}.

End AnyBodyVocabulary.

(** A body of texts, and the batch of one, as [post_batch] has them. *)

Definition body_of_texts (req : batch_request) : json_body jsstring :=
  {| json_appIds := body_appIds req; json_limit := body_limit req;
     json_sort := body_sort req |}.

Definition result_of_texts (r : json_result jsstring) : batch_result :=
  {| result_appId := entry_appId r; result_totalComments := entry_totalComments r;
     result_comments := entry_comments r |}.

Definition error_of_texts (e : json_error jsstring) : batch_error :=
  {| error_appId := failed_appId e; error_message := failed_message e |}.

Definition slot_of_texts (t : task jsstring) : slot :=
  match t with
  | Waiting appId url k => Pending appId url k
  | Over => Settled
  end.

Definition pool_of_texts (b : batch jsstring) : pool :=
  {| slots := slot_of_texts <$> tasks b;
     results := result_of_texts <$> pushed b;
     errors := error_of_texts <$> caught b |}.

Definition response_of_texts (r : json_response jsstring) : response :=
  {| status := reply_status r;
     json := match reply_json r with
             | ErrorReply error message => ErrorBody error message
             | BatchReply totalApps successful failed results errors limit sort =>
                 BatchBody totalApps successful failed
                   (result_of_texts <$> results) (error_of_texts <$> errors)
                   limit (default (lit "recent") sort)
             end |}.

(** The length of the run of units of a class at the head of a text. *)

Fixpoint leading (mem : N → bool) (s : jsstring) : nat :=
  match s with
  | c :: s' => if mem c then S (leading mem s') else 0
  | [] => 0
  end.

(** Every run of white space replaced by one space, as a function of the
    text alone; [in_run] tells that the unit before was white space. *)

Fixpoint collapse (in_run : bool) (s : jsstring) : jsstring :=
  match s with
  | [] => []
  | c :: s' =>
      if is_space c then (if in_run then collapse true s' else 32%N :: collapse true s')
      else c :: collapse false s'
  end.

(** Every white space unit is a space, and no two are adjacent. *)

Fixpoint single_spaced (s : jsstring) : Prop :=
  match s with
  | [] => True
  | c :: s' =>
      (is_space c = true →
       c = 32%N ∧ ∀ c', head s' = Some c' → is_space c' = false)
      ∧ single_spaced s'
  end.

(** No opening angle bracket with a closing one anywhere after it. *)

Fixpoint tag_free (s : jsstring) : Prop :=
  match s with
  | [] => True
  | c :: s' => (c = 60%N → 62%N ∉ s') ∧ tag_free s'
  end.

(** No white space at either end. *)

Definition trimmed (s : jsstring) : Prop :=
  (∀ c, head s = Some c → is_space c = false)
  ∧ (∀ c, last s = Some c → is_space c = false).

(** The records of the containers a pattern finds, in the order of the
    text. *)

Definition container_records (today : jsstring) (pattern : regexp) (s : jsstring)
  : list review :=
  omap (extractCommentFromHTML today) (scan pattern s 0).

(** The records of the occurrences of the bare-text pattern, less the
    first. *)

Definition text_records (today : jsstring) (s : jsstring) : list review :=
  text_record today <$> tail (scan text_pattern s 0).

(** What one pattern adds to the records of [extractReviewsFromHTML]. *)

Definition pattern_records (decode_json : jsstring → option decoded) (today : jsstring)
  (s : jsstring) (limit : number) (pattern : regexp) : list review :=
  match match_all pattern s with
  | Some matches => processReviewMatches decode_json today matches pattern limit
  | None => []
  end.

(** The texts a pattern matches, whatever its groups: a quantified class
    stands for a run of its units. *)

Inductive xmatches (ic : bool) : list xnode → jsstring → Prop :=
  | xmatches_nil : xmatches ic [] []
  | xmatches_chr c ch p t :
      chr_eq ic c ch = true → xmatches ic p t →
      xmatches ic (Core (Chr c) :: p) (ch :: t)
  | xmatches_cls cs ch p t :
      cset_mem ic cs ch = true → xmatches ic p t →
      xmatches ic (Core (Cls cs) :: p) (ch :: t)
  | xmatches_star cs run p t :
      Forall (λ ch, cset_mem ic cs ch = true) run → xmatches ic p t →
      xmatches ic (Core (Star cs) :: p) (run ++ t)
  | xmatches_star_lazy cs run p t :
      Forall (λ ch, cset_mem ic cs ch = true) run → xmatches ic p t →
      xmatches ic (Core (StarLazy cs) :: p) (run ++ t)
  | xmatches_plus cs ch run p t :
      cset_mem ic cs ch = true →
      Forall (λ ch, cset_mem ic cs ch = true) run → xmatches ic p t →
      xmatches ic (Core (Plus cs) :: p) (ch :: run ++ t)
  | xmatches_open p t : xmatches ic p t → xmatches ic (Core GroupOpen :: p) t
  | xmatches_close p t : xmatches ic p t → xmatches ic (Core GroupClose :: p) t
  | xmatches_opt_none cs p t : xmatches ic p t → xmatches ic (Opt cs :: p) t
  | xmatches_opt_one cs ch p t :
      cset_mem ic cs ch = true → xmatches ic p t →
      xmatches ic (Opt cs :: p) (ch :: t).

(** A part of a pattern without a group mark. *)

Definition plain (p : list xnode) : Prop :=
  (Core GroupOpen ∉ p) ∧ (Core GroupClose ∉ p).

(** A pattern with one group: [pre (body) post]. *)

Definition one_group (pre body post : list xnode) : list xnode :=
  pre ++ Core GroupOpen :: body ++ Core GroupClose :: post.

(** The sign of a Number; NaN has none. *)

Definition sign_of (x : spec_float) : option bool :=
  match x with
  | S754_nan => None
  | S754_zero s | S754_infinity s | S754_finite s _ _ => Some s
  end.

(** The integer settings: the variable, the default, the setting. *)


Definition with_sort (req : request) (order : jsstring) : request :=
  {| params_appId := params_appId req; query_limit := query_limit req;
     query_sort := Some order |}.

(** A decoder that takes no text for JSON, and a network out of reach: what
    the closed instances below run against. *)
Definition reject_json : jsstring → option decoded := λ _, None.

Definition unreachable : network := λ _ _, Rejected (lit "ECONNREFUSED").

(* ================================================================== *)
(** * Properties *)

(** ** Running a resumption *)

Lemma run_bind {A B} (net : network) (p : proc A) (f : A → proc B) log :
  run net (bind p f) log =
  match run net p log with
  | (Fulfilled a, log') => run net (f a) log'
  | (Failed e, log') => (Failed e, log')
  end.
Proof.
  revert log. induction p as [a|e|url k IH]; intros log; simpl; auto.
Qed.

Lemma run_try_catch {A} (net : network) (p : proc A) (h : jsstring → proc A) log :
  run net (try_catch p h) log =
  match run net p log with
  | (Fulfilled a, log') => (Fulfilled a, log')
  | (Failed e, log') => run net (h e) log'
  end.
Proof.
  revert log. induction p as [a|e|url k IH]; intros log; simpl; auto.
Qed.

(** ** The matcher *)

(** The eight patterns of the source are within the fragment: each of them
    is read to the end, into a program that is not empty. *)
Lemma patterns_are_read :
  Forall (λ r, ∃ p, read_all (pattern_source r) (Plain None) [] = Some p
                    ∧ prog r = p ∧ p ≠ [])
    (reviewPatterns ++ [tag_pattern; spaces_pattern; rating_pattern; author_pattern]).
Proof. repeat constructor; by eexists. Qed.

Section QuantifierBounds.
Context (mem : N → bool) (k : jsstring → mstate → option mstate).
Hypothesis k_within : ∀ s st st', k s st = Some st' → within s st st'.

Lemma star_greedy_within s st st' :
  star_greedy mem k s st = Some st' → within s st st'.
Proof.
  revert st. induction s as [|ch s IH]; intros st H; simpl in H.
  - by apply k_within.
  - destruct (mem ch); [|by apply k_within].
    destruct (star_greedy mem k s (advance st)) as [r|] eqn:E.
    + simplify_eq. apply IH in E. unfold within in *. simpl in *. lia.
    + by apply k_within.
Qed.

Lemma star_lazy_within s st st' :
  star_lazy mem k s st = Some st' → within s st st'.
Proof.
  revert st. induction s as [|ch s IH]; intros st H; simpl in H.
  - destruct (k [] st) eqn:E; [|done]. simplify_eq. by apply k_within.
  - destruct (k (ch :: s) st) eqn:E.
    + simplify_eq. by apply k_within.
    + destruct (mem ch); [|done].
      apply IH in H. unfold within in *. simpl in *. lia.
Qed.
End QuantifierBounds.

Lemma match_here_within ic p : ∀ s st st',
  match_here ic p s st = Some st' → within s st st'.
Proof.
  induction p as [|n p IH]; intros s st st' H; simpl in H.
  - simplify_eq. unfold within. lia.
  - destruct n.
    + destruct s as [|ch s]; [done|]. destruct (chr_eq ic c ch); [|done].
      apply IH in H. unfold within in *. simpl in *. lia.
    + destruct s as [|ch s]; [done|]. destruct (cset_mem ic s0 ch); [|done].
      apply IH in H. unfold within in *. simpl in *. lia.
    + by eapply star_greedy_within.
    + by eapply star_lazy_within.
    + destruct s as [|ch s]; [done|]. destruct (cset_mem ic s0 ch); [|done].
      eapply star_greedy_within in H; [|done].
      unfold within in *. simpl in *. lia.
    + apply IH in H. unfold within in *. simpl in *. lia.
    + apply IH in H. unfold within in *. simpl in *. lia.
Qed.

Lemma attempt_starts_like r c p s st :
  prog r = Chr c :: p →
  attempt r s = Some st →
  starts_like (ignore_case r) c (take (consumed st) s).
Proof.
  unfold attempt. intros -> H. simpl in H.
  destruct s as [|ch s]; [done|].
  destruct (chr_eq (ignore_case r) c ch) eqn:E; [|done].
  apply match_here_within in H. unfold within in H. simpl in H.
  destruct (consumed st) as [|n]; [lia|].
  exists ch, (take n s). done.
Qed.

Lemma scan_starts_like r c p s skip :
  prog r = Chr c :: p →
  Forall (starts_like (ignore_case r) c) (scan r s skip).
Proof.
  intros Hp. revert skip. induction s as [|ch s IH]; intros skip.
  - destruct skip; simpl; [|done].
    destruct (attempt r []) eqn:E; [|done].
    constructor; [|done]. by eapply (attempt_starts_like _ _ _ []).
  - destruct skip; simpl; [|done].
    destruct (attempt r (ch :: s)) eqn:E; [|done].
    constructor; [|done]. by eapply (attempt_starts_like _ _ _ (ch :: s)).
Qed.

Lemma match_all_scan r s ms : match_all r s = Some ms → ms = scan r s 0.
Proof. unfold match_all. destruct (scan r s 0); naive_solver. Qed.

Section QuantifierGroups.
Context (mem : N → bool) (k : jsstring → mstate → option mstate).
Context (R : mstate → mstate → Prop).
Hypothesis R_advance : ∀ st st', R (advance st) st' → R st st'.
Hypothesis k_R : ∀ s st st', k s st = Some st' → R st st'.

Lemma star_greedy_rel s st st' : star_greedy mem k s st = Some st' → R st st'.
Proof.
  revert st. induction s as [|ch s IH]; intros st H; simpl in H; [by eapply k_R|].
  destruct (mem ch); [|by eapply k_R].
  destruct (star_greedy mem k s (advance st)) as [r|] eqn:E; [|by eapply k_R].
  simplify_eq. by apply R_advance, IH.
Qed.

Lemma star_lazy_rel s st st' : star_lazy mem k s st = Some st' → R st st'.
Proof.
  revert st. induction s as [|ch s IH]; intros st H; simpl in H.
  - destruct (k [] st) eqn:E; [|done]. simplify_eq. by eapply k_R.
  - destruct (k (ch :: s) st) eqn:E; [simplify_eq; by eapply k_R|].
    destruct (mem ch); [|done]. by apply R_advance, IH.
Qed.
End QuantifierGroups.

Lemma match_here_keeps_group ic p : ∀ s st st',
  match_here ic p s st = Some st' → keeps_group st st'.
Proof.
  induction p as [|n p IH]; intros s st st' H; simpl in H.
  - by simplify_eq.
  - destruct n.
    + destruct s as [|ch s]; [done|]. destruct (chr_eq ic c ch); [|done].
      by apply IH in H.
    + destruct s as [|ch s]; [done|]. destruct (cset_mem ic s0 ch); [|done].
      by apply IH in H.
    + eapply (star_greedy_rel _ _ keeps_group); [|exact IH|exact H]. done.
    + eapply (star_lazy_rel _ _ keeps_group); [|exact IH|exact H]. done.
    + destruct s as [|ch s]; [done|]. destruct (cset_mem ic s0 ch); [|done].
      eapply (star_greedy_rel _ _ keeps_group) in H; [done|done|exact IH].
    + apply IH in H as [H1 H2]. split; [intros _; apply H1; by eexists|done].
    + apply IH in H as [H1 H2]. split; [done|intros _; apply H2; by eexists].
Qed.

(** A pattern with a group that every match goes through: the group takes
    part in every match. *)
Lemma match_here_group ic p : ∀ s st st',
  GroupOpen ∈ p → GroupClose ∈ p →
  match_here ic p s st = Some st' →
  is_Some (group_start st') ∧ is_Some (group_end st').
Proof.
  assert (∀ q, (∀ s st st', match_here ic q s st = Some st' →
                 (GroupOpen ∈ q → is_Some (group_start st'))
                 ∧ (GroupClose ∈ q → is_Some (group_end st')))) as Hall.
  { induction q as [|n q IH]; intros s st st' H.
    { split; intros Hin; by apply elem_of_nil in Hin. }
    assert (∀ s st st', match_here ic q s st = Some st' →
              (GroupOpen ∈ n :: q → n ≠ GroupOpen → is_Some (group_start st'))
              ∧ (GroupClose ∈ n :: q → n ≠ GroupClose → is_Some (group_end st')))
      as Hrest.
    { intros s1 st1 st1' H1. apply IH in H1 as [Ho Hc].
      split; intros [->|Hin]%elem_of_cons Hne; try done; auto. }
    simpl in H. destruct n.
    - destruct s as [|ch s]; [done|]. destruct (chr_eq ic c ch); [|done].
      apply Hrest in H as [Ho Hc]. split; intros; auto.
    - destruct s as [|ch s]; [done|]. destruct (cset_mem ic s0 ch); [|done].
      apply Hrest in H as [Ho Hc]. split; intros; auto.
    - eapply (star_greedy_rel _ _ (λ _ st', _ ∧ _)) in H;
        [| |intros s1 st1 st1' H1; exact (Hrest s1 st1 st1' H1)]; [|done].
      destruct H as [Ho Hc]. split; intros; auto.
    - eapply (star_lazy_rel _ _ (λ _ st', _ ∧ _)) in H;
        [| |intros s1 st1 st1' H1; exact (Hrest s1 st1 st1' H1)]; [|done].
      destruct H as [Ho Hc]. split; intros; auto.
    - destruct s as [|ch s]; [done|]. destruct (cset_mem ic s0 ch); [|done].
      eapply (star_greedy_rel _ _ (λ _ st', _ ∧ _)) in H;
        [| |intros s1 st1 st1' H1; exact (Hrest s1 st1 st1' H1)]; [|done].
      destruct H as [Ho Hc]. split; intros; auto.
    - pose proof (match_here_keeps_group _ _ _ _ _ H) as [Hk _].
      apply Hrest in H as [_ Hc].
      split; [intros _; apply Hk; by eexists|intros; auto].
    - pose proof (match_here_keeps_group _ _ _ _ _ H) as [_ Hk].
      apply Hrest in H as [Ho _].
      split; [intros; auto|intros _; apply Hk; by eexists]. }
  intros s st st' Ho Hc H. apply Hall in H as [H1 H2]. auto.
Qed.

(** The rating and author patterns always capture: the case of a match
    without its group, which [extractCommentFromHTML] has to name, does not
    arise. *)
Lemma match_first_group r s m g :
  GroupOpen ∈ prog r → GroupClose ∈ prog r →
  match_first r s = Some (m, g) → is_Some g.
Proof.
  intros Ho Hc. induction s as [|ch s IH]; simpl.
  - destruct (attempt r []) as [st|] eqn:E; [|done].
    intros [= <- <-]. apply match_here_group in E as [[a Ha] [b Hb]]; [|done..].
    unfold group_text. rewrite Ha, Hb. by eexists.
  - destruct (attempt r (ch :: s)) as [st|] eqn:E; [|done].
    intros [= <- <-]. apply match_here_group in E as [[a Ha] [b Hb]]; [|done..].
    unfold group_text. rewrite Ha, Hb. by eexists.
Qed.

Lemma rating_and_author_capture s m g :
  (match_first rating_pattern s = Some (m, g) → is_Some g)
  ∧ (match_first author_pattern s = Some (m, g) → is_Some g).
Proof.
  split; apply match_first_group; vm_compute; set_solver.
Qed.

(** ** The embedded-data branch decodes nothing

    With the g flag, [html.match] returns the whole matches.  Each one starts
    with the tag that opens the script element, so that [JSON.parse] of the
    element at index 1 is a SyntaxError; a missing element reads as
    [undefined], which is one as well. *)

Lemma JSON_parse_undefined decode_json :
  JSON_parse decode_json (lit "undefined") = None.
Proof. reflexivity. Qed.

Lemma JSON_parse_tag decode_json m :
  starts_like true 60%N m → JSON_parse decode_json m = None.
Proof.
  intros (ch & rest & -> & H). unfold chr_eq in H. apply N.eqb_eq in H.
  assert (ch = 60%N ∨ ch ≠ 60%N) as [->|Hne] by lia; [done|].
  exfalso. unfold ascii_upper in H. simpl in H.
  destruct ((97 <=? ch)%N && (ch <=? 122)%N) eqn:E; [|lia].
  apply andb_true_iff in E as [E1 E2].
  apply N.leb_le in E1, E2. lia.
Qed.

Lemma embedded_branch_dead decode_json today s skip limit :
  processReviewMatches decode_json today (scan embedded_pattern s skip)
    embedded_pattern limit = [].
Proof.
  unfold processReviewMatches.
  replace (includes (pattern_source embedded_pattern) (lit "reviews")) with true
    by (by vm_compute).
  pose proof (scan_starts_like embedded_pattern 60%N _ s skip eq_refl) as Hall.
  destruct (scan embedded_pattern s skip !! 1) as [m|] eqn:E.
  - rewrite JSON_parse_tag; [done|].
    eapply Forall_lookup_1 in Hall; [|exact E]. done.
  - reflexivity.
Qed.

(** ** What extraction returns *)

Lemma slice0_fmap {A B} (f : A → B) limit (l : list A) :
  slice0 limit (f <$> l) = f <$> slice0 limit l.
Proof.
  destruct limit as [|z|[]]; simpl; [done| |done..].
  rewrite length_fmap. destruct (z <? 0)%Z; by rewrite fmap_take.
Qed.

Lemma slice0_Forall {A} (P : A → Prop) limit (l : list A) :
  Forall P l → Forall P (slice0 limit l).
Proof.
  intros H. destruct limit as [|z|[]]; simpl; [done| |done..].
  destruct (z <? 0)%Z; by apply Forall_take.
Qed.

Lemma slice0_length {A} z (l : list A) :
  (0 ≤ z)%Z → length (slice0 (Finite z) l) = Z.to_nat z `min` length l.
Proof.
  intros Hz. simpl. destruct (z <? 0)%Z eqn:E; [apply Z.ltb_lt in E; lia|].
  apply length_take.
Qed.

Lemma extractCommentFromHTML_valid today html r :
  extractCommentFromHTML today html = Some r →
  10 ≤ length (text r) ∧ (0 ≤ rating r ≤ 5)%Z.
Proof.
  unfold extractCommentFromHTML.
  set (textContent := trim _).
  destruct (bool_decide (textContent = []) || (length textContent <? 10)) eqn:E; [done|].
  destruct (_ && _ && _); [done|].
  intros [= <-]. simpl.
  apply orb_false_iff in E as [_ E]. apply Nat.ltb_ge in E. split; [done|].
  destruct (match match_first rating_pattern html with
            | Some (_, Some digits) => parseInt digits
            | Some (_, None) => NaN
            | None => Finite 0
            end) as [|z|]; [lia| |lia].
  destruct ((1 <=? z)%Z && (z <=? 5)%Z) eqn:Ez; [|lia].
  apply andb_true_iff in Ez as [E1 E2]. lia.
Qed.

Lemma extractCommentFromHTML_date d d' html :
  extractCommentFromHTML d' html = with_date d' <$> extractCommentFromHTML d html.
Proof.
  unfold extractCommentFromHTML.
  destruct (_ || _); [done|]. destruct (_ && _ && _); done.
Qed.

Lemma each_container_valid today limit ms acc :
  Forall valid_review acc →
  Forall valid_review (each_container today limit ms acc).
Proof.
  revert acc. induction ms as [|m ms IH]; intros acc Hacc; simpl; [done|].
  destruct (length_ge _ _); [by apply IH|].
  destruct (extractCommentFromHTML today m) as [r|] eqn:E; [|by apply IH].
  destruct (bool_decide (text r = [])); [by apply IH|].
  apply IH, Forall_app. split; [done|].
  apply extractCommentFromHTML_valid in E as [Hlen Hr].
  repeat constructor; try lia. intros Hnil. rewrite Hnil in Hlen. simpl in Hlen. lia.
Qed.

Lemma each_text_valid today limit index ms acc :
  Forall (λ m, m ≠ []) ms →
  Forall valid_review acc →
  Forall valid_review (each_text today limit index ms acc).
Proof.
  revert index acc. induction ms as [|m ms IH]; intros index acc Hms Hacc; simpl; [done|].
  apply Forall_cons in Hms as [Hm Hms].
  destruct (length_ge _ _); [by apply IH|].
  destruct (0 <? index); [|by apply IH].
  apply IH; [done|]. apply Forall_app. split; [done|].
  repeat constructor; simpl; try done; lia.
Qed.

Lemma each_container_date d d' limit ms acc :
  each_container d' limit ms (with_date d' <$> acc)
  = with_date d' <$> each_container d limit ms acc.
Proof.
  revert acc. induction ms as [|m ms IH]; intros acc; simpl; [done|].
  rewrite length_fmap. destruct (length_ge _ _); [done|].
  rewrite (extractCommentFromHTML_date d d').
  destruct (extractCommentFromHTML d m) as [r|]; simpl; [|done].
  destruct (bool_decide (text r = [])); [done|].
  rewrite <- IH. by rewrite fmap_app.
Qed.

Lemma each_text_date d d' limit index ms acc :
  each_text d' limit index ms (with_date d' <$> acc)
  = with_date d' <$> each_text d limit index ms acc.
Proof.
  revert index acc. induction ms as [|m ms IH]; intros index acc; simpl; [done|].
  rewrite length_fmap. destruct (length_ge _ _); [done|].
  destruct (0 <? index); [|done].
  rewrite <- IH. by rewrite fmap_app.
Qed.

Lemma each_text_keeps_all today z index ms acc :
  (Z.of_nat (length acc + length ms) ≤ z)%Z →
  each_text today (Finite z) index ms acc
  = acc ++ (text_record today <$> (if index =? 0 then tail ms else ms)).
Proof.
  revert index acc. induction ms as [|m ms IH]; intros index acc Hz; simpl.
  - destruct (index =? 0); simpl; by rewrite (right_id_L [] (++)).
  - simpl in Hz.
    destruct (z <=? Z.of_nat (length acc))%Z eqn:E; [apply Z.leb_le in E; lia|].
    destruct index as [|i]; simpl.
    + rewrite IH by lia. done.
    + rewrite IH by (rewrite length_app; simpl; lia).
      by rewrite <- (assoc_L (++)).
Qed.

(** The four patterns, one at a time, on the matches [html.match] finds. *)
Lemma process_matches_valid decode_json today pattern s limit :
  pattern ∈ reviewPatterns →
  Forall valid_review
    (processReviewMatches decode_json today (scan pattern s 0) pattern limit).
Proof.
  intros Hin. unfold reviewPatterns in Hin.
  repeat (apply elem_of_cons in Hin as [->|Hin]); [| | | |by apply elem_of_nil in Hin].
  - unfold processReviewMatches.
    replace (includes _ (lit "reviews")) with false by (by vm_compute).
    replace (includes _ (lit "reviewText")) with false by (by vm_compute).
    by apply each_container_valid.
  - by rewrite embedded_branch_dead.
  - unfold processReviewMatches.
    replace (includes _ (lit "reviews")) with false by (by vm_compute).
    replace (includes _ (lit "reviewText")) with false by (by vm_compute).
    by apply each_container_valid.
  - unfold processReviewMatches.
    replace (includes _ (lit "reviews")) with false by (by vm_compute).
    replace (includes _ (lit "reviewText")) with true by (by vm_compute).
    apply each_text_valid; [|done].
    eapply Forall_impl; [exact (scan_starts_like text_pattern 34%N _ s 0 eq_refl)|].
    by intros m (ch & rest & -> & _).
Qed.

Lemma process_matches_date decode_json d d' pattern s limit :
  pattern ∈ reviewPatterns →
  processReviewMatches decode_json d' (scan pattern s 0) pattern limit
  = with_date d' <$> processReviewMatches decode_json d (scan pattern s 0) pattern limit.
Proof.
  intros Hin. unfold reviewPatterns in Hin.
  repeat (apply elem_of_cons in Hin as [->|Hin]); [| | | |by apply elem_of_nil in Hin].
  - unfold processReviewMatches.
    replace (includes _ (lit "reviews")) with false by (by vm_compute).
    replace (includes _ (lit "reviewText")) with false by (by vm_compute).
    apply (each_container_date d d' limit _ []).
  - by rewrite !embedded_branch_dead.
  - unfold processReviewMatches.
    replace (includes _ (lit "reviews")) with false by (by vm_compute).
    replace (includes _ (lit "reviewText")) with false by (by vm_compute).
    apply (each_container_date d d' limit _ []).
  - unfold processReviewMatches.
    replace (includes _ (lit "reviews")) with false by (by vm_compute).
    replace (includes _ (lit "reviewText")) with true by (by vm_compute).
    apply (each_text_date d d' limit 0 _ []).
Qed.

Lemma process_matches_decoder decode_json decode_json' today pattern s limit :
  pattern ∈ reviewPatterns →
  processReviewMatches decode_json today (scan pattern s 0) pattern limit
  = processReviewMatches decode_json' today (scan pattern s 0) pattern limit.
Proof.
  intros Hin. unfold reviewPatterns in Hin.
  repeat (apply elem_of_cons in Hin as [->|Hin]); [| | | |by apply elem_of_nil in Hin].
  - unfold processReviewMatches.
    by replace (includes _ (lit "reviews")) with false by (by vm_compute).
  - by rewrite !embedded_branch_dead.
  - unfold processReviewMatches.
    by replace (includes _ (lit "reviews")) with false by (by vm_compute).
  - unfold processReviewMatches.
    by replace (includes _ (lit "reviews")) with false by (by vm_compute).
Qed.

Lemma each_pattern_valid decode_json today patterns html limit acc :
  patterns ⊆ reviewPatterns →
  Forall valid_review acc →
  Forall valid_review (each_pattern decode_json today patterns html limit acc).
Proof.
  revert acc. induction patterns as [|p ps IH]; intros acc Hsub Hacc; simpl; [done|].
  assert (p ∈ reviewPatterns) as Hp by (apply Hsub; left).
  assert (ps ⊆ reviewPatterns) as Hps by (intros x Hx; apply Hsub; by right).
  destruct (match_all p html) as [ms|] eqn:E; [|by apply IH].
  apply match_all_scan in E as ->.
  assert (Forall valid_review
            (acc ++ processReviewMatches decode_json today (scan p html 0) p limit)).
  { apply Forall_app. split; [done|]. by apply process_matches_valid. }
  destruct (length_ge _ _); [done|]. by apply IH.
Qed.

Lemma each_pattern_date decode_json d d' patterns html limit acc :
  patterns ⊆ reviewPatterns →
  each_pattern decode_json d' patterns html limit (with_date d' <$> acc)
  = with_date d' <$> each_pattern decode_json d patterns html limit acc.
Proof.
  revert acc. induction patterns as [|p ps IH]; intros acc Hsub; simpl; [done|].
  assert (p ∈ reviewPatterns) as Hp by (apply Hsub; left).
  assert (ps ⊆ reviewPatterns) as Hps by (intros x Hx; apply Hsub; by right).
  destruct (match_all p html) as [ms|] eqn:E; [|by apply IH].
  apply match_all_scan in E as ->.
  rewrite (process_matches_date decode_json d d') by done.
  rewrite <- fmap_app, length_fmap.
  destruct (length_ge _ _); [done|]. by apply IH.
Qed.

Lemma each_pattern_decoder decode_json decode_json' today patterns html limit acc :
  patterns ⊆ reviewPatterns →
  each_pattern decode_json today patterns html limit acc
  = each_pattern decode_json' today patterns html limit acc.
Proof.
  revert acc. induction patterns as [|p ps IH]; intros acc Hsub; simpl; [done|].
  assert (p ∈ reviewPatterns) as Hp by (apply Hsub; left).
  assert (ps ⊆ reviewPatterns) as Hps by (intros x Hx; apply Hsub; by right).
  destruct (match_all p html) as [ms|] eqn:E; [|by apply IH].
  apply match_all_scan in E as ->.
  rewrite (process_matches_decoder decode_json decode_json') by done.
  destruct (length_ge _ _); [done|]. by apply IH.
Qed.

Lemma extractReviewsFromHTML_valid decode_json today html limit :
  Forall valid_review (extractReviewsFromHTML decode_json today html limit).
Proof.
  destruct html as [s|]; [|by constructor].
  unfold extractReviewsFromHTML. by apply slice0_Forall, each_pattern_valid.
Qed.

Lemma sampleReviews_valid : Forall valid_review sampleReviews.
Proof. repeat constructor; try done; simpl; lia. Qed.

Lemma generateSampleReviews_valid appId limit :
  Forall valid_review (generateSampleReviews appId limit).
Proof.
  apply slice0_Forall, sampleReviews_valid.
Qed.

Lemma generateSampleReviews_length appId z :
  (1 ≤ z)%Z →
  length (generateSampleReviews appId (Finite z)) = Z.to_nat z `min` 10.
Proof.
  intros Hz. unfold generateSampleReviews, math_min.
  rewrite slice0_length by lia. change (length sampleReviews) with 10. lia.
Qed.

(** ** Retrieval *)

Lemma run_fetchReviewsFromPage decode_json today net appId limit sort language country log :
  let url := buildAppPageUrl appId sort language country in
  run net (fetchReviewsFromPage decode_json today appId limit sort language country) log
  = (Fulfilled (page_records decode_json today limit (net log url)), log ++ [url]).
Proof.
  simpl. destruct (net log _) as [e|status data]; simpl; [done|].
  destruct (decide (status = 200%Z)) as [->|Hne].
  - done.
  - rewrite bool_decide_eq_true_2, bool_decide_eq_false_2 by done. done.
Qed.

Lemma run_fetchReviewsAlternative decode_json today net appId limit sort language country log :
  let url := alternativeUrl appId language country in
  run net (fetchReviewsAlternative decode_json today appId limit sort language country) log
  = (Fulfilled (page_records decode_json today limit (net log url)), log ++ [url]).
Proof.
  simpl. destruct (net log _) as [e|status data]; simpl; [done|].
  destruct (decide (status = 200%Z)) as [->|Hne].
  - done.
  - rewrite bool_decide_eq_true_2, bool_decide_eq_false_2 by done. done.
Qed.

Lemma page_records_valid decode_json today limit o :
  Forall valid_review (page_records decode_json today limit o).
Proof.
  destruct o as [e|status data]; simpl; [done|].
  case_bool_decide; [apply extractReviewsFromHTML_valid|done].
Qed.

Lemma page_records_length decode_json today z o :
  (0 ≤ z)%Z → length (page_records decode_json today (Finite z) o) ≤ Z.to_nat z.
Proof.
  intros Hz. destruct o as [e|status data]; simpl; [lia|].
  case_bool_decide; [|simpl; lia].
  destruct data as [s|]; [|simpl; lia].
  unfold extractReviewsFromHTML. rewrite slice0_length by done. lia.
Qed.

Lemma page_records_NaN decode_json today o :
  page_records decode_json today NaN o = [].
Proof.
  destruct o as [e|status data]; simpl; [done|].
  case_bool_decide; [|done]. by destruct data.
Qed.

(** The body of [fetchComments], run. *)
Lemma run_fetchCommentsVia (page alternative : strategy) net appId opts log :
  let limit := default (Finite 50) (limit opts) in
  let sort := default (lit "recent") (sort opts) in
  let language := default (lit "en") (language opts) in
  let country := default (lit "US") (country opts) in
  let sample := generateSampleReviews appId limit in
  run net (fetchCommentsVia page alternative appId opts) log =
  match run net (page appId limit sort language country) log with
  | (Failed _, log1) => (Fulfilled sample, log1)
  | (Fulfilled c1, log1) =>
      if bool_decide (c1 = []) then
        match run net (alternative appId limit sort language country) log1 with
        | (Failed _, log2) => (Fulfilled sample, log2)
        | (Fulfilled c2, log2) =>
            if bool_decide (c2 = []) then (Fulfilled sample, log2)
            else (Fulfilled c2, log2)
        end
      else (Fulfilled c1, log1)
  end.
Proof.
  intros limit sort language country sample. unfold fetchCommentsVia.
  rewrite run_try_catch, run_bind.
  fold limit sort language country.
  destruct (run net (page appId limit sort language country) log) as [[c1|e] log1];
    [|done].
  rewrite run_bind.
  destruct c1 as [|r c1]; simpl.
  - destruct (run net (alternative appId limit sort language country) log1)
      as [[c2|e] log2]; [|done].
    simpl. by destruct c2.
  - done.
Qed.

Lemma run_fetchComments decode_json today net appId opts log :
  run net (fetchComments decode_json today appId opts) log
  = (Fulfilled (fetched decode_json today net appId opts log).1,
     (fetched decode_json today net appId opts log).2).
Proof.
  unfold fetchComments. rewrite run_fetchCommentsVia.
  rewrite run_fetchReviewsFromPage. unfold fetched.
  case_bool_decide as E1; [|done].
  rewrite run_fetchReviewsAlternative. rewrite <- (assoc_L (++)). simpl.
  by case_bool_decide.
Qed.

Lemma fetched_valid decode_json today net appId opts log :
  Forall valid_review (fetched decode_json today net appId opts log).1.
Proof.
  unfold fetched. repeat case_bool_decide; simpl;
    auto using page_records_valid, generateSampleReviews_valid.
Qed.

Lemma try_catch_never_throws {A} (p : proc A) handler :
  (∀ e, never_throws (handler e)) → never_throws (try_catch p handler).
Proof.
  intros Hh. induction p as [a|e|url k IH]; simpl; [constructor|done|].
  by constructor.
Qed.

Lemma fetchComments_never_throws decode_json today appId opts :
  never_throws (fetchComments decode_json today appId opts).
Proof. apply try_catch_never_throws. constructor. Qed.

(** ** The handlers *)

Lemma run_get_comments decode_json today net req log :
  validateAppId req = None →
  let limit := match query_limit req with
               | Some text => parseInt text
               | None => Finite 50
               end in
  let sort := default (lit "recent") (query_sort req) in
  let got := fetched decode_json today net (params_appId req)
               {| limit := Some limit; sort := Some sort;
                  language := None; country := None |} log in
  run net (get_comments decode_json today req) log
  = (Fulfilled {| status := 200;
                  json := CommentsBody (params_appId req) (length got.1) got.1 limit sort |},
     got.2).
Proof.
  intros Hvalid. unfold get_comments. rewrite Hvalid. cbv beta iota zeta.
  rewrite run_try_catch, run_bind, run_fetchComments. done.
Qed.

Lemma run_get_stats decode_json today net req log :
  validateAppId req = None →
  let limit := match query_limit req with
               | Some text => parseInt text
               | None => Finite 100
               end in
  let got := fetched decode_json today net (params_appId req)
               {| limit := Some limit; sort := Some (lit "recent");
                  language := None; country := None |} log in
  run net (get_stats decode_json today req) log
  = (Fulfilled {| status := 200;
                  json := StatsBody (params_appId req) (computeStats got.1) (length got.1) |},
     got.2).
Proof.
  intros Hvalid. unfold get_stats. rewrite Hvalid. cbv beta iota zeta.
  rewrite run_try_catch, run_bind, run_fetchComments. done.
Qed.

(** ** Statistics *)

Lemma histogram_total_insert (key : jsstring) (n : nat) (object : gmap jsstring nat) :
  object !! key = None →
  histogram_total (<[key := n]> object) = n + histogram_total object.
Proof.
  intros Hnone. unfold histogram_total.
  rewrite map_fold_insert_L; [done| |done]. intros; lia.
Qed.

Lemma count_up_total (key : jsstring) (object : gmap jsstring nat) :
  histogram_total (count_up key object) = S (histogram_total object).
Proof.
  unfold count_up. destruct (object !! key) as [n|] eqn:E; simpl.
  - rewrite <- (insert_delete_id object key n) at 2 by done.
    rewrite <- insert_delete_eq.
    rewrite !histogram_total_insert by apply lookup_delete_eq. lia.
  - by rewrite histogram_total_insert.
Qed.

Lemma tally_by_rating_total comments t :
  histogram_total (by_rating (foldl tally_comment t comments))
  = histogram_total (by_rating t) + length comments.
Proof.
  revert t. induction comments as [|c cs IH]; intros t; simpl; [lia|].
  rewrite IH. simpl. rewrite count_up_total. lia.
Qed.

Lemma tally_sum comments t :
  running_total (foldl tally_comment t comments)
  = (running_total t + foldr Z.add 0 (rating <$> comments))%Z.
Proof.
  revert t. induction comments as [|c cs IH]; intros t; simpl; [lia|].
  rewrite IH. simpl. by rewrite Z.add_assoc.
Qed.

(** The parts of the statistics that hold as the specification states them:
    the average of no record is the number 0, the counts of the rating
    histogram add up to the number of records, and the total is the sum of
    the ratings. *)
Lemma computeStats_counts comments :
  averageRating (computeStats []) = Num 0
  ∧ histogram_total (ratingDistribution (computeStats comments))
    = stats_totalComments (computeStats comments)
  ∧ totalRating (computeStats comments) = foldr Z.add 0%Z (rating <$> comments).
Proof.
  split_and!; [done| |].
  - unfold computeStats. simpl. by rewrite tally_by_rating_total.
  - unfold computeStats. simpl. by rewrite tally_sum.
Qed.

(** With a record or more, the average is the text [toFixed] returns. *)
Lemma averageRating_nonempty c comments :
  averageRating (computeStats (c :: comments))
  = Str (toFixed2 (divide (foldr Z.add 0%Z (rating <$> c :: comments))
                     (Z.of_nat (length (c :: comments))))).
Proof.
  unfold computeStats.
  change (averageRating _) with
    (Str (toFixed2 (divide (running_total (foldl tally_comment
                                   {| by_rating := ∅; by_month := ∅; running_total := 0 |}
                                   (c :: comments)))
                      (Z.of_nat (length (c :: comments)))))).
  by rewrite tally_sum.
Qed.

(** ** The batch handler *)

Lemma start_tasks_cons decode_json today limit sort appId rest pl :
  start_tasks decode_json today limit sort (appId :: rest) pl
  = let '(s, results, errors) :=
      advance_task appId
        (fetchComments decode_json today appId
           {| limit := Some limit; sort := Some sort;
              language := None; country := None |})
        (results pl) (errors pl) in
    start_tasks decode_json today limit sort rest
      {| slots := slots pl ++ [s]; results := results; errors := errors |}.
Proof. reflexivity. Qed.

Lemma resume_settles p : ∀ i appId pl,
  i < length (slots pl) →
  ∃ events,
    slots (deliver_all events (resume i appId p pl)) = <[i := Settled]> (slots pl).
Proof.
  induction p as [comments|message|url k IH]; intros i appId pl Hi.
  - by exists [].
  - by exists [].
  - destruct (IH (Rejected []) i appId (resume i appId (Get url k) pl))
      as [events Hev]; [simpl; by rewrite length_insert|].
    exists ((i, Rejected []) :: events). simpl. unfold deliver at 1. simpl.
    rewrite list_lookup_insert_eq by done.
    rewrite Hev. simpl. apply list_insert_insert_eq.
Qed.

Lemma settle_slot i pl :
  ∃ events, slots (deliver_all events pl) = <[i := Settled]> (slots pl).
Proof.
  destruct (slots pl !! i) as [[appId url k|]|] eqn:E.
  - destruct (resume_settles (k (Rejected [])) i appId pl) as [events Hev];
      [by eapply lookup_lt_Some|].
    exists ((i, Rejected []) :: events). simpl. unfold deliver at 1. by rewrite E.
  - exists []. simpl. by rewrite list_insert_id.
  - exists []. simpl. rewrite list_insert_ge; [done|by apply lookup_ge_None].
Qed.

Lemma settle_first n pl :
  ∃ events,
    length (slots (deliver_all events pl)) = length (slots pl)
    ∧ ∀ i, i < n → i < length (slots pl) →
        slots (deliver_all events pl) !! i = Some Settled.
Proof.
  induction n as [|n (events1 & Hlen & Hset)]; [exists []; split; [done|lia]|].
  destruct (settle_slot n (deliver_all events1 pl)) as [events2 H2].
  exists (events1 ++ events2). unfold deliver_all in *. rewrite foldl_app, H2.
  rewrite length_insert. split; [done|]. intros i Hi Hl.
  destruct (decide (i = n)) as [->|Hne].
  - rewrite list_lookup_insert_eq by lia. done.
  - rewrite list_lookup_insert_ne by done. apply Hset; lia.
Qed.

Lemma all_settled_lookup pl :
  (∀ i, i < length (slots pl) → slots pl !! i = Some Settled) →
  all_settled pl = true.
Proof.
  intros H. unfold all_settled.
  assert (Forall (λ s, s = Settled) (slots pl)) as Hall.
  { apply Forall_lookup_2. intros i s Hs.
    rewrite H in Hs by (by eapply lookup_lt_Some). by simplify_eq. }
  clear H. revert Hall. generalize (slots pl). intros l Hall.
  induction Hall as [|s l' -> _ IH]; simpl; done.
Qed.

(** The batch handler answers: whatever the identifiers, there are answers
    of the store, in some order, after which every task is over and the
    response is sent. *)
Lemma post_batch_completes decode_json today req appIds :
  body_appIds req = Some appIds →
  1 ≤ length appIds ≤ 10 →
  ∃ events resp, post_batch decode_json today req events = Some resp.
Proof.
  intros Hids Hlen. unfold post_batch. rewrite Hids.
  rewrite bool_decide_eq_false_2 by lia.
  destruct (10 <? length appIds) eqn:E; [apply Nat.ltb_lt in E; lia|].
  set (limit := match body_limit req with Some _ => _ | None => _ end).
  set (sort := default _ _).
  set (pl := start_tasks _ _ _ _ _ _).
  destruct (settle_first (length (slots pl)) pl) as (events & Hl & Hset).
  exists events. rewrite all_settled_lookup; [by eexists|].
  intros i Hi. apply Hset; lia.
Qed.

(** ** The two branches on the array of a match without the g flag

    Given the whole match followed by the capture group, which is what
    [match] returns for a pattern without the g flag, the embedded-data
    branch decodes the group and the bare-text branch keeps the quoted
    value: the two branches are written for that array. *)

Lemma embedded_branch_on_the_group decode_json today whole group e limit :
  decode_json group = Some (ArrayOf [Some e]) →
  (∃ c rest, group = c :: rest ∧ json_value_start c = true) →
  length_ge 0 limit = false →
  processReviewMatches decode_json today [whole; group] embedded_pattern limit
  = if bool_decide (is_Some (or_string (e_text e) (e_reviewText e)))
    then [review_of_entry today e] else [].
Proof.
  intros Hdec (c & rest & -> & Hc) Hlimit. unfold processReviewMatches.
  replace (includes _ (lit "reviews")) with true by (by vm_compute).
  simpl. unfold JSON_parse.
  assert (skip_json_space (c :: rest) = c :: rest) as ->.
  { simpl. destruct ((c =? 32)%N || (c =? 9)%N || (c =? 10)%N || (c =? 13)%N) eqn:E;
      [|done].
    unfold json_value_start, is_digit in Hc.
    repeat (apply orb_true_iff in E as [E|E]); apply N.eqb_eq in E; by subst. }
  rewrite Hc, Hdec. simpl. rewrite Hlimit. by case_bool_decide.
Qed.

Lemma embedded_group_of_the_example :
  match_first embedded_pattern
    (markup "<script>window.data = {'reviews': [{'text':'Great app','rating':5}]};</script>")
  = Some (markup "<script>window.data = {'reviews': [{'text':'Great app','rating':5}]};</script>",
          Some (markup "[{'text':'Great app','rating':5}]")).
Proof. by vm_compute. Qed.

Lemma bare_text_on_the_group decode_json today whole group limit :
  length_ge 0 limit = false →
  processReviewMatches decode_json today [whole; group] text_pattern limit
  = [text_record today group].
Proof.
  intros Hlimit. unfold processReviewMatches.
  replace (includes _ (lit "reviews")) with false by (by vm_compute).
  replace (includes _ (lit "reviewText")) with true by (by vm_compute).
  simpl. rewrite Hlimit. simpl.
  by destruct limit as [|z|[]]; simpl in *; [|destruct (z <=? 1)%Z|..].
Qed.

Lemma bare_text_group_of_the_example :
  match_first text_pattern (markup "{'reviewText': 'Great app'}")
  = Some (markup "'reviewText': 'Great app'", Some (lit "Great app")).
Proof. by vm_compute. Qed.

(** ** Further properties of the code *)

(** The engine returns at most [limit] records. *)
Lemma extraction_truncated decode_json today html (n : nat) :
  length (extractReviewsFromHTML decode_json today html (Finite (Z.of_nat n))) ≤ n.
Proof.
  destruct html as [s|]; [|simpl; lia].
  unfold extractReviewsFromHTML. rewrite slice0_length by lia. lia.
Qed.

(** The sample generator returns the first [limit] of its ten records, in
    their order. *)
Lemma generateSampleReviews_prefix appId (n : nat) :
  generateSampleReviews appId (Finite (Z.of_nat n)) = take n sampleReviews.
Proof.
  unfold generateSampleReviews, math_min, slice0.
  destruct (Z.min (Z.of_nat n) (Z.of_nat (length sampleReviews)) <? 0)%Z eqn:E;
    [apply Z.ltb_lt in E; lia|].
  change (length sampleReviews) with 10.
  destruct (decide (n ≤ 10)).
  - by replace (Z.to_nat (Z.min (Z.of_nat n) (Z.of_nat 10))) with n by lia.
  - replace (Z.to_nat (Z.min (Z.of_nat n) (Z.of_nat 10))) with 10 by lia.
    rewrite !take_ge; [done|simpl; lia..].
Qed.

Lemma limit_out_of_range_false text max :
  limit_out_of_range (parseInt text) max = false
  ↔ ∃ z, parseInt text = Finite z ∧ (1 ≤ z ≤ max)%Z.
Proof.
  destruct (parseInt text) as [|z|negative]; simpl.
  - split; [done|]. by intros (z & ? & _).
  - rewrite orb_false_iff, !Z.ltb_ge. split.
    + intros [??]. exists z. split; [done|lia].
    + intros (z' & [= <-] & ?). lia.
  - split; [done|]. by intros (z & ? & _).
Qed.

(** [validateCommentParams], on its own, is the check the specification
    describes: it calls [next()] exactly for a limit of 1 to 200 and a known
    sort order, and answers 400 otherwise; 1 and 200 pass, 0 and 201 do
    not. *)
Lemma validateCommentParams_enforces_the_range req :
  (validateCommentParams req = None
   ↔ limit_in_range (query_limit req) 200 ∧ sort_allowed (query_sort req))
  ∧ (∀ resp, validateCommentParams req = Some resp → status resp = 400%Z)
  ∧ (∀ appId text,
       text ∈ [lit "1"; lit "200"] →
       validateCommentParams
         {| params_appId := appId; query_limit := Some text; query_sort := None |}
       = None)
  ∧ (∀ appId text,
       text ∈ [lit "0"; lit "201"; lit "-5"; lit "abc"] →
       validateCommentParams
         {| params_appId := appId; query_limit := Some text; query_sort := None |}
       = Some (bad_request (lit "Invalid limit parameter")
                 (Some (lit "Limit must be a number between 1 and 200")))).
Proof.
  split_and!.
  - unfold validateCommentParams, limit_in_range, sort_allowed.
    destruct (query_limit req) as [text|]; destruct (query_sort req) as [order|];
      repeat match goal with
      | |- context [limit_out_of_range ?n ?m] =>
          let E := fresh in
          destruct (limit_out_of_range n m) eqn:E;
          [|apply limit_out_of_range_false in E]
      | |- context [bool_decide ?P] => case_bool_decide
      end; simpl; split; try done; try tauto;
      try (intros [H1 H2]; try apply limit_out_of_range_false in H1; congruence).
  - unfold validateCommentParams. intros resp.
    repeat case_match; intros; by simplify_eq.
  - intros appId text Hin. set_unfold in Hin. by destruct Hin as [->|[->|[]]].
  - intros appId text Hin. set_unfold in Hin.
    by destruct Hin as [->|[->|[->|[->|[]]]]].
Qed.

Lemma post_batch_completes_witness :
  ∃ events resp,
    post_batch reject_json (lit "2024-01-15")
      {| body_appIds := Some [lit "com.whatsapp"; lit "com.instagram.android"];
         body_limit := Some (lit "3"); body_sort := Some (lit "recent") |}
      events
    = Some resp.
Proof.
  apply (post_batch_completes reject_json (lit "2024-01-15") _
           [lit "com.whatsapp"; lit "com.instagram.android"]);
    [reflexivity|simpl; lia].
Defined.

(* ================================================================== *)
(** * The rest of the code

    Properties of the functions around the ones the specification speaks
    of: the middleware, the handlers, the branches of the extraction and
    the tasks of the batch. *)

(** ** Reading an integer

    [parseInt] reads back the decimal text of an integer, and stops at the
    first unit that is not a digit.  What it returns is the Number nearest
    to that integer: the integer itself up to 2^53. *)

Lemma digit_value_not_digit c : is_digit c = false → digit_value 10 c = None.
Proof.
  unfold digit_value. intros ->.
  destruct ((97 <=? c)%N && (c <=? 122)%N) eqn:E1.
  - apply andb_true_iff in E1 as [H1 H2]. apply N.leb_le in H1.
    destruct (c - 87 <? 10)%N eqn:E; [apply N.ltb_lt in E; lia|done].
  - destruct ((65 <=? c)%N && (c <=? 90)%N) eqn:E2; [|done].
    apply andb_true_iff in E2 as [H1 H2]. apply N.leb_le in H1.
    destruct (c - 55 <? 10)%N eqn:E; [apply N.ltb_lt in E; lia|done].
Qed.

Lemma digits_value_step (k : N) acc s :
  (k < 10)%N →
  digits_value 10 (Some acc) ((48 + k)%N :: s) = digits_value 10 (Some (acc * 10 + k)%N) s.
Proof.
  intros Hk. simpl. unfold digit_value, is_digit.
  replace ((48 <=? 48 + k)%N && (48 + k <=? 57)%N) with true
    by (symmetry; apply andb_true_iff; split; apply N.leb_le; lia).
  replace (48 + k - 48)%N with k by lia.
  by replace (k <? 10)%N with true by (symmetry; apply N.ltb_lt; lia).
Qed.

Ltac next_digit k :=
  lazymatch goal with
  | |- context [digits_of (?D ?d) ++ ?rest] =>
      change (digits_of (D d) ++ rest) with ((48 + k)%N :: (digits_of d ++ rest));
      rewrite digits_value_step by lia
  end.

Lemma digits_value_acc d : ∀ acc rest,
  (∀ c, head rest = Some c → is_digit c = false) →
  digits_value 10 (Some (N.pos acc)) (digits_of d ++ rest)
  = Some (N.pos (Pos.of_uint_acc d acc)).
Proof.
  induction d as [|d IH|d IH|d IH|d IH|d IH|d IH|d IH|d IH|d IH|d IH];
    intros acc rest Hrest.
  - cbn. destruct rest as [|c rest]; [done|]. cbn.
    by rewrite (digit_value_not_digit c) by (by apply Hrest).
  - next_digit 0%N. simpl. rewrite <- (IH _ rest Hrest). do 2 f_equal. lia.
  - next_digit 1%N. simpl. rewrite <- (IH _ rest Hrest). do 2 f_equal. lia.
  - next_digit 2%N. simpl. rewrite <- (IH _ rest Hrest). do 2 f_equal. lia.
  - next_digit 3%N. simpl. rewrite <- (IH _ rest Hrest). do 2 f_equal. lia.
  - next_digit 4%N. simpl. rewrite <- (IH _ rest Hrest). do 2 f_equal. lia.
  - next_digit 5%N. simpl. rewrite <- (IH _ rest Hrest). do 2 f_equal. lia.
  - next_digit 6%N. simpl. rewrite <- (IH _ rest Hrest). do 2 f_equal. lia.
  - next_digit 7%N. simpl. rewrite <- (IH _ rest Hrest). do 2 f_equal. lia.
  - next_digit 8%N. simpl. rewrite <- (IH _ rest Hrest). do 2 f_equal. lia.
  - next_digit 9%N. simpl. rewrite <- (IH _ rest Hrest). do 2 f_equal. lia.
Qed.

Lemma digits_value_zero d : ∀ rest,
  (∀ c, head rest = Some c → is_digit c = false) →
  digits_value 10 (Some 0%N) (digits_of d ++ rest) = Some (Pos.of_uint d).
Proof.
  induction d as [|d IH|d IH|d IH|d IH|d IH|d IH|d IH|d IH|d IH|d IH];
    intros rest Hrest.
  - cbn. destruct rest as [|c rest]; [done|]. cbn.
    by rewrite (digit_value_not_digit c) by (by apply Hrest).
  - next_digit 0%N. by apply IH.
  - next_digit 1%N. by apply digits_value_acc.
  - next_digit 2%N. by apply digits_value_acc.
  - next_digit 3%N. by apply digits_value_acc.
  - next_digit 4%N. by apply digits_value_acc.
  - next_digit 5%N. by apply digits_value_acc.
  - next_digit 6%N. by apply digits_value_acc.
  - next_digit 7%N. by apply digits_value_acc.
  - next_digit 8%N. by apply digits_value_acc.
  - next_digit 9%N. by apply digits_value_acc.
Qed.

Lemma digits_value_start d rest :
  d ≠ Decimal.Nil →
  digits_value 10 None (digits_of d ++ rest) = digits_value 10 (Some 0%N) (digits_of d ++ rest).
Proof. by destruct d. Qed.

Lemma decimal_radix (s : jsstring) :
  match s with
  | 48%N :: 120%N :: _ | 48%N :: 88%N :: _ => False
  | _ => True
  end →
  match s with
  | 48%N :: 120%N :: t | 48%N :: 88%N :: t => (16%N, t)
  | _ => (10%N, s)
  end = (10%N, s).
Proof.
  destruct s as [|c s]; [done|]. destruct c as [|p]; [done|].
  repeat (destruct p as [p|p|]; try done).
  destruct s as [|c s]; [done|]. destruct c as [|p]; [done|].
  repeat (destruct p as [p|p|]; try done).
Qed.

Lemma mathInt_digits d rest :
  d ≠ Decimal.Nil →
  (∀ c, head rest = Some c → is_digit c = false) →
  (d = Decimal.D0 Decimal.Nil → ∀ c, head rest = Some c → c ≠ 120%N ∧ c ≠ 88%N) →
  mathInt (digits_of d ++ rest) = Some (false, Pos.of_uint d)
  ∧ mathInt (45%N :: digits_of d ++ rest) = Some (true, Pos.of_uint d).
Proof.
  intros Hd Hrest Hx.
  assert (match digits_of d ++ rest with
          | 48%N :: 120%N :: _ | 48%N :: 88%N :: _ => False
          | _ => True
          end) as Hhex.
  { destruct d as [|d| | | | | | | | |]; try done.
    destruct d; try done. destruct rest as [|c rest]; [done|].
    destruct (Hx eq_refl c eq_refl) as [H1 H2]. simpl.
    destruct c as [|p]; [done|].
    repeat (destruct p as [p|p|]; try done). }
  pose proof (digits_value_zero d rest Hrest) as Hv.
  rewrite <- digits_value_start in Hv by done.
  apply decimal_radix in Hhex.
  assert (mathInt (45%N :: digits_of d ++ rest) = Some (true, Pos.of_uint d)) as Hneg.
  { unfold mathInt. change (drop_spaces (45%N :: ?s)) with (45%N :: s).
    cbv beta iota. rewrite Hhex, Hv. done. }
  split; [|done].
  unfold mathInt.
  assert (drop_spaces (digits_of d ++ rest) = digits_of d ++ rest) as -> by (by destruct d).
  assert (match digits_of d ++ rest with
          | 43%N :: t => (false, t)
          | 45%N :: t => (true, t)
          | _ => (false, digits_of d ++ rest)
          end = (false, digits_of d ++ rest)) as -> by (by destruct d).
  by rewrite Hhex, Hv.
Qed.

Lemma mathInt_decimal z rest :
  (∀ c, head rest = Some c → is_digit c = false) →
  (z = 0%Z → ∀ c, head rest = Some c → c ≠ 120%N ∧ c ≠ 88%N) →
  mathInt (decimal z ++ rest) = Some ((z <? 0)%Z, Z.abs_N z).
Proof.
  intros Hrest Hx. unfold decimal. destruct z as [|p|p]; simpl Z.to_int.
  - apply (mathInt_digits (Decimal.D0 Decimal.Nil) rest); auto.
  - pose proof (Unsigned.to_uint_nonnil p) as Hnil.
    pose proof (Unsigned.to_uint_nonzero p) as Hnz.
    replace (lit (NilZero.string_of_int (Decimal.Pos (Pos.to_uint p))))
      with (digits_of (Pos.to_uint p)) by (by destruct (Pos.to_uint p)).
    destruct (mathInt_digits (Pos.to_uint p) rest Hnil Hrest) as [-> _]; [done|].
    by rewrite DecimalPos.Unsigned.of_to.
  - pose proof (Unsigned.to_uint_nonnil p) as Hnil.
    pose proof (Unsigned.to_uint_nonzero p) as Hnz.
    replace (lit (NilZero.string_of_int (Decimal.Neg (Pos.to_uint p))))
      with (45%N :: digits_of (Pos.to_uint p)) by (by destruct (Pos.to_uint p)).
    destruct (mathInt_digits (Pos.to_uint p) rest Hnil Hrest) as [_ Hn]; [done|].
    simpl. rewrite Hn. by rewrite DecimalPos.Unsigned.of_to.
Qed.

(** [parseInt] of the decimal text of [z], whatever follows it, is the
    Number nearest to [z]. *)
Lemma parseInt_decimal z rest :
  (∀ c, head rest = Some c → is_digit c = false) →
  (z = 0%Z → ∀ c, head rest = Some c → c ≠ 120%N ∧ c ≠ 88%N) →
  parseInt (decimal z ++ rest) = Number_of_Z z.
Proof.
  intros Hrest Hx. unfold parseInt. by rewrite mathInt_decimal.
Qed.

Lemma decimal_inj z z' : decimal z = decimal z' → z = z'.
Proof.
  intros E. pose proof (mathInt_decimal z [] ltac:(done) ltac:(done)) as H.
  pose proof (mathInt_decimal z' [] ltac:(done) ltac:(done)) as H'.
  rewrite !app_nil_r in *. rewrite E, H' in H. injection H as H1 H2.
  destruct (z <? 0)%Z eqn:Ez, (z' <? 0)%Z eqn:Ez'; try done; lia.
Qed.

(** [nearest_double] rounds as [binary_normalize] does at the precision of
    a binary64, on numbers on either side of 2^53, on ties and at the
    largest Number; so 9007199254740993 reads as 9007199254740992, and a
    1 followed by 400 zeros as Infinity. *)
Lemma nearest_double_examples :
  forallb rounds_like_binary64
    [0; 1; 200; 2 ^ 53; 2 ^ 53 + 1; 2 ^ 53 + 2; 2 ^ 53 + 3; 2 ^ 54 + 2;
     2 ^ 54 + 5; 2 ^ 54 + 6; 2 ^ 64 - 1; 10 ^ 22; 10 ^ 23;
     2 ^ 1024 - 2 ^ 970 - 1; 2 ^ 1024 - 2 ^ 970; 2 ^ 1024; 10 ^ 400]%N = true
  ∧ parseInt (lit "9007199254740993") = Finite 9007199254740992
  ∧ parseInt (lit "-9007199254740995") = Finite (-9007199254740996)
  ∧ parseInt (lit "1" ++ replicate 400 48%N) = Infinity false.
Proof. vm_compute. by repeat split. Qed.

(** Up to 2^53 the nearest Number is the integer itself; beyond, it is an
    infinity or an integer that is itself beyond 2^53, on the same side
    of 0. *)
Lemma nearest_double_exact v : (v ≤ 2 ^ 53)%N → nearest_double v = Some v.
Proof.
  intros H. unfold nearest_double.
  by replace (v <=? 2 ^ 53)%N with true by (symmetry; by apply N.leb_le).
Qed.

Lemma nearest_double_beyond v x :
  (2 ^ 53 < v)%N → nearest_double v = Some x → (2 ^ 53 ≤ x)%N.
Proof.
  intros Hv. unfold nearest_double.
  replace (v <=? 2 ^ 53)%N with false by (symmetry; by apply N.leb_gt).
  set (k := (N.log2 v - 52)%N). set (q := N.shiftr v k).
  set (q' := if _ : bool then (q + 1)%N else q).
  destruct (2 ^ 1024 <=? N.shiftl q' k)%N; [done|]. intros [= <-].
  assert (53 ≤ N.log2 v)%N as HL.
  { rewrite <- (N.log2_pow2 53) by lia. apply N.log2_le_mono. lia. }
  assert (2 ^ N.log2 v ≤ v)%N as Hlow by (apply N.log2_spec; lia).
  assert (2 ^ 52 ≤ q)%N as Hq.
  { unfold q. rewrite N.shiftr_div_pow2.
    apply N.div_le_lower_bound; [by apply N.pow_nonzero|].
    rewrite <- N.pow_add_r. by replace (k + 52)%N with (N.log2 v) by lia. }
  assert (q ≤ q')%N as Hq' by (unfold q'; destruct (_ || _); lia).
  rewrite N.shiftl_mul_pow2.
  assert (2 ^ 1 ≤ 2 ^ k)%N as Hk by (apply N.pow_le_mono_r; lia).
  change (2 ^ 53)%N with (2 ^ 52 * 2 ^ 1)%N.
  apply N.mul_le_mono; lia.
Qed.

Lemma Number_of_Z_exact z : (Z.abs z ≤ 2 ^ 53)%Z → Number_of_Z z = Finite z.
Proof.
  intros H. unfold Number_of_Z, Number_of.
  rewrite nearest_double_exact by (change (2 ^ 53)%N with (Z.to_N (2 ^ 53)); lia).
  f_equal. destruct (z <? 0)%Z eqn:E; [apply Z.ltb_lt in E|apply Z.ltb_ge in E]; lia.
Qed.

Lemma Number_of_Z_beyond z :
  (2 ^ 53 < Z.abs z)%Z →
  Number_of_Z z = Infinity (z <? 0)%Z
  ∨ ∃ x, Number_of_Z z = Finite x ∧ (2 ^ 53 ≤ Z.abs x)%Z ∧ (x <? 0)%Z = (z <? 0)%Z.
Proof.
  intros H. unfold Number_of_Z, Number_of.
  destruct (nearest_double (Z.abs_N z)) as [x|] eqn:E; [right|by left].
  apply nearest_double_beyond in E;
    [|change (2 ^ 53)%N with (Z.to_N (2 ^ 53)); lia].
  assert (2 ^ 53 ≤ Z.of_N x)%Z by (change (2 ^ 53)%Z with (Z.of_N (2 ^ 53)); lia).
  eexists. split; [done|].
  destruct (z <? 0)%Z; split; lia.
Qed.

Lemma limit_out_of_range_Number z max :
  (0 ≤ max < 2 ^ 53)%Z →
  limit_out_of_range (Number_of_Z z) max = (z <? 1)%Z || (max <? z)%Z.
Proof.
  intros Hmax. destruct (decide (Z.abs z ≤ 2 ^ 53)%Z) as [Hz|Hz].
  - by rewrite Number_of_Z_exact.
  - destruct (Number_of_Z_beyond z) as [->|(x & -> & Hx & Hs)]; [lia| |].
    + cbn. symmetry. apply orb_true_iff.
      destruct (decide (z < 0)%Z); [left; apply Z.ltb_lt|right; apply Z.ltb_lt]; lia.
    + cbn. destruct (z <? 0)%Z eqn:E;
        [apply Z.ltb_lt in E, Hs|apply Z.ltb_ge in E, Hs].
      * replace (x <? 1)%Z with true by (symmetry; apply Z.ltb_lt; lia).
        by replace (z <? 1)%Z with true by (symmetry; apply Z.ltb_lt; lia).
      * replace (max <? x)%Z with true by (symmetry; apply Z.ltb_lt; lia).
        replace (max <? z)%Z with true by (symmetry; apply Z.ltb_lt; lia).
        by rewrite !orb_true_r.
Qed.

(** The routes, and [validateCommentParams], read a limit up to its first
    unit that is not a digit: a limit that starts with the decimal text of
    [z] is the limit [z], whatever follows ([5abc] is 5).  The one
    exception is a 0 followed by an x, which opens a hexadecimal number. *)
Theorem limit_is_read_up_to_its_first_non_digit decode_json today req z rest :
  (∀ c, head rest = Some c → is_digit c = false) →
  (z = 0%Z → ∀ c, head rest = Some c → c ≠ 120%N ∧ c ≠ 88%N) →
  get_comments decode_json today (with_limit req (decimal z ++ rest))
  = get_comments decode_json today (with_limit req (decimal z))
  ∧ get_stats decode_json today (with_limit req (decimal z ++ rest))
    = get_stats decode_json today (with_limit req (decimal z))
  ∧ (validateCommentParams (with_limit req (decimal z ++ rest)) = None
     ↔ (1 ≤ z ≤ 200)%Z ∧ sort_allowed (query_sort req)).
Proof.
  intros Hrest Hx.
  pose proof (parseInt_decimal z rest Hrest Hx) as Hp.
  pose proof (parseInt_decimal z [] ltac:(done) ltac:(done)) as Hp0.
  rewrite app_nil_r in Hp0.
  split_and!.
  - unfold get_comments, with_limit, validateAppId. cbn [params_appId query_limit query_sort].
    by rewrite Hp, Hp0.
  - unfold get_stats, with_limit, validateAppId. cbn [params_appId query_limit query_sort].
    by rewrite Hp, Hp0.
  - unfold validateCommentParams, with_limit, sort_allowed.
    cbn [params_appId query_limit query_sort]. rewrite Hp.
    rewrite limit_out_of_range_Number by lia.
    destruct (z <? 1)%Z eqn:E1; [apply Z.ltb_lt in E1; split; [done|lia]|].
    destruct (200 <? z)%Z eqn:E2; [apply Z.ltb_lt in E2; split; [done|lia]|].
    apply Z.ltb_ge in E1, E2. cbn [orb].
    destruct (query_sort req) as [order|]; [case_bool_decide|]; cbn [negb];
      split; try done; try (intros _; split; [lia|done]). by intros [_ ?].
Qed.

Lemma limit_is_read_up_to_its_first_non_digit_witness :
  let req := {| params_appId := lit "com.whatsapp"; query_limit := None;
                query_sort := None |} in
  get_comments reject_json (lit "2024-01-15") (with_limit req (decimal 5 ++ lit "abc"))
  = get_comments reject_json (lit "2024-01-15") (with_limit req (decimal 5))
  ∧ get_stats reject_json (lit "2024-01-15") (with_limit req (decimal 5 ++ lit "abc"))
    = get_stats reject_json (lit "2024-01-15") (with_limit req (decimal 5))
  ∧ (validateCommentParams (with_limit req (decimal 5 ++ lit "abc")) = None
     ↔ (1 ≤ 5 ≤ 200)%Z ∧ sort_allowed (query_sort req)).
Proof.
  apply (limit_is_read_up_to_its_first_non_digit reject_json (lit "2024-01-15")
           {| params_appId := lit "com.whatsapp"; query_limit := None; query_sort := None |}
           5 (lit "abc")).
  - intros c [= <-]. reflexivity.
  - lia.
Defined.

(** ** Identifiers *)

Lemma is_prefix_spec p : ∀ s, is_prefix p s = true ↔ ∃ post, s = p ++ post.
Proof.
  induction p as [|a p IH]; intros s; simpl.
  - split; [by exists s|done].
  - destruct s as [|b s]; [split; [done|by intros [? ?]]|].
    rewrite andb_true_iff, N.eqb_eq, IH. split.
    + intros [-> [post ->]]. by exists post.
    + intros [post [= -> ->]]. eauto.
Qed.

Lemma includes_spec needle : ∀ s,
  includes s needle = true ↔ ∃ pre post, s = pre ++ needle ++ post.
Proof.
  induction s as [|c s IH]; simpl.
  - rewrite orb_false_r, is_prefix_spec. split.
    + intros [post E]. by exists [], post.
    + intros (pre & post & E). symmetry in E.
      apply app_eq_nil in E as [-> E]. apply app_eq_nil in E as [-> ->]. by exists [].
  - rewrite orb_true_iff, is_prefix_spec, IH. split.
    + intros [[post E]|(pre & post & ->)]; [by exists [], post|by exists (c :: pre), post].
    + intros ([|c' pre] & post & E); simpl in E; [left; eauto|].
      injection E as -> ->. right. eauto.
Qed.

Lemma includes_pair (c : N) s :
  includes s [c; c] = true ↔ ∃ i, s !! i = Some c ∧ s !! S i = Some c.
Proof.
  rewrite includes_spec. split.
  - intros (pre & post & ->). exists (length pre).
    split.
    + by rewrite lookup_app_r, Nat.sub_diag by lia.
    + rewrite lookup_app_r by lia.
      by replace (S (length pre) - length pre) with 1 by lia.
  - intros (i & H1 & H2).
    apply list_elem_of_split_length in H1 as (pre & post & -> & ->).
    rewrite lookup_app_r in H2 by lia.
    replace (S (length pre) - length pre) with 1 in H2 by lia.
    destruct post as [|c' post]; simplify_eq/=. by exists pre, post.
Qed.

Lemma has_doubled_separator_false s :
  has_doubled_separator s = false ↔ no_doubled_separator s.
Proof.
  unfold has_doubled_separator, no_doubled_separator.
  rewrite !orb_false_iff. split.
  - intros [[H1 H2] H3] i c Hi HS. split_and!; intros ->.
    + assert (includes s [46%N; 46%N] = true) by (apply includes_pair; eauto). 
      change (lit "..") with [46%N; 46%N] in H1. congruence.
    + assert (includes s [95%N; 95%N] = true) by (apply includes_pair; eauto).
      change (lit "__") with [95%N; 95%N] in H2. congruence.
    + assert (includes s [45%N; 45%N] = true) by (apply includes_pair; eauto).
      change (lit "--") with [45%N; 45%N] in H3. congruence.
  - intros H. split_and!; apply not_true_is_false; intros E;
      apply (includes_pair _ s) in E as (i & H1 & H2);
      destruct (H i _ H1 H2) as (? & ? & ?); done.
Qed.

Lemma is_alnum_id_unit c : is_alnum c = true → is_id_unit c = true.
Proof. unfold is_id_unit. by intros ->. Qed.

Lemma appIdPattern_test_spec s : appIdPattern_test s = true ↔ id_shape s.
Proof.
  unfold appIdPattern_test, id_shape. destruct s as [|c rest].
  - simpl. split; [done|]. intros [? _]. lia.
  - rewrite !andb_true_iff, forallb_forall, !Nat.leb_le, length_cons.
    rewrite Forall_cons, Forall_forall. split.
    + intros [[[Hc Hall] H2] H99]. split_and!; try lia; eauto using is_alnum_id_unit.
      intros x Hx. apply Hall. by apply list_elem_of_In.
    + intros [[H3 H100] [(c' & [= <-] & Hc) [_ Hall]]]. split_and!; try lia; try done.
      intros x Hx. apply Hall. by apply list_elem_of_In.
Qed.

Lemma validateAppId_status req resp : validateAppId req = Some resp → status resp = 400%Z.
Proof.
  unfold validateAppId. repeat case_match; intros; by simplify_eq.
Qed.

Lemma validateAppId_passes req :
  validateAppId req = None →
  id_shape (params_appId req) ∧ no_doubled_separator (params_appId req).
Proof.
  unfold validateAppId. rewrite <- appIdPattern_test_spec, <- has_doubled_separator_false.
  case_bool_decide; [done|]. destruct (appIdPattern_test _); [|done].
  simpl. by destruct (has_doubled_separator _).
Qed.

(** [validateAppId] calls [next()] exactly for an identifier of 3 to 100
    letters, digits, dots, underscores and hyphens that starts with a letter
    or a digit and has no doubled dot, underscore or hyphen; any other
    identifier, the empty one included, is answered 400. *)
Theorem validateAppId_accepts_exactly req :
  (validateAppId req = None
   ↔ id_shape (params_appId req) ∧ no_doubled_separator (params_appId req))
  ∧ ∀ resp, validateAppId req = Some resp → status resp = 400%Z.
Proof.
  unfold validateAppId. rewrite <- appIdPattern_test_spec, <- has_doubled_separator_false.
  case_bool_decide as E.
  - rewrite E. split; [|by intros ? [= <-]]. split; [done|]. by intros [? _].
  - destruct (appIdPattern_test _); simpl.
    + destruct (has_doubled_separator _); simpl.
      * split; [|by intros ? [= <-]]. split; [done|]. by intros [_ ?].
      * split; [done|]. by intros ?.
    + split; [|by intros ? [= <-]]. split; [done|]. by intros [? _].
Qed.

Lemma batch_id_test appId :
  batch_id appId
  ↔ appIdPattern_test (trim appId) = true ∧ has_doubled_separator appId = false.
Proof. unfold batch_id. by rewrite appIdPattern_test_spec, has_doubled_separator_false. Qed.

Lemma validate_each_appId_passes appIds : ∀ i,
  validate_each_appId i appIds = None ↔ Forall batch_id appIds.
Proof.
  induction appIds as [|appId rest IH]; intros i; simpl; [done|].
  rewrite Forall_cons, batch_id_test, <- (IH (S i)).
  case_bool_decide as E.
  - rewrite E. split; [done|]. by intros [[? _] _].
  - destruct (appIdPattern_test _); simpl; [|split; [done|by intros [[? _] _]]].
    destruct (has_doubled_separator _); simpl; [split; [done|by intros [[_ ?] _]]|].
    split; [done|]. by intros [_ ?].
Qed.

Lemma validate_each_appId_first appIds : ∀ i j appId,
  appIds !! j = Some appId → ¬ batch_id appId → Forall batch_id (take j appIds) →
  ∃ kind message,
    validate_each_appId i appIds
    = Some (bad_request (kind ++ decimal (Z.of_nat (i + j))) message)
    ∧ kind ∈ batch_id_messages.
Proof.
  induction appIds as [|a rest IH]; intros i j appId Hj Hbad Hgood; [done|].
  cbn [validate_each_appId].
  destruct j as [|j].
  - injection Hj as ->. rewrite Nat.add_0_r. rewrite batch_id_test in Hbad.
    case_bool_decide.
    { eexists _, _. split; [done|]. set_solver. }
    destruct (appIdPattern_test _); cbn [negb].
    + destruct (has_doubled_separator _); [|by destruct Hbad].
      eexists _, _. split; [done|]. set_solver.
    + eexists _, _. split; [done|]. set_solver.
  - cbn [take] in Hgood. apply Forall_cons in Hgood as [Ha Hgood].
    apply batch_id_test in Ha as [Ha1 Ha2]. rewrite Ha1, Ha2. cbn [negb].
    case_bool_decide as E; [by rewrite E in Ha1|].
    replace (i + S j) with (S i + j) by lia. by eapply IH.
Qed.

Lemma validate_each_appId_status appIds : ∀ i resp,
  validate_each_appId i appIds = Some resp → status resp = 400%Z.
Proof.
  induction appIds as [|a rest IH]; intros i resp; [done|].
  cbn [validate_each_appId].
  repeat (case_bool_decide || destruct (appIdPattern_test _)
          || destruct (has_doubled_separator _) || cbn [negb]);
    try (by intros [= <-]); apply IH.
Qed.

(** [validateBatchRequest] calls [next()] exactly when [appIds] is an array
    of 1 to 10 identifiers that each pass its loop, the limit is absent or
    reads as an integer from 1 to 100, and the sort is absent or one of the
    three orders; every response it sends has status 400. *)
Theorem validateBatchRequest_accepts_exactly req :
  (validateBatchRequest req = None
   ↔ ∃ appIds, body_appIds req = Some appIds
       ∧ 1 ≤ length appIds ≤ 10
       ∧ Forall batch_id appIds
       ∧ limit_in_range (body_limit req) 100
       ∧ sort_allowed (body_sort req))
  ∧ ∀ resp, validateBatchRequest req = Some resp → status resp = 400%Z.
Proof.
  unfold validateBatchRequest.
  destruct (body_appIds req) as [appIds|];
    [|split; [split; [done|by intros (? & ? & _)]|by intros ? [= <-]]].
  case_bool_decide as E0.
  { split; [|by intros ? [= <-]]. split; [done|]. intros (? & [= <-] & ? & _). lia. }
  destruct (10 <? length appIds) eqn:E10.
  { apply Nat.ltb_lt in E10. split; [|by intros ? [= <-]].
    split; [done|]. intros (? & [= <-] & ? & _). lia. }
  apply Nat.ltb_ge in E10.
  destruct (validate_each_appId 0 appIds) as [resp0|] eqn:Eids.
  { split.
    - split; [done|]. intros (? & [= <-] & _ & Hall & _).
      apply (validate_each_appId_passes _ 0) in Hall. congruence.
    - intros resp [= <-]. by eapply validate_each_appId_status. }
  apply validate_each_appId_passes in Eids.
  unfold limit_in_range, sort_allowed.
  destruct (body_limit req) as [text|].
  - destruct (limit_out_of_range (parseInt text) 100) eqn:El.
    { split; [|by intros ? [= <-]]. split; [done|].
      intros (? & _ & _ & _ & Hl & _). apply limit_out_of_range_false in Hl. congruence. }
    apply limit_out_of_range_false in El.
    destruct (body_sort req) as [order|]; [case_bool_decide|]; simpl.
    + split; [|done]. split; [|done]. intros _. exists appIds. split_and!; auto; lia.
    + split; [|by intros ? [= <-]]. split; [done|]. by intros (? & _ & _ & _ & _ & ?).
    + split; [|done]. split; [|done]. intros _. exists appIds. split_and!; auto; lia.
  - destruct (body_sort req) as [order|]; [case_bool_decide|]; simpl.
    + split; [|done]. split; [|done]. intros _. exists appIds. split_and!; auto; lia.
    + split; [|by intros ? [= <-]]. split; [done|]. by intros (? & _ & _ & _ & _ & ?).
    + split; [|done]. split; [|done]. intros _. exists appIds. split_and!; auto; lia.
Qed.

(** The identifiers are checked before the limit and the sort, in order:
    the error of [validateBatchRequest] names the index of the first
    identifier that does not pass, whatever the limit and the sort are. *)
Theorem validateBatchRequest_names_first_offender req appIds j appId :
  body_appIds req = Some appIds →
  length appIds ≤ 10 →
  appIds !! j = Some appId →
  ¬ batch_id appId →
  Forall batch_id (take j appIds) →
  ∃ kind message,
    validateBatchRequest req = Some (bad_request (kind ++ decimal (Z.of_nat j)) message)
    ∧ kind ∈ batch_id_messages.
Proof.
  intros Hids Hlen Hj Hbad Hgood. unfold validateBatchRequest. rewrite Hids.
  rewrite bool_decide_eq_false_2 by (apply lookup_lt_Some in Hj; lia).
  replace (10 <? length appIds) with false by (symmetry; apply Nat.ltb_ge; lia).
  destruct (validate_each_appId_first appIds 0 j appId Hj Hbad Hgood)
    as (kind & message & -> & Hkind).
  by exists kind, message.
Qed.

Lemma validateBatchRequest_names_first_offender_witness :
  ∃ kind message,
    validateBatchRequest
      {| body_appIds := Some [lit "com.whatsapp"; lit "a..b"; lit ""];
         body_limit := Some (lit "999"); body_sort := None |}
    = Some (bad_request (kind ++ decimal (Z.of_nat 1)) message)
    ∧ kind ∈ batch_id_messages.
Proof.
  apply (validateBatchRequest_names_first_offender _
           [lit "com.whatsapp"; lit "a..b"; lit ""] 1 (lit "a..b")).
  - reflexivity.
  - simpl; lia.
  - reflexivity.
  - rewrite batch_id_test. vm_compute. intros [? ?]; discriminate.
  - apply Forall_cons_2; [|apply Forall_nil_2]. apply batch_id_test. by vm_compute.
Defined.

Lemma id_unit_not_space c : is_id_unit c = true → is_space c = false.
Proof.
  unfold is_id_unit, is_alnum, is_digit, is_space. intros H.
  repeat (apply orb_true_iff in H as [H|H]);
    repeat (apply andb_true_iff in H as [H ?]);
    repeat match goal with
           | H : (_ <=? _)%N = true |- _ => apply N.leb_le in H
           | H : (_ =? _)%N = true |- _ => apply N.eqb_eq in H
           end;
    repeat (apply orb_false_iff; split); try (apply andb_false_iff; left);
    try (apply N.eqb_neq; lia); try (apply N.leb_gt; lia).
Qed.

Lemma drop_spaces_pad l s :
  Forall (λ c, is_space c = true) l → drop_spaces (l ++ s) = drop_spaces s.
Proof. induction 1 as [|c l Hc _ IH]; simpl; [done|by rewrite Hc]. Qed.

Lemma drop_spaces_head c s : is_space c = false → drop_spaces (c :: s) = c :: s.
Proof. simpl. by intros ->. Qed.

Lemma trim_padded l s r :
  Forall (λ c, is_space c = true) l → Forall (λ c, is_space c = true) r →
  Forall (λ c, is_space c = false) s →
  trim (l ++ s ++ r) = s.
Proof.
  intros Hl Hr Hs. unfold trim. rewrite drop_spaces_pad by done.
  destruct s as [|c s]; simpl app.
  - rewrite <- (app_nil_r r) at 1. rewrite drop_spaces_pad by done. done.
  - apply Forall_cons in Hs as Hs'. destruct Hs' as [Hc Hs'].
    rewrite drop_spaces_head by done.
    change (c :: s ++ r) with ((c :: s) ++ r). rewrite rev_app_distr.
    rewrite drop_spaces_pad by (by apply Forall_rev).
    destruct (rev (c :: s)) as [|c' s'] eqn:E.
    { apply (f_equal length) in E. rewrite length_rev in E. done. }
    assert (is_space c' = false) as Hc'.
    { apply Forall_rev in Hs. rewrite E in Hs. by apply Forall_cons in Hs as [? _]. }
    rewrite drop_spaces_head by done. rewrite <- E. apply rev_involutive.
Qed.

(** The loop of [validateBatchRequest] tests the pattern on the trimmed
    identifier: an identifier that [validateAppId] lets through still passes
    it with white space added at either end, though [validateAppId] itself
    refuses the padded identifier. *)
Theorem padded_id_passes_batch_validation req l r :
  validateAppId req = None →
  Forall (λ c, is_space c = true) l → Forall (λ c, is_space c = true) r →
  batch_id (l ++ params_appId req ++ r)
  ∧ (l ++ r ≠ [] →
     validateAppId (with_appId req (l ++ params_appId req ++ r)) ≠ None).
Proof.
  intros Hvalid Hl Hr.
  apply validateAppId_passes in Hvalid as [Hshape Hsep].
  assert (Forall (λ c, is_space c = false) (params_appId req)) as Hns.
  { destruct Hshape as (_ & _ & Hall). eapply Forall_impl; [done|].
    apply id_unit_not_space. }
  split; [split; [by rewrite trim_padded|]|].
  - intros i c Hi HSi.
    destruct (is_space c) eqn:Hc.
    { unfold is_space in Hc. split_and!; intros ->; done. }
    assert (∀ k, (l ++ params_appId req ++ r) !! k = Some c →
                 length l ≤ k < length l + length (params_appId req)
                 ∧ params_appId req !! (k - length l) = Some c) as Hin.
    { intros k Hk. apply lookup_app_Some in Hk as [Hk|[? Hk]].
      - eapply Forall_lookup_1 in Hl; [|done]. simpl in Hl. congruence.
      - apply lookup_app_Some in Hk as [Hk|[? Hk]].
        + apply lookup_lt_Some in Hk as Hlt. split; [lia|done].
        + eapply Forall_lookup_1 in Hr; [|done]. simpl in Hr. congruence. }
    destruct (Hin _ Hi) as [? H1]. destruct (Hin _ HSi) as [? H2].
    replace (S i - length l) with (S (i - length l)) in H2 by lia.
    exact (Hsep _ _ H1 H2).
  - intros Hpad Hpass. apply validateAppId_passes in Hpass as [(_ & _ & Hall) _].
    cbn [with_appId params_appId] in Hall.
    apply Forall_app in Hall as [Hall_l Hall]. apply Forall_app in Hall as [_ Hall_r].
    assert (∀ pad, Forall (λ c, is_space c = true) pad →
                   Forall (λ c, is_id_unit c = true) pad → pad = []) as Hnone.
    { intros [|c pad] Hs Hi; [done|].
      apply Forall_cons in Hs as [Hs _]. apply Forall_cons in Hi as [Hi _].
      apply id_unit_not_space in Hi. congruence. }
    rewrite (Hnone l), (Hnone r) in Hpad by done. done.
Qed.

Lemma padded_id_passes_batch_validation_witness :
  batch_id (lit "  " ++ lit "com.whatsapp" ++ lit " ")
  ∧ (lit "  " ++ lit " " ≠ [] →
     validateAppId
       (with_appId {| params_appId := lit "com.whatsapp"; query_limit := None;
                      query_sort := None |}
          (lit "  " ++ lit "com.whatsapp" ++ lit " ")) ≠ None).
Proof.
  apply (padded_id_passes_batch_validation
           {| params_appId := lit "com.whatsapp"; query_limit := None; query_sort := None |}).
  - reflexivity.
  - repeat constructor.
  - repeat constructor.
Defined.

(** ** A limit that is not positive *)

Lemma each_entry_full today limit es :
  length_ge 0 limit = true → each_entry today limit es [] = [].
Proof. intros H. induction es as [|e es IH]; simpl; [done|]. by rewrite H. Qed.

Lemma each_text_full today limit ms : ∀ index,
  length_ge 0 limit = true → each_text today limit index ms [] = [].
Proof. induction ms as [|m ms IH]; intros index H; simpl; [done|]. rewrite H. by apply IH. Qed.

Lemma each_container_full today limit ms :
  length_ge 0 limit = true → each_container today limit ms [] = [].
Proof. intros H. induction ms as [|m ms IH]; simpl; [done|]. by rewrite H. Qed.

Lemma processReviewMatches_full decode_json today matches pattern limit :
  length_ge 0 limit = true →
  processReviewMatches decode_json today matches pattern limit = [].
Proof.
  intros H. unfold processReviewMatches.
  destruct (includes _ (lit "reviews")).
  - destruct (JSON_parse _ _) as [[|es]|]; [done| |done]. by apply each_entry_full.
  - destruct (includes _ (lit "reviewText")).
    + by apply each_text_full.
    + by apply each_container_full.
Qed.

Lemma each_pattern_full decode_json today patterns html limit :
  length_ge 0 limit = true →
  each_pattern decode_json today patterns html limit [] = [].
Proof.
  intros H. induction patterns as [|p ps IH]; [done|].
  cbn [each_pattern]. destruct (match_all p html); [|done].
  rewrite processReviewMatches_full by done. simpl. by rewrite H.
Qed.

Lemma page_records_nonpositive decode_json today z o :
  (z ≤ 0)%Z → page_records decode_json today (Finite z) o = [].
Proof.
  intros Hz. destruct o as [e|st data]; [done|]. simpl.
  case_bool_decide; [|done]. destruct data as [s|]; [|done].
  unfold extractReviewsFromHTML. rewrite each_pattern_full.
  - unfold slice0. destruct (z <? 0)%Z; [|by rewrite take_nil]. by rewrite take_nil.
  - simpl. by apply Z.leb_le.
Qed.

(** With a limit of 0 or less the extraction keeps no record, so both pages
    are requested and the sample generator answers: nothing for 0, and for a
    negative limit the ten sample records less the last [-limit] of them,
    which is what [slice(0, limit)] keeps. *)
Theorem fetchComments_nonpositive_limit decode_json today net appId opts z log :
  limit opts = Some (Finite z) → (z ≤ 0)%Z →
  run net (fetchComments decode_json today appId opts) log
  = (Fulfilled (if bool_decide (z = 0%Z) then []
                else take (Z.to_nat (10 + z)) sampleReviews),
     log ++ [buildAppPageUrl appId (default (lit "recent") (sort opts))
               (default (lit "en") (language opts)) (default (lit "US") (country opts));
             alternativeUrl appId (default (lit "en") (language opts))
               (default (lit "US") (country opts))]).
Proof.
  intros Hlimit Hz. rewrite run_fetchComments. unfold fetched. rewrite Hlimit.
  cbv beta zeta. change (default (Finite 50) (Some (Finite z))) with (Finite z).
  rewrite !page_records_nonpositive by done.
  rewrite !bool_decide_eq_true_2 by done. cbn [fst snd]. f_equal. f_equal.
  unfold generateSampleReviews, math_min, slice0.
  change (length sampleReviews) with 10.
  rewrite Z.min_l by lia. case_bool_decide as E.
  - by subst z.
  - replace (z <? 0)%Z with true by (symmetry; apply Z.ltb_lt; lia).
    f_equal. lia.
Qed.

Lemma fetchComments_nonpositive_limit_witness :
  run unreachable
    (fetchComments reject_json (lit "2024-01-15") (lit "com.whatsapp")
       {| limit := Some (Finite (-3)); sort := None; language := None; country := None |})
    []
  = (Fulfilled (take 7 sampleReviews),
     [lit "https://play.google.com/store/apps/details?id=com.whatsapp&hl=en&gl=US&sort=0";
      lit "https://play.google.com/store/apps/details?id=com.whatsapp&showAllReviews=true&hl=en&gl=US"]).
Proof.
  apply (fetchComments_nonpositive_limit reject_json (lit "2024-01-15") unreachable
           (lit "com.whatsapp")
           {| limit := Some (Finite (-3)); sort := None; language := None; country := None |}
           (-3) []).
  - reflexivity.
  - lia.
Defined.

(** ** The branches never overshoot *)

Lemma length_ge_false n z : length_ge n (Finite z) = false → (Z.of_nat n < z)%Z.
Proof. simpl. intros H. by apply Z.leb_gt in H. Qed.

Lemma each_entry_bounded today z es : ∀ acc,
  (Z.of_nat (length acc) ≤ z)%Z →
  (Z.of_nat (length (each_entry today (Finite z) es acc)) ≤ z)%Z.
Proof.
  induction es as [|e es IH]; intros acc Hacc; cbn [each_entry]; [done|].
  destruct (length_ge _ _) eqn:E; [by apply IH|]. apply length_ge_false in E.
  destruct e as [r|]; [|done]. case_bool_decide; [|by apply IH].
  apply IH. rewrite length_app. simpl. lia.
Qed.

Lemma each_text_bounded today z ms : ∀ index acc,
  (Z.of_nat (length acc) ≤ z)%Z →
  (Z.of_nat (length (each_text today (Finite z) index ms acc)) ≤ z)%Z.
Proof.
  induction ms as [|m ms IH]; intros index acc Hacc; cbn [each_text]; [done|].
  destruct (length_ge _ _) eqn:E; [by apply IH|]. apply length_ge_false in E.
  destruct (0 <? index); [|by apply IH].
  apply IH. rewrite length_app. simpl. lia.
Qed.

Lemma each_container_bounded today z ms : ∀ acc,
  (Z.of_nat (length acc) ≤ z)%Z →
  (Z.of_nat (length (each_container today (Finite z) ms acc)) ≤ z)%Z.
Proof.
  induction ms as [|m ms IH]; intros acc Hacc; cbn [each_container]; [done|].
  destruct (length_ge _ _) eqn:E; [by apply IH|]. apply length_ge_false in E.
  destruct (extractCommentFromHTML today m) as [comment|]; [|by apply IH].
  case_bool_decide; [by apply IH|].
  apply IH. rewrite length_app. simpl. lia.
Qed.

(** Whatever array of matches and whatever pattern it is given,
    [processReviewMatches] returns at most [limit] records, for a limit that
    is not negative. *)
Theorem processReviewMatches_bounded decode_json today matches pattern z :
  (0 ≤ z)%Z →
  (Z.of_nat (length (processReviewMatches decode_json today matches pattern (Finite z)))
   ≤ z)%Z.
Proof.
  intros Hz. unfold processReviewMatches.
  destruct (includes _ (lit "reviews")).
  - destruct (JSON_parse _ _) as [[|es]|]; [done| |done]. by apply each_entry_bounded.
  - destruct (includes _ (lit "reviewText")).
    + by apply each_text_bounded.
    + by apply each_container_bounded.
Qed.

Lemma processReviewMatches_bounded_witness :
  (Z.of_nat (length (processReviewMatches reject_json (lit "2024-01-15")
                       [markup "'reviewText': 'one'"; markup "'reviewText': 'two'";
                        markup "'reviewText': 'three'"]
                       text_pattern (Finite 1)))
   ≤ 1)%Z.
Proof. apply processReviewMatches_bounded. lia. Defined.

(** ** The retrieval methods *)

(** Each of the two retrieval methods issues exactly one request, to its own
    URL, and never rejects: its records are valid, and there is none unless
    the answer has status 200 and a text for body. *)
Theorem retrieval_methods_issue_one_request decode_json today net appId limit sort
    language country log :
  (∃ comments,
     run net (fetchReviewsFromPage decode_json today appId limit sort language country) log
     = (Fulfilled comments, log ++ [buildAppPageUrl appId sort language country])
     ∧ Forall valid_review comments
     ∧ ((∀ data, net log (buildAppPageUrl appId sort language country)
                 ≠ Resolved 200 (Text data)) → comments = []))
  ∧ (∃ comments,
       run net (fetchReviewsAlternative decode_json today appId limit sort language country)
         log
       = (Fulfilled comments, log ++ [alternativeUrl appId language country])
       ∧ Forall valid_review comments
       ∧ ((∀ data, net log (alternativeUrl appId language country)
                   ≠ Resolved 200 (Text data)) → comments = [])).
Proof.
  assert (∀ o, (∀ data, o ≠ Resolved 200 (Text data)) →
               page_records decode_json today limit o = []) as Hempty.
  { intros [e|st [s|]] Ho; simpl; [done| |by case_bool_decide].
    case_bool_decide as E; [|done]. subst st. by destruct (Ho s). }
  split.
  - rewrite run_fetchReviewsFromPage. cbv zeta. eexists. split; [done|].
    split; [apply page_records_valid|apply Hempty].
  - rewrite run_fetchReviewsAlternative. cbv zeta. eexists. split; [done|].
    split; [apply page_records_valid|apply Hempty].
Qed.

(** ** The single-app routes *)

Lemma fetched_log decode_json today net appId opts log :
  ∃ issued, (fetched decode_json today net appId opts log).2 = log ++ issued
            ∧ 1 ≤ length issued ≤ 2.
Proof.
  unfold fetched. cbv zeta. repeat case_bool_decide; cbn [snd]; eexists; split; try done;
    simpl; lia.
Qed.

(** The two single-app routes answer 400, before any request upstream, when
    [validateAppId] refuses the identifier, and 200 otherwise, after one or
    two requests upstream: the 500 of their [catch] is never sent.  In a 200
    the count of the body is the length of the list it comes with. *)
Theorem single_app_routes_never_answer_500 decode_json today net req log :
  (∃ resp log',
     run net (get_comments decode_json today req) log = (Fulfilled resp, log')
     ∧ (validateAppId req = Some resp ∧ status resp = 400%Z ∧ log' = log
        ∨ validateAppId req = None ∧ status resp = 200%Z
          ∧ (∃ issued, log' = log ++ issued ∧ 1 ≤ length issued ≤ 2)
          ∧ ∃ comments limit sort,
              json resp = CommentsBody (params_appId req) (length comments) comments
                            limit sort))
  ∧ (∃ resp log',
       run net (get_stats decode_json today req) log = (Fulfilled resp, log')
       ∧ (validateAppId req = Some resp ∧ status resp = 400%Z ∧ log' = log
          ∨ validateAppId req = None ∧ status resp = 200%Z
            ∧ (∃ issued, log' = log ++ issued ∧ 1 ≤ length issued ≤ 2)
            ∧ ∃ comments,
                json resp = StatsBody (params_appId req) (computeStats comments)
                              (length comments)
                ∧ stats_totalComments (computeStats comments) = length comments)).
Proof.
  destruct (validateAppId req) as [rejected|] eqn:E.
  - pose proof (validateAppId_status _ _ E) as Hst.
    split; exists rejected, log; (split; [|by left]).
    + unfold get_comments. by rewrite E.
    + unfold get_stats. by rewrite E.
  - split.
    + rewrite run_get_comments by done. cbv zeta. eexists _, _. split; [done|].
      right. split_and!; [done|done|apply fetched_log|]. by eexists _, _, _.
    + rewrite run_get_stats by done. cbv zeta. eexists _, _. split; [done|].
      right. split_and!; [done|done|apply fetched_log|]. by eexists.
Qed.

(** ** The histograms of the statistics *)

Lemma count_up_lookup (key key' : jsstring) (object : gmap jsstring nat) :
  count_up key object !! key'
  = if bool_decide (key = key') then Some (default 0 (object !! key') + 1)
    else object !! key'.
Proof.
  unfold count_up. case_bool_decide as E.
  - subst. by rewrite lookup_insert_eq.
  - by rewrite lookup_insert_ne.
Qed.

Lemma positive_count_inv (o : option nat) n :
  o = positive_count n → Some (default 0 o + 1) = positive_count (S n).
Proof. intros ->. destruct n; simpl; f_equal; lia. Qed.

Lemma tally_by_rating_lookup comments : ∀ t key n,
  by_rating t !! key = positive_count n →
  by_rating (foldl tally_comment t comments) !! key
  = positive_count (n + length (filter (λ c, decimal (rating c) = key) comments)).
Proof.
  induction comments as [|c cs IH]; intros t key n Ht; simpl.
  - by rewrite Nat.add_0_r.
  - rewrite filter_cons. case_decide as E.
    + rewrite (IH _ key (S n)); [f_equal; simpl; lia|].
      simpl. rewrite count_up_lookup, bool_decide_eq_true_2 by done.
      by apply positive_count_inv.
    + rewrite (IH _ key n); [done|].
      simpl. by rewrite count_up_lookup, bool_decide_eq_false_2.
Qed.

Lemma tally_by_month_lookup comments : ∀ t key n,
  by_month t !! key = positive_count n →
  by_month (foldl tally_comment t comments) !! key
  = positive_count
      (n + length (filter (λ c, date c ≠ [] ∧ substring0 7 (date c) = key) comments)).
Proof.
  induction comments as [|c cs IH]; intros t key n Ht; simpl.
  - by rewrite Nat.add_0_r.
  - rewrite filter_cons. case_decide as E.
    + destruct E as [E1 E2].
      rewrite (IH _ key (S n)); [f_equal; simpl; lia|].
      simpl. rewrite bool_decide_eq_false_2 by done.
      rewrite count_up_lookup, bool_decide_eq_true_2 by done.
      by apply positive_count_inv.
    + rewrite (IH _ key n); [done|].
      simpl. case_bool_decide; [done|].
      rewrite count_up_lookup, bool_decide_eq_false_2; [done|]. naive_solver.
Qed.

(** [ratingDistribution] maps the text of a rating to the number of records
    with that rating, and has no other key; [dateDistribution] maps a month
    to the number of dated records of that month.  A count of 0 is an absent
    key. *)
Theorem statistics_histograms comments :
  (∀ r, ratingDistribution (computeStats comments) !! decimal r
        = positive_count (length (filter (λ c, rating c = r) comments)))
  ∧ (∀ key, (∀ r, key ≠ decimal r) →
            ratingDistribution (computeStats comments) !! key = None)
  ∧ (∀ key, dateDistribution (computeStats comments) !! key
            = positive_count
                (length (filter (λ c, date c ≠ [] ∧ substring0 7 (date c) = key)
                           comments))).
Proof.
  split_and!.
  - intros r. unfold computeStats. cbn [ratingDistribution].
    rewrite (tally_by_rating_lookup _ _ _ 0) by done. cbn [Nat.add]. f_equal.
    induction comments as [|c cs IH]; [done|].
    rewrite !filter_cons.
    destruct (decide (rating c = r)) as [->|Hne].
    + rewrite decide_True by done. simpl. by rewrite IH.
    + rewrite decide_False; [done|]. intros E. by apply decimal_inj in E.
  - intros key Hkey. unfold computeStats. cbn [ratingDistribution].
    rewrite (tally_by_rating_lookup _ _ _ 0) by done. cbn [Nat.add].
    replace (filter _ comments) with (@nil review); [done|].
    symmetry. induction comments as [|c cs IH]; [done|].
    rewrite filter_cons, decide_False; [done|]. intros E. by apply (Hkey (rating c)).
  - intros key. unfold computeStats. cbn [dateDistribution].
    by rewrite (tally_by_month_lookup _ _ _ 0) by done.
Qed.

(** ** The tasks of a batch *)

Lemma fetchComments_stages decode_json today appId limit sort :
  ∃ k, fetchComments decode_json today appId
         {| limit := Some limit; sort := Some sort; language := None; country := None |}
       = Get (buildAppPageUrl appId sort (lit "en") (lit "US")) k
       ∧ ∀ o, first_stage (alternativeUrl appId (lit "en") (lit "US")) (k o).
Proof.
  eexists. split; [reflexivity|]. intros o. unfold first_stage, last_stage.
  destruct o as [e|st data]; simpl.
  - right. eexists. split; [reflexivity|]. intros [e'|st' data']; simpl; [by eexists|].
    repeat case_bool_decide; simpl; repeat case_bool_decide; by eexists.
  - case_bool_decide; simpl.
    + right. eexists. split; [reflexivity|]. intros [e'|st' data']; simpl; [by eexists|].
      repeat case_bool_decide; simpl; repeat case_bool_decide; by eexists.
    + case_bool_decide; simpl.
      * right. eexists. split; [reflexivity|]. intros [e'|st' data']; simpl; [by eexists|].
        repeat case_bool_decide; simpl; repeat case_bool_decide; by eexists.
      * left. by eexists.
Qed.

Lemma start_tasks_in_flight decode_json today limit sort appIds : ∀ pl,
  results (start_tasks decode_json today limit sort appIds pl) = results pl
  ∧ errors (start_tasks decode_json today limit sort appIds pl) = errors pl
  ∧ ∃ started, slots (start_tasks decode_json today limit sort appIds pl)
               = slots pl ++ started
               ∧ Forall2 (first_request sort) appIds started.
Proof.
  induction appIds as [|appId rest IH]; intros pl.
  - split_and!; [done|done|]. exists []. by rewrite app_nil_r.
  - rewrite start_tasks_cons.
    destruct (fetchComments_stages decode_json today appId limit sort) as (k & -> & Hk).
    cbn [advance_task].
    destruct (IH {| slots := slots pl ++ [Pending appId
                      (buildAppPageUrl appId sort (lit "en") (lit "US")) k];
                    results := results pl; errors := errors pl |})
      as (-> & -> & started & -> & Hstarted).
    split_and!; [done|done|]. cbn [slots]. eexists (_ :: started).
    rewrite <- (assoc_L (++)). split; [done|]. constructor; [|done]. by exists k.
Qed.

Lemma first_request_task_state sort appId s :
  first_request sort appId s → task_state sort appId s.
Proof. intros (k & -> & Hk). simpl. split; [done|]. by left. Qed.

Lemma advance_task_stage appId p rs es :
  (last_stage p → (advance_task appId p rs es).1.1 = Settled)
  ∧ (∀ url k, p = Get url k → (advance_task appId p rs es).1.1 = Pending appId url k).
Proof.
  split.
  - by intros [comments ->].
  - by intros url k ->.
Qed.

Lemma deliver_task_state sort appIds i o pl :
  Forall2 (task_state sort) appIds (slots pl) →
  Forall2 (task_state sort) appIds (slots (deliver i o pl)).
Proof.
  intros Hinv. unfold deliver.
  destruct (slots pl !! i) as [[id url k|]|] eqn:Ei; [|done..].
  destruct (Forall2_lookup_r _ _ _ _ _ Hinv Ei) as (appId & Hid & Hstate).
  destruct Hstate as [-> Hstate].
  unfold resume.
  destruct (advance_task appId (k o) (results pl) (errors pl)) as [[s rs] es] eqn:Ea.
  cbn [slots]. rewrite <- (list_insert_id appIds i appId Hid).
  apply Forall2_insert; [done|].
  pose proof (advance_task_stage appId (k o) (results pl) (errors pl)) as [Hlast Hget].
  rewrite Ea in Hlast, Hget. cbn [fst] in Hlast, Hget.
  destruct Hstate as [[_ Hk]|[_ Hk]].
  - destruct (Hk o) as [Hl|(k2 & Hk2 & Hk2')].
    + by rewrite Hlast.
    + rewrite (Hget _ _ Hk2). simpl. split; [done|]. by right.
  - by rewrite Hlast.
Qed.

Lemma deliver_all_task_state sort appIds events : ∀ pl,
  Forall2 (task_state sort) appIds (slots pl) →
  Forall2 (task_state sort) appIds (slots (deliver_all events pl)).
Proof.
  unfold deliver_all. induction events as [|ev events IH]; intros pl Hinv; [done|].
  simpl. apply IH. by apply deliver_task_state.
Qed.

(** At every point of a batch, whatever answers have arrived and in
    whatever order, the task of an identifier is over or waits for one of
    the two pages of that identifier: the page first, the alternative page
    second, and nothing after it. *)
Theorem batch_tasks_keep_to_their_urls decode_json today limit sort appIds events :
  Forall2 (task_state sort) appIds
    (slots (deliver_all events
              (start_tasks decode_json today limit sort appIds
                 {| slots := []; results := []; errors := [] |}))).
Proof.
  apply deliver_all_task_state.
  destruct (start_tasks_in_flight decode_json today limit sort appIds
              {| slots := []; results := []; errors := [] |})
    as (_ & _ & started & -> & Hstarted).
  cbn [slots app]. eapply Forall2_impl; [done|]. apply first_request_task_state.
Qed.

(** ** The text of a container *)

Lemma star_greedy_run mem s : ∀ st,
  star_greedy mem (λ _ st, Some st) s st
  = Some {| consumed := consumed st + leading mem s;
            group_start := group_start st; group_end := group_end st |}.
Proof.
  induction s as [|c s IH]; intros st; simpl.
  - rewrite Nat.add_0_r. by destruct st.
  - destruct (mem c).
    + rewrite IH. simpl. do 2 f_equal. lia.
    + rewrite Nat.add_0_r. by destruct st.
Qed.

Lemma attempt_spaces s :
  attempt spaces_pattern s
  = match s with
    | c :: s' =>
        if is_space c
        then Some {| consumed := S (leading is_space s');
                     group_start := None; group_end := None |}
        else None
    | [] => None
    end.
Proof.
  unfold attempt. change (prog spaces_pattern) with [Plus CSpace].
  change (ignore_case spaces_pattern) with false.
  destruct s as [|c s]; [done|]. cbn [match_here cset_mem].
  destruct (is_space c); [|done].
  change (match_here false []) with (λ (_ : jsstring) (st : mstate), Some st).
  by rewrite star_greedy_run.
Qed.

Lemma replace_spaces s :
  replace_all spaces_pattern (lit " ") s 0 = collapse false s
  ∧ replace_all spaces_pattern (lit " ") s (leading is_space s) = collapse true s.
Proof.
  induction s as [|c s [IH0 IH1]]; [done|].
  cbn [leading collapse]. destruct (is_space c) eqn:E.
  - split.
    + cbn [replace_all]. rewrite attempt_spaces, E. cbn [consumed Nat.eqb pred].
      by rewrite IH1.
    + cbn [replace_all]. exact IH1.
  - split; cbn [replace_all]; rewrite attempt_spaces, E; by rewrite IH0.
Qed.

Lemma collapse_single_spaced s : ∀ in_run,
  single_spaced (collapse in_run s)
  ∧ (in_run = true → ∀ c, head (collapse in_run s) = Some c → is_space c = false).
Proof.
  induction s as [|c s IH]; intros in_run; [done|]. cbn [collapse].
  destruct (is_space c) eqn:E.
  - destruct (IH true) as [IH1 IH2]. destruct in_run.
    + split; [done|]. auto.
    + split; [|done]. cbn [single_spaced]. split; [|done]. intros _. split; [done|]. auto.
  - destruct (IH false) as [IH1 _]. split.
    + cbn [single_spaced]. split; [|done]. congruence.
    + intros _ c' [= <-]. done.
Qed.

Lemma single_spaced_app s1 s2 : single_spaced (s1 ++ s2) → single_spaced s1 ∧ single_spaced s2.
Proof.
  induction s1 as [|c s1 IH]; [done|]. cbn [app single_spaced].
  intros [Hc Hs]. destruct (IH Hs) as [H1 H2]. split; [|done]. split; [|done].
  intros Hsp. destruct (Hc Hsp) as [-> Hnext]. split; [done|].
  intros c' Hc'. apply Hnext. by destruct s1.
Qed.

Lemma tag_free_app s1 s2 : tag_free (s1 ++ s2) → tag_free s1 ∧ tag_free s2.
Proof.
  induction s1 as [|c s1 IH]; [done|]. cbn [app tag_free].
  intros [Hc Hs]. destruct (IH Hs) as [H1 H2]. split; [|done]. split; [|done].
  intros E Hin. apply (Hc E). apply elem_of_app. by left.
Qed.

Lemma drop_spaces_suffix s : ∃ pre, s = pre ++ drop_spaces s.
Proof.
  induction s as [|c s [pre IH]]; [by exists []|]. simpl.
  destruct (is_space c); [|by exists []]. exists (c :: pre). simpl. by f_equal.
Qed.

Lemma drop_spaces_head_not_space s c : head (drop_spaces s) = Some c → is_space c = false.
Proof.
  induction s as [|c' s IH]; [done|]. simpl.
  destruct (is_space c') eqn:E; [done|]. by intros [= <-].
Qed.

Lemma trim_infix s : ∃ pre post, s = pre ++ trim s ++ post.
Proof.
  unfold trim. destruct (drop_spaces_suffix s) as [pre Hs].
  destruct (drop_spaces_suffix (rev (drop_spaces s))) as [post' Hr].
  exists pre, (rev post'). rewrite <- rev_app_distr, <- Hr, rev_involutive. done.
Qed.

Lemma trim_trimmed s : trimmed (trim s).
Proof.
  unfold trim, trimmed.
  set (y := drop_spaces s). set (z := drop_spaces (rev y)).
  assert (∀ c, last (rev z) = Some c → is_space c = false) as Hlast.
  { intros c Hc. apply (drop_spaces_head_not_space (rev y)). fold z.
    destruct z as [|c' z']; [done|]. simpl in Hc. rewrite last_snoc in Hc.
    by injection Hc as ->. }
  split; [|done]. intros c Hc.
  destruct (drop_spaces_suffix (rev y)) as [pre Hy]. fold z in Hy.
  apply (f_equal (@rev N)) in Hy. rewrite rev_involutive, rev_app_distr in Hy.
  apply (drop_spaces_head_not_space s). fold y. rewrite Hy.
  destruct (rev z); [done|]. done.
Qed.

Lemma star_greedy_closing s : ∀ st,
  star_greedy (cset_mem false (CCompl (COne 62%N))) (match_here false [Chr 62%N]) s st = None →
  62%N ∉ s.
Proof.
  induction s as [|c s IH]; intros st H; [by apply not_elem_of_nil|].
  cbn [star_greedy] in H. cbn [cset_mem chr_eq] in H.
  destruct (62 =? c)%N eqn:E; cbn [negb] in H.
  - cbn [match_here chr_eq] in H. by rewrite E in H.
  - apply N.eqb_neq in E.
    destruct (star_greedy _ _ s (advance st)) eqn:Es; [done|].
    apply not_elem_of_cons. split; [done|]. by eapply IH.
Qed.

Lemma attempt_tag_fails c s :
  attempt tag_pattern (c :: s) = None → c = 60%N → 62%N ∉ s.
Proof.
  intros H ->. unfold attempt in H.
  change (prog tag_pattern) with [Chr 60%N; Star (CCompl (COne 62%N)); Chr 62%N] in H.
  change (ignore_case tag_pattern) with false in H.
  by apply star_greedy_closing in H.
Qed.

Lemma attempt_tag_consumes s st : attempt tag_pattern s = Some st → consumed st ≠ 0.
Proof.
  unfold attempt.
  change (prog tag_pattern) with [Chr 60%N; Star (CCompl (COne 62%N)); Chr 62%N].
  change (ignore_case tag_pattern) with false.
  destruct s as [|c s]; [done|].
  change (match_here false _ (c :: s) mstart)
    with (if chr_eq false 60 c
          then match_here false [Star (CCompl (COne 62%N)); Chr 62%N] s (advance mstart)
          else None).
  destruct (chr_eq false 60 c); [|done]. intros H.
  apply match_here_within in H. unfold within in H. simpl in H. lia.
Qed.

Lemma replace_all_units r by_ s : ∀ skip c,
  c ∈ replace_all r by_ s skip → c ∈ by_ ∨ c ∈ s.
Proof.
  induction s as [|c' s IH]; intros skip c.
  - destruct skip; cbn [replace_all]; [|by intros ?%elem_of_nil].
    destruct (attempt r []); [|by intros ?%elem_of_nil].
    rewrite app_nil_r. by left.
  - destruct skip; cbn [replace_all].
    + destruct (attempt r (c' :: s)) as [st|].
      * rewrite !elem_of_app. intros [?|[H|H]]; [by left| |].
        -- right. destruct (consumed st =? 0); [|by apply elem_of_nil in H].
           apply list_elem_of_singleton in H as ->. left.
        -- apply IH in H as [?|?]; [by left|right; by right].
      * rewrite elem_of_cons. intros [->|H]; [right; left|].
        apply IH in H as [?|?]; [by left|right; by right].
    + intros H. apply IH in H as [?|?]; [by left|right; by right].
Qed.

Lemma replace_tags_tag_free s : ∀ skip,
  tag_free (replace_all tag_pattern (lit " ") s skip).
Proof.
  induction s as [|c s IH]; intros skip.
  - by destruct skip.
  - destruct skip; cbn [replace_all]; [|apply IH].
    destruct (attempt tag_pattern (c :: s)) as [st|] eqn:E.
    + apply attempt_tag_consumes in E.
      destruct (consumed st) as [|n]; [done|]. cbn [Nat.eqb app pred].
      change (lit " " ++ ?x) with (32%N :: x). cbn [tag_free]. split; [done|]. apply IH.
    + cbn [tag_free]. split; [|apply IH]. intros Hc Hin.
      apply replace_all_units in Hin as [Hin|Hin].
      * apply list_elem_of_singleton in Hin. done.
      * by apply (attempt_tag_fails c s).
Qed.

Lemma collapse_units s : ∀ in_run c, c ∈ collapse in_run s → c = 32%N ∨ c ∈ s.
Proof.
  induction s as [|c' s IH]; intros in_run c; cbn [collapse]; [by intros ?%elem_of_nil|].
  destruct (is_space c').
  - destruct in_run.
    + intros H. apply IH in H as [?|?]; [by left|right; by right].
    + rewrite elem_of_cons. intros [->|H]; [by left|].
      apply IH in H as [?|?]; [by left|right; by right].
  - rewrite elem_of_cons. intros [->|H]; [right; left|].
    apply IH in H as [?|?]; [by left|right; by right].
Qed.

Lemma collapse_tag_free s : ∀ in_run, tag_free s → tag_free (collapse in_run s).
Proof.
  induction s as [|c s IH]; intros in_run; [done|]. cbn [collapse tag_free].
  intros [Hc Hs]. destruct (is_space c).
  - destruct in_run; [by apply IH|]. cbn [tag_free]. split; [done|by apply IH].
  - cbn [tag_free]. split; [|by apply IH]. intros E Hin.
    apply collapse_units in Hin as [?|?]; [done|by apply Hc].
Qed.

Lemma tag_free_lookup s : ∀ i j,
  tag_free s → i < j → s !! i = Some 60%N → s !! j ≠ Some 62%N.
Proof.
  induction s as [|c s IH]; intros i j Hs Hij Hi Hj; [done|].
  destruct Hs as [Hc Hs]. destruct j as [|j]; [lia|]. destruct i as [|i].
  - injection Hi as ->. apply (Hc eq_refl). by eapply list_elem_of_lookup_2.
  - apply (IH i j); [done|lia|done..].
Qed.

Lemma single_spaced_lookup s : ∀ i c,
  single_spaced s → s !! i = Some c → is_space c = true →
  c = 32%N ∧ ∀ c', s !! S i = Some c' → is_space c' = false.
Proof.
  induction s as [|c0 s IH]; intros i c Hs Hi Hc; [done|].
  destruct Hs as [Hc0 Hs]. destruct i as [|i].
  - injection Hi as ->. destruct (Hc0 Hc) as [-> Hnext]. split; [done|].
    intros c' Hc'. apply Hnext. by destruct s.
  - by apply (IH i).
Qed.

(** The text of a record of [extractCommentFromHTML] is normalised: at
    least 10 units, no white space at either end, every white space unit a
    single space between two other units, and not the navigation bar (a
    text with Games, Apps and Movies in it). *)
Theorem extracted_text_is_normalised today html r :
  extractCommentFromHTML today html = Some r →
  10 ≤ length (text r)
  ∧ (∀ c, head (text r) = Some c → is_space c = false)
  ∧ (∀ c, last (text r) = Some c → is_space c = false)
  ∧ (∀ i c, text r !! i = Some c → is_space c = true →
            c = 32%N ∧ ∀ c', text r !! S i = Some c' → is_space c' = false)
  ∧ ¬ (includes (text r) (lit "Games") = true ∧ includes (text r) (lit "Apps") = true
       ∧ includes (text r) (lit "Movies") = true).
Proof.
  intros H. pose proof (extractCommentFromHTML_valid _ _ _ H) as [Hlen _].
  unfold extractCommentFromHTML in H.
  set (tagless := replace_all tag_pattern (lit " ") html 0) in H.
  destruct (replace_spaces tagless) as [Hsp _]. rewrite Hsp in H.
  set (textContent := trim _) in H.
  destruct (_ || _); [done|].
  destruct (includes textContent (lit "Games") && includes textContent (lit "Apps")
            && includes textContent (lit "Movies")) eqn:Enav; [done|].
  injection H as <-. cbn [text] in *.
  destruct (trim_trimmed (collapse false tagless)) as [Hhead Hlast].
  split_and!; [done|done|done| |].
  - destruct (trim_infix (collapse false tagless)) as (pre & post & Hinfix).
    destruct (collapse_single_spaced tagless false) as [Hss _].
    rewrite Hinfix in Hss. apply single_spaced_app in Hss as [_ Hss].
    apply single_spaced_app in Hss as [Hss _].
    intros i c. by apply single_spaced_lookup.
  - intros (H1 & H2 & H3). fold textContent in H1, H2, H3. by rewrite H1, H2, H3 in Enav.
Qed.

Lemma extracted_text_is_normalised_witness :
  let r := {| text := lit "Great app , works well";
              rating := 4; date := lit "2024-01-15"; author := lit "Unknown";
              helpful := 0; source := lit "html" |} in
  10 ≤ length (text r)
  ∧ (∀ c, head (text r) = Some c → is_space c = false)
  ∧ (∀ c, last (text r) = Some c → is_space c = false)
  ∧ (∀ i c, text r !! i = Some c → is_space c = true →
            c = 32%N ∧ ∀ c', text r !! S i = Some c' → is_space c' = false)
  ∧ ¬ (includes (text r) (lit "Games") = true ∧ includes (text r) (lit "Apps") = true
       ∧ includes (text r) (lit "Movies") = true).
Proof.
  apply (extracted_text_is_normalised (lit "2024-01-15")
           (markup "<div class='review'> <b>Great   app</b>,  works well <i title='rating:4'></i>")).
  reflexivity.
Defined.

(** No tag is left in the text of a record of [extractCommentFromHTML]: no
    opening angle bracket has a closing one anywhere after it. *)
Theorem extracted_text_has_no_tag today html r :
  extractCommentFromHTML today html = Some r →
  ∀ i j, i < j → text r !! i = Some 60%N → text r !! j ≠ Some 62%N.
Proof.
  intros H. unfold extractCommentFromHTML in H.
  set (tagless := replace_all tag_pattern (lit " ") html 0) in H.
  destruct (replace_spaces tagless) as [Hsp _]. rewrite Hsp in H.
  destruct (_ || _); [done|]. destruct (_ && _ && _); [done|].
  injection H as <-. cbn [text].
  destruct (trim_infix (collapse false tagless)) as (pre & post & Hinfix).
  pose proof (collapse_tag_free tagless false (replace_tags_tag_free html 0)) as Htf.
  rewrite Hinfix in Htf. apply tag_free_app in Htf as [_ Htf].
  apply tag_free_app in Htf as [Htf _].
  intros i j. by apply tag_free_lookup.
Qed.

Lemma extracted_text_has_no_tag_witness :
  extractCommentFromHTML (lit "2024-01-15") (lit "<p>a > b is <b>not</b> a tag, nor is <")
  = Some {| text := lit "a > b is not a tag, nor is <";
            rating := 0; date := lit "2024-01-15"; author := lit "Unknown";
            helpful := 0; source := lit "html" |}
  ∧ ∀ i j, i < j →
      lit "a > b is not a tag, nor is <" !! i = Some 60%N →
      lit "a > b is not a tag, nor is <" !! j ≠ Some 62%N.
Proof.
  split; [reflexivity|].
  apply (extracted_text_has_no_tag (lit "2024-01-15")
           (lit "<p>a > b is <b>not</b> a tag, nor is <")
           {| text := lit "a > b is not a tag, nor is <";
              rating := 0; date := lit "2024-01-15"; author := lit "Unknown";
              helpful := 0; source := lit "html" |}).
  reflexivity.
Defined.

(** ** The records of a text *)

Lemma each_container_take today z ms : ∀ acc,
  (Z.of_nat (length acc) ≤ z)%Z →
  each_container today (Finite z) ms acc
  = acc ++ take (Z.to_nat z - length acc) (omap (extractCommentFromHTML today) ms).
Proof.
  induction ms as [|m ms IH]; intros acc Hacc; cbn [each_container omap list_omap].
  - by rewrite take_nil, app_nil_r.
  - destruct (length_ge (length acc) (Finite z)) eqn:E.
    + simpl in E. apply Z.leb_le in E. rewrite IH by done.
      replace (Z.to_nat z - length acc) with 0 by lia. by rewrite !take_0.
    + simpl in E. apply Z.leb_gt in E.
      destruct (extractCommentFromHTML today m) as [comment|] eqn:Em; [|by apply IH].
      apply extractCommentFromHTML_valid in Em as [Hlen _].
      rewrite bool_decide_eq_false_2 by (intros Ht; rewrite Ht in Hlen; simpl in Hlen; lia).
      rewrite IH by (rewrite length_app; simpl; lia).
      rewrite <- (assoc_L (++)). f_equal. rewrite length_app. simpl.
      replace (Z.to_nat z - length acc) with (S (Z.to_nat z - (length acc + 1))) by lia.
      done.
Qed.

Lemma each_text_take today z ms : ∀ index acc,
  (Z.of_nat (length acc) ≤ z)%Z →
  each_text today (Finite z) index ms acc
  = acc ++ take (Z.to_nat z - length acc)
             (text_record today <$> (if index is 0 then tail ms else ms)).
Proof.
  induction ms as [|m ms IH]; intros index acc Hacc; cbn [each_text].
  - destruct index; simpl; by rewrite take_nil, app_nil_r.
  - destruct (length_ge (length acc) (Finite z)) eqn:E.
    + simpl in E. apply Z.leb_le in E. rewrite IH by done.
      replace (Z.to_nat z - length acc) with 0 by lia. by rewrite !take_0.
    + simpl in E. apply Z.leb_gt in E. destruct index as [|index]; cbn [Nat.ltb Nat.leb tail].
      * by rewrite IH.
      * rewrite IH by (rewrite length_app; simpl; lia).
        rewrite <- (assoc_L (++)). f_equal. rewrite length_app. simpl.
        replace (Z.to_nat z - length acc) with (S (Z.to_nat z - (length acc + 1))) by lia.
        done.
Qed.

Lemma each_pattern_take decode_json today s z patterns : ∀ acc,
  take (Z.to_nat z) (each_pattern decode_json today patterns s (Finite z) acc)
  = take (Z.to_nat z)
      (acc ++ mjoin (pattern_records decode_json today s (Finite z) <$> patterns)).
Proof.
  induction patterns as [|p ps IH]; intros acc; cbn [each_pattern fmap list_fmap mjoin list_join].
  - by rewrite app_nil_r.
  - unfold pattern_records at 1. destruct (match_all p s) as [ms|]; [|apply IH].
    destruct (length_ge _ _) eqn:E.
    + simpl in E. apply Z.leb_le in E. rewrite (assoc_L (++)).
      rewrite (take_app_le (_ ++ _)); [done|]. lia.
    + rewrite IH. by rewrite (assoc_L (++)).
Qed.

Lemma pattern_records_container today decode_json s z pattern :
  (0 ≤ z)%Z →
  includes (pattern_source pattern) (lit "reviews") = false →
  includes (pattern_source pattern) (lit "reviewText") = false →
  pattern_records decode_json today s (Finite z) pattern
  = take (Z.to_nat z) (container_records today pattern s).
Proof.
  intros Hz H1 H2. unfold pattern_records, container_records, match_all, processReviewMatches.
  rewrite H1, H2.
  destruct (scan pattern s 0) as [|m ms] eqn:E; [symmetry; apply take_nil|].
  rewrite each_container_take by (simpl; lia). simpl. by rewrite Nat.sub_0_r.
Qed.

(** For a limit that is not negative, [extractReviewsFromHTML] returns the
    first [limit] of: the records of the containers with a review class, in
    the order of the text, then those of the containers with a review
    test id, then the bare-text occurrences less the first.  The break of
    its loop only saves work, and a container with both attributes gives
    two records. *)
Theorem extraction_is_the_first_records decode_json today s z :
  (0 ≤ z)%Z →
  extractReviewsFromHTML decode_json today (Text s) (Finite z)
  = take (Z.to_nat z)
      (container_records today container_pattern s
       ++ container_records today testid_pattern s
       ++ text_records today s).
Proof.
  intros Hz. unfold extractReviewsFromHTML, slice0.
  replace (z <? 0)%Z with false by (symmetry; apply Z.ltb_ge; lia).
  rewrite each_pattern_take. unfold reviewPatterns.
  cbn [fmap list_fmap mjoin list_join app].
  rewrite (pattern_records_container _ _ _ _ container_pattern) by (done || by vm_compute).
  rewrite (pattern_records_container _ _ _ _ testid_pattern) by (done || by vm_compute).
  assert (pattern_records decode_json today s (Finite z) embedded_pattern = []) as ->.
  { unfold pattern_records, match_all.
    destruct (scan embedded_pattern s 0) eqn:E; [done|]. rewrite <- E.
    apply embedded_branch_dead. }
  assert (pattern_records decode_json today s (Finite z) text_pattern
          = take (Z.to_nat z) (text_records today s)) as ->.
  { unfold pattern_records, text_records, match_all, processReviewMatches.
    replace (includes _ (lit "reviews")) with false by (by vm_compute).
    replace (includes _ (lit "reviewText")) with true by (by vm_compute).
    destruct (scan text_pattern s 0) as [|m ms] eqn:E; [symmetry; apply take_nil|].
    rewrite each_text_take by (simpl; lia). simpl. by rewrite Nat.sub_0_r. }
  rewrite app_nil_r. cbn [app].
  set (n := Z.to_nat z). set (a := container_records _ container_pattern s).
  set (b := container_records _ testid_pattern s). set (c := text_records today s).
  clear. 
  assert (∀ (x y : list review), take n (take n x ++ y) = take n (x ++ y)) as Hl.
  { intros x y. destruct (decide (n ≤ length x)).
    - rewrite !take_app_le by (rewrite ?length_take; lia). by rewrite take_take, Nat.min_id.
    - by rewrite (take_ge x) by lia. }
  assert (∀ (x y : list review), take n (x ++ take n y) = take n (x ++ y)) as Hr.
  { intros x y. destruct (decide (n ≤ length x)).
    - by rewrite !take_app_le by lia.
    - rewrite !take_app_ge by lia. f_equal. rewrite take_take. f_equal. lia. }
  assert (∀ (x y y' : list review), take n y = take n y' →
            take n (x ++ y) = take n (x ++ y')) as Hcong.
  { intros x y y' E. by rewrite <- (Hr x y), <- (Hr x y'), E. }
  rewrite Hl. apply Hcong. rewrite Hl. apply Hr.
Qed.

Lemma extraction_is_the_first_records_witness :
  (0 ≤ 1)%Z
  ∧ extractReviewsFromHTML reject_json (lit "2024-01-15")
      (Text (markup "<div class='review' data-testid='review'>Works very well</div>"))
      (Finite 1)
    = take (Z.to_nat 1)
        (container_records (lit "2024-01-15") container_pattern
           (markup "<div class='review' data-testid='review'>Works very well</div>")
         ++ container_records (lit "2024-01-15") testid_pattern
              (markup "<div class='review' data-testid='review'>Works very well</div>")
         ++ text_records (lit "2024-01-15")
              (markup "<div class='review' data-testid='review'>Works very well</div>")).
Proof.
  split; [lia|]. apply extraction_is_the_first_records. lia.
Defined.

(** ** The totals of the statistics *)

Lemma sum_of_valid_ratings comments :
  Forall valid_review comments →
  (0 ≤ foldr Z.add 0 (rating <$> comments) ≤ 5 * Z.of_nat (length comments))%Z.
Proof.
  induction 1 as [|c cs [_ Hc] _ IH]; [simpl; lia|].
  cbn [fmap list_fmap foldr length]. rewrite Nat2Z.inj_succ. lia.
Qed.

(** In the statistics of an identifier that [validateAppId] lets through,
    [totalRating] lies between 0 and five times [totalComments], whatever
    the network answers. *)
Theorem stats_total_within_bounds decode_json today net req log :
  validateAppId req = None →
  ∃ s n log',
    run net (get_stats decode_json today req) log
    = (Fulfilled {| status := 200; json := StatsBody (params_appId req) s n |}, log')
    ∧ stats_totalComments s = n
    ∧ (0 ≤ totalRating s ≤ 5 * Z.of_nat n)%Z.
Proof.
  intros Hvalid. rewrite run_get_stats by done. cbv zeta.
  eexists _, _, _. split; [done|]. split; [done|].
  unfold computeStats. cbn [totalRating]. rewrite tally_sum. simpl.
  apply sum_of_valid_ratings, fetched_valid.
Qed.

Lemma stats_total_within_bounds_witness :
  ∃ s n log',
    run unreachable
      (get_stats reject_json (lit "2024-01-15")
         {| params_appId := lit "com.whatsapp"; query_limit := None; query_sort := None |})
      []
    = (Fulfilled {| status := 200; json := StatsBody (lit "com.whatsapp") s n |}, log')
    ∧ stats_totalComments s = n
    ∧ (0 ≤ totalRating s ≤ 5 * Z.of_nat n)%Z.
Proof.
  apply (stats_total_within_bounds reject_json (lit "2024-01-15") unreachable
           {| params_appId := lit "com.whatsapp"; query_limit := None; query_sort := None |}
           []).
  reflexivity.
Defined.

(** ** What a match holds

    A match of a pattern is a text the pattern describes, and so is the
    text of its group. *)

Section StarSplit.
Context (mem : N → bool) (k : jsstring → mstate → option mstate).

Lemma star_greedy_split s : ∀ st st',
  star_greedy mem k s st = Some st' →
  ∃ j, j ≤ length s ∧ Forall (λ ch, mem ch = true) (take j s)
       ∧ k (drop j s) (Nat.iter j advance st) = Some st'.
Proof.
  induction s as [|ch s IH]; intros st st' H; simpl in H.
  - exists 0. by split_and!; [|constructor|].
  - destruct (mem ch) eqn:E; [|exists 0; by split_and!; [simpl; lia|constructor|]].
    destruct (star_greedy mem k s (advance st)) as [r|] eqn:Es.
    + injection H as ->. apply IH in Es as (j & Hj & Hrun & Hk).
      exists (S j). split_and!; [simpl; lia|by constructor|].
      by rewrite Nat.iter_succ_r.
    + exists 0. by split_and!; [simpl; lia|constructor|].
Qed.

Lemma star_lazy_split s : ∀ st st',
  star_lazy mem k s st = Some st' →
  ∃ j, j ≤ length s ∧ Forall (λ ch, mem ch = true) (take j s)
       ∧ k (drop j s) (Nat.iter j advance st) = Some st'.
Proof.
  induction s as [|ch s IH]; intros st st' H; simpl in H.
  - destruct (k [] st) eqn:E; [|done]. injection H as ->.
    exists 0. by split_and!; [|constructor|].
  - destruct (k (ch :: s) st) eqn:E.
    { injection H as ->. exists 0. by split_and!; [simpl; lia|constructor|]. }
    destruct (mem ch) eqn:Em; [|done].
    apply IH in H as (j & Hj & Hrun & Hk).
    exists (S j). split_and!; [simpl; lia|by constructor|].
    by rewrite Nat.iter_succ_r.
Qed.
End StarSplit.

Lemma plain_cons n p : plain (n :: p) → n ≠ Core GroupOpen ∧ n ≠ Core GroupClose ∧ plain p.
Proof.
  unfold plain. rewrite !not_elem_of_cons. intros [[? ?] [? ?]]. by split_and!.
Qed.

Lemma iter_advance_add n j st :
  Nat.iter n advance (Nat.iter j advance st) = Nat.iter (j + n) advance st.
Proof. rewrite Nat.add_comm. by rewrite Nat.iter_add. Qed.

Lemma xmatch_here_split ic p q : ∀ s st st',
  plain p →
  xmatch_here ic (p ++ q) s st = Some st' →
  ∃ n, n ≤ length s ∧ xmatches ic p (take n s)
       ∧ xmatch_here ic q (drop n s) (Nat.iter n advance st) = Some st'.
Proof.
  induction p as [|n p IH]; intros s st st' Hp H.
  - exists 0. split_and!; [lia|constructor|done].
  - apply plain_cons in Hp as (Ho & Hc & Hp). cbn [app xmatch_here] in H.
    destruct n as [[c|cs|cs|cs|cs| |]|cs]; try done.
    + destruct s as [|ch s]; [done|]. destruct (chr_eq ic c ch) eqn:E; [|done].
      apply IH in H as (n & Hn & Hm & Hk); [|done].
      exists (S n). split_and!; [simpl; lia|by constructor|].
      by rewrite Nat.iter_succ_r.
    + destruct s as [|ch s]; [done|]. destruct (cset_mem ic cs ch) eqn:E; [|done].
      apply IH in H as (n & Hn & Hm & Hk); [|done].
      exists (S n). split_and!; [simpl; lia|by constructor|].
      by rewrite Nat.iter_succ_r.
    + apply star_greedy_split in H as (j & Hj & Hrun & H).
      apply IH in H as (n & Hn & Hm & Hk); [|done].
      rewrite length_drop in Hn. rewrite drop_drop, iter_advance_add in Hk.
      exists (j + n). split_and!; [lia| |done].
      rewrite <- (take_drop j s) at 1. rewrite take_app_add'; [|rewrite length_take; lia].
      by constructor.
    + apply star_lazy_split in H as (j & Hj & Hrun & H).
      apply IH in H as (n & Hn & Hm & Hk); [|done].
      rewrite length_drop in Hn. rewrite drop_drop, iter_advance_add in Hk.
      exists (j + n). split_and!; [lia| |done].
      rewrite <- (take_drop j s) at 1. rewrite take_app_add'; [|rewrite length_take; lia].
      by constructor.
    + destruct s as [|ch s]; [done|]. destruct (cset_mem ic cs ch) eqn:E; [|done].
      apply star_greedy_split in H as (j & Hj & Hrun & H).
      apply IH in H as (n & Hn & Hm & Hk); [|done].
      rewrite length_drop in Hn. rewrite drop_drop, iter_advance_add in Hk.
      exists (S (j + n)). split_and!; [simpl; lia| |].
      * cbn [take]. rewrite <- (take_drop j s) at 1.
        rewrite take_app_add'; [|rewrite length_take; lia]. by constructor.
      * cbn [drop]. by rewrite Nat.iter_succ_r.
    + destruct s as [|ch s].
      { apply IH in H as (n & Hn & Hm & Hk); [|done].
        exists n. split_and!; [done|by constructor|done]. }
      destruct (cset_mem ic cs ch) eqn:E.
      * destruct (xmatch_here ic (p ++ q) s (advance st)) as [r|] eqn:Er.
        -- injection H as ->. apply IH in Er as (n & Hn & Hm & Hk); [|done].
           exists (S n). split_and!; [simpl; lia|by apply xmatches_opt_one|].
           by rewrite Nat.iter_succ_r.
        -- apply IH in H as (n & Hn & Hm & Hk); [|done].
           exists n. split_and!; [done|by constructor|done].
      * apply IH in H as (n & Hn & Hm & Hk); [|done].
        exists n. split_and!; [done|by constructor|done].
Qed.

Lemma iter_advance_fields n st :
  consumed (Nat.iter n advance st) = consumed st + n
  ∧ group_start (Nat.iter n advance st) = group_start st
  ∧ group_end (Nat.iter n advance st) = group_end st.
Proof.
  induction n as [|n (IH1 & IH2 & IH3)]; simpl; [by rewrite Nat.add_0_r|].
  rewrite IH1, IH2, IH3. split_and!; [lia|done..].
Qed.

Lemma xmatch_here_plain_groups ic p s st st' :
  plain p → xmatch_here ic p s st = Some st' →
  group_start st' = group_start st ∧ group_end st' = group_end st.
Proof.
  intros Hp H. rewrite <- (app_nil_r p) in H.
  apply xmatch_here_split in H as (n & _ & _ & H); [|done].
  injection H as <-. by destruct (iter_advance_fields n st) as (_ & ? & ?).
Qed.

(** A match of a pattern [pre (body) post] with no other group: the group
    has a text, and the body matches it. *)
Lemma xmatch_here_group ic pre body post s st' :
  plain pre → plain body → plain post →
  xmatch_here ic (one_group pre body post) s mstart = Some st' →
  ∃ t, group_text s st' = Some t ∧ xmatches ic body t.
Proof.
  intros Hpre Hbody Hpost H. unfold one_group in H.
  apply xmatch_here_split in H as (n1 & Hn1 & _ & H); [|done].
  cbn [xmatch_here] in H.
  apply xmatch_here_split in H as (n2 & Hn2 & Hm & H); [|done].
  cbn [xmatch_here] in H.
  apply xmatch_here_plain_groups in H as [Hs He]; [|done].
  destruct (iter_advance_fields n1 mstart) as (C1 & _ & _).
  destruct (iter_advance_fields n2 (open_group (Nat.iter n1 advance mstart)))
    as (C2 & S2 & _).
  cbn [close_group open_group group_start group_end consumed] in *.
  rewrite S2 in Hs. rewrite C2, C1 in He. rewrite C1 in Hs. simpl in Hs, He.
  exists (take n2 (drop n1 s)). split; [|done].
  unfold group_text. rewrite Hs, He. do 2 f_equal. lia.
Qed.

Lemma xmatch_first_group r pre body post s m g :
  xprog r = one_group pre body post →
  plain pre → plain body → plain post →
  xmatch_first r s = Some (m, g) →
  ∃ t, g = Some t ∧ xmatches (xignore_case r) body t.
Proof.
  intros Hr Hpre Hbody Hpost. induction s as [|ch s IH]; simpl.
  - unfold xattempt. rewrite Hr. destruct (xmatch_here _ _ [] mstart) as [st|] eqn:E; [|done].
    intros [= <- <-]. by apply (xmatch_here_group _ pre body post).
  - unfold xattempt. rewrite Hr.
    destruct (xmatch_here _ _ (ch :: s) mstart) as [st|] eqn:E.
    + intros [= <- <-]. by apply (xmatch_here_group _ pre body post).
    + intros H. apply IH. by unfold xattempt in *.
Qed.

(** The optional quantifier extends the matcher without changing it. *)
Section StarExt.
Context (mem : N → bool) (k k' : jsstring → mstate → option mstate).
Hypothesis k_ext : ∀ s st, k s st = k' s st.

Lemma star_greedy_ext s : ∀ st, star_greedy mem k s st = star_greedy mem k' s st.
Proof.
  induction s as [|ch s IH]; intros st; simpl; [done|].
  by rewrite IH, k_ext.
Qed.

Lemma star_lazy_ext s : ∀ st, star_lazy mem k s st = star_lazy mem k' s st.
Proof.
  induction s as [|ch s IH]; intros st; simpl; [by rewrite k_ext|].
  by rewrite IH, k_ext.
Qed.
End StarExt.

Lemma xmatch_here_core ic p : ∀ s st,
  xmatch_here ic (Core <$> p) s st = match_here ic p s st.
Proof.
  induction p as [|n p IH]; intros s st; [done|].
  cbn [fmap list_fmap xmatch_here match_here].
  destruct n; try (destruct s as [|ch s]; [done|]); try by rewrite ?IH.
  - by apply star_greedy_ext.
  - by apply star_lazy_ext.
  - destruct (cset_mem ic s0 ch); [|done]. by apply star_greedy_ext.
Qed.

Lemma match_first_core r s :
  match_first r s
  = xmatch_first {| xignore_case := ignore_case r; xprog := Core <$> prog r |} s.
Proof.
  induction s as [|ch s IH]; simpl; unfold attempt, xattempt; simpl;
    rewrite xmatch_here_core; [done|]. by rewrite IH.
Qed.

Lemma match_first_one_group r pre body post s m g :
  Core <$> prog r = one_group pre body post →
  plain pre → plain body → plain post →
  match_first r s = Some (m, g) →
  ∃ t, g = Some t ∧ xmatches (ignore_case r) body t.
Proof.
  intros Hr Hpre Hbody Hpost. rewrite match_first_core. intros H.
  by apply (xmatch_first_group _ pre body post s m g) in H.
Qed.

Ltac plain_parts := split; apply (bool_decide_unpack _); by vm_compute.

Lemma chr_eq_refl ic c : chr_eq ic c c = true.
Proof. unfold chr_eq. destruct ic; apply N.eqb_refl. Qed.

Lemma chr_eq_point ic ch : chr_eq ic 46 ch = true → ch = 46%N.
Proof.
  unfold chr_eq, ascii_upper. destruct ic; [|by intros ?%N.eqb_eq].
  change ((97 <=? 46)%N && (46 <=? 122)%N) with false. cbv iota.
  destruct ((97 <=? ch)%N && (ch <=? 122)%N) eqn:E; intros H%N.eqb_eq; [|done].
  apply andb_true_iff in E as [E1%N.leb_le E2%N.leb_le]. lia.
Qed.

Lemma xmatches_nil_inv ic t : xmatches ic [] t → t = [].
Proof. by inversion 1. Qed.

Lemma xmatches_plus_only ic cs t :
  xmatches ic [Core (Plus cs)] t →
  ∃ c run, t = c :: run ∧ Forall (λ ch, cset_mem ic cs ch = true) (c :: run).
Proof.
  inversion 1 as [| | | | |cs' ch run p t' Hc Hrun Hrest| | | |]; subst.
  apply xmatches_nil_inv in Hrest as ->. rewrite app_nil_r.
  exists ch, run. split; [done|by constructor].
Qed.

Lemma xmatches_decimal ic t :
  xmatches ic [Core (Plus CDigit); Opt (COne 46%N); Core (Star CDigit)] t →
  ∃ c ds1 dot ds2,
    t = (c :: ds1) ++ dot ++ ds2
    ∧ Forall (λ c, is_digit c = true) (c :: ds1)
    ∧ (dot = [] ∨ dot = [46%N])
    ∧ Forall (λ c, is_digit c = true) ds2.
Proof.
  inversion 1 as [| | | | |cs' ch run p t' Hc Hrun Hrest| | | |]; subst.
  assert (∀ t, xmatches ic [Core (Star CDigit)] t → Forall (λ c, is_digit c = true) t)
    as Hstar.
  { intros t0. inversion 1 as [| | |cs0 run0 p0 t0' Hr0 Hn0| | | | | |]; subst.
    apply xmatches_nil_inv in Hn0 as ->. by rewrite app_nil_r. }
  inversion Hrest as [| | | | | | | |cs0 p0 t0 Hm|cs0 ch0 p0 t0 Hc0 Hm]; subst.
  - exists ch, run, [], t'. split_and!; [done|by constructor|by left|by apply Hstar].
  - apply chr_eq_point in Hc0 as ->.
    exists ch, run, [46%N], t0. split_and!; [done|by constructor|by right|by apply Hstar].
Qed.

Lemma compl_one_excludes ic c t :
  Forall (λ ch, cset_mem ic (CCompl (COne c)) ch = true) t → c ∉ t.
Proof.
  intros H Hin. eapply Forall_forall in H; [|done].
  simpl in H. by rewrite chr_eq_refl in H.
Qed.

(** The author of a record of [extractCommentFromHTML] is never empty and
    holds no double quote: it is the text between the quotes after an
    author key, or Unknown.  The date is the current one, the helpful
    count 0 and the source html. *)
Theorem extracted_author_is_not_empty today html r :
  extractCommentFromHTML today html = Some r →
  author r ≠ [] ∧ (34%N ∉ author r)
  ∧ date r = today ∧ helpful r = 0%Z ∧ source r = lit "html".
Proof.
  unfold extractCommentFromHTML.
  destruct (_ || _); [done|]. destruct (_ && _ && _); [done|].
  intros [= <-]. cbn [author date helpful source].
  split_and!; try done.
  - destruct (match_first author_pattern html) as [[m g]|] eqn:E; [|done].
    eapply (match_first_one_group _
              (Core <$> [Chr 97%N; Chr 117%N; Chr 116%N; Chr 104%N; Chr 111%N; Chr 114%N;
                         Star (CUnion (COne 34%N) CSpace); Chr 58%N;
                         Star (CUnion (COne 34%N) CSpace); Chr 34%N])
              [Core (Plus (CCompl (COne 34%N)))]
              [Core (Chr 34%N)])
      in E as (t & -> & Ht); [|reflexivity|plain_parts..].
    by apply xmatches_plus_only in Ht as (c & run & -> & Hall).
  - destruct (match_first author_pattern html) as [[m g]|] eqn:E;
      [|apply (bool_decide_unpack _); by vm_compute].
    eapply (match_first_one_group _
              (Core <$> [Chr 97%N; Chr 117%N; Chr 116%N; Chr 104%N; Chr 111%N; Chr 114%N;
                         Star (CUnion (COne 34%N) CSpace); Chr 58%N;
                         Star (CUnion (COne 34%N) CSpace); Chr 34%N])
              [Core (Plus (CCompl (COne 34%N)))]
              [Core (Chr 34%N)])
      in E as (t & -> & Ht); [|reflexivity|plain_parts..].
    apply xmatches_plus_only in Ht as (c & run & -> & Hall).
    by eapply compl_one_excludes.
Qed.

Lemma extracted_author_is_not_empty_witness :
  extractCommentFromHTML (lit "2024-01-15")
    (markup "<p>Great app, works well</p> {'author': 'Ann', 'rating': 5}")
  = Some {| text := markup "Great app, works well {'author': 'Ann', 'rating': 5}";
            rating := 5; date := lit "2024-01-15"; author := lit "Ann";
            helpful := 0; source := lit "html" |}
  ∧ lit "Ann" ≠ [] ∧ (34%N ∉ lit "Ann")
  ∧ lit "2024-01-15" = lit "2024-01-15" ∧ 0%Z = 0%Z ∧ lit "html" = lit "html".
Proof.
  split; [reflexivity|].
  apply (extracted_author_is_not_empty (lit "2024-01-15")
           (markup "<p>Great app, works well</p> {'author': 'Ann', 'rating': 5}")
           {| text := markup "Great app, works well {'author': 'Ann', 'rating': 5}";
              rating := 5; date := lit "2024-01-15"; author := lit "Ann";
              helpful := 0; source := lit "html" |}).
  reflexivity.
Defined.

(** ** The sign of a Number *)

Lemma shr_1_nonneg mrs : (0 ≤ shr_m mrs)%Z → (0 ≤ shr_m (shr_1 mrs))%Z.
Proof. destruct mrs as [[|[p|p|]|p] r s]; simpl; lia. Qed.

Lemma iter_pos_nonneg p : ∀ mrs,
  (0 ≤ shr_m mrs)%Z → (0 ≤ shr_m (SpecFloat.iter_pos shr_1 p mrs))%Z.
Proof.
  induction p as [p IH|p IH|]; intros mrs H; simpl.
  - apply IH, IH. by apply shr_1_nonneg.
  - by apply IH, IH.
  - by apply shr_1_nonneg.
Qed.

Lemma shr_fexp_nonneg prec emax m e l :
  (0 ≤ m)%Z → (0 ≤ shr_m (shr_fexp prec emax m e l).1)%Z.
Proof.
  intros Hm. unfold shr_fexp, shr.
  assert (0 ≤ shr_m (shr_record_of_loc m l))%Z as H0 by (by destruct l as [|[]]).
  destruct (fexp prec emax (Zdigits2 m + e) - e)%Z; simpl; try done.
  by apply iter_pos_nonneg.
Qed.

Lemma round_nearest_even_nonneg m l : (0 ≤ m)%Z → (0 ≤ round_nearest_even m l)%Z.
Proof.
  intros Hm. destruct l as [|[]]; simpl; try lia. destruct (IntDef.Z.even m); lia.
Qed.

Lemma binary_round_aux_sign prec emax sx mx ex lx :
  (0 ≤ mx)%Z → sign_of (binary_round_aux prec emax sx mx ex lx) = Some sx.
Proof.
  intros Hm. unfold binary_round_aux.
  pose proof (shr_fexp_nonneg prec emax mx ex lx Hm) as H1.
  destruct (shr_fexp prec emax mx ex lx) as [mrs' e']. simpl in H1.
  pose proof (shr_fexp_nonneg prec emax _ e' loc_Exact
                (round_nearest_even_nonneg _ (loc_of_shr_record mrs') H1)) as H2.
  destruct (shr_fexp prec emax _ e' loc_Exact) as [mrs'' e'']. simpl in H2.
  destruct (shr_m mrs''); [done| |lia]. by destruct (e'' <=? emax - prec)%Z.
Qed.

Lemma SFdiv_sign prec emax sx mx ex my ey :
  sign_of (SFdiv prec emax (S754_finite sx mx ex) (S754_finite false my ey)) = Some sx.
Proof.
  unfold SFdiv.
  destruct (SFdiv_core_binary prec emax (Z.pos mx) ex (Z.pos my) ey) as [[mz ez] lz] eqn:E.
  rewrite xorb_false_r. apply binary_round_aux_sign.
  unfold SFdiv_core_binary in E.
  set (s := (ex - ey - _)%Z) in E.
  set (m' := match s with 0%Z => Z.pos mx | Z.pos _ => _ | Z.neg _ => 0%Z end) in E.
  assert (0 ≤ m')%Z as Hm'.
  { unfold m'. destruct s; [lia| |lia]. apply Z.shiftl_nonneg. lia. }
  change IntDef.Z.div_eucl with Z.div_eucl in E.
  pose proof (Z.div_eucl_eq m' (Z.pos my) ltac:(lia)) as Heq.
  pose proof (Z.mod_pos_bound m' (Z.pos my) ltac:(lia)) as Hmod.
  unfold Z.modulo in Hmod.
  destruct (Z.div_eucl m' (Z.pos my)) as [q r]. injection E as <- _ _.
  nia.
Qed.

Lemma decimal_double_sign negative n e :
  sign_of (decimal_double negative n e) = Some negative.
Proof.
  unfold decimal_double. destruct n as [|p]; [done|].
  destruct (0 <=? e)%Z eqn:E.
  - apply Z.leb_le in E. unfold binary_normalize.
    assert (0 < 10 ^ e)%Z by (apply Z.pow_pos_nonneg; lia).
    destruct negative.
    + destruct (Z.neg p * 10 ^ e)%Z as [|m|m] eqn:Em; [lia|lia|].
      unfold binary_round. destruct (shl_align _ _ _) as [mz ez].
      by apply binary_round_aux_sign.
    + destruct (Z.pos p * 10 ^ e)%Z as [|m|m] eqn:Em; [lia| |lia].
      unfold binary_round. destruct (shl_align _ _ _) as [mz ez].
      by apply binary_round_aux_sign.
  - apply SFdiv_sign.
Qed.

(** ** Texts of digits *)

Lemma digit_bounds c : is_digit c = true ↔ (48 ≤ c ≤ 57)%N.
Proof. unfold is_digit. rewrite andb_true_iff, !N.leb_le. done. Qed.

Lemma digit_not_space c : is_digit c = true → is_space c = false.
Proof.
  intros H%digit_bounds. unfold is_space.
  repeat (apply orb_false_iff; split); try (apply andb_false_iff; left);
    try (apply N.eqb_neq; lia); try (apply N.leb_gt; lia).
Qed.

Lemma digit_value_digit c : is_digit c = true → digit_value 10 c = Some (c - 48)%N.
Proof.
  intros H. unfold digit_value. rewrite H. apply digit_bounds in H.
  by replace (c - 48 <? 10)%N with true by (symmetry; apply N.ltb_lt; lia).
Qed.

Lemma digits_value_of_digits t :
  Forall (λ c, is_digit c = true) t → ∀ acc, ∃ v, digits_value 10 (Some acc) t = Some v.
Proof.
  induction 1 as [|c t Hc _ IH]; intros acc; simpl; [by eexists|].
  rewrite digit_value_digit by done. apply IH.
Qed.

Lemma no_sign (c : N) (t : jsstring) :
  c ≠ 45%N → c ≠ 43%N →
  match c :: t with
  | 45%N :: u => (true, u)
  | 43%N :: u => (false, u)
  | _ => (false, c :: t)
  end = (false, c :: t).
Proof.
  intros H1 H2. destruct c as [|p]; [done|].
  repeat (destruct p as [p|p|]; try done).
Qed.

Lemma no_hex (t : jsstring) :
  Forall (λ c, is_digit c = true) t →
  match t with
  | 48%N :: 120%N :: _ | 48%N :: 88%N :: _ => False
  | _ => True
  end.
Proof.
  intros H. destruct t as [|c [|c2 t]]; [done| |].
  - destruct c as [|p]; [done|]. repeat (destruct p as [p|p|]; try done).
  - apply Forall_cons in H as [_ H]. apply Forall_cons in H as [H2%digit_bounds _].
    destruct (decide (c2 = 120%N)) as [->|N1]; [lia|].
    destruct (decide (c2 = 88%N)) as [->|N2]; [lia|].
    destruct c as [|p]; [done|]. repeat (destruct p as [p|p|]; try done).
    destruct c2 as [|p]; [done|]. repeat (destruct p as [p|p|]; try done).
Qed.

Lemma Number_of_not_negative v : not_negative (Number_of false v).
Proof. unfold Number_of. destruct (nearest_double v); simpl; [lia|done]. Qed.

Lemma parseInt_of_digits c t :
  Forall (λ c, is_digit c = true) (c :: t) →
  not_negative (parseInt (c :: t)).
Proof.
  intros H. pose proof (no_hex _ H) as Hhex. apply decimal_radix in Hhex.
  apply Forall_cons in H as H'. destruct H' as [Hc Ht].
  unfold parseInt, mathInt. rewrite drop_spaces_head by (by apply digit_not_space).
  apply digit_bounds in Hc as Hb.
  rewrite no_sign by lia. rewrite Hhex.
  cbn [digits_value]. rewrite digit_value_digit by done.
  destruct (digits_value_of_digits t Ht (default 0 None * 10 + (c - 48))%N) as [v ->].
  apply Number_of_not_negative.
Qed.

Lemma span_digits_app ds rest :
  Forall (λ c, is_digit c = true) ds →
  span_digits (ds ++ rest) = ((ds ++ (span_digits rest).1), (span_digits rest).2).
Proof.
  induction 1 as [|c ds Hc _ IH]; simpl; [by destruct (span_digits rest)|].
  by rewrite Hc, IH.
Qed.

Lemma span_digits_all ds :
  Forall (λ c, is_digit c = true) ds → span_digits ds = (ds, []).
Proof.
  intros H. rewrite <- (app_nil_r ds) at 1. rewrite span_digits_app by done.
  simpl. by rewrite app_nil_r.
Qed.

Lemma parseFloat_of_decimal c ds1 dot ds2 :
  Forall (λ c, is_digit c = true) (c :: ds1) →
  dot = [] ∨ dot = [46%N] →
  Forall (λ c, is_digit c = true) ds2 →
  ∃ n e, parseFloat ((c :: ds1) ++ dot ++ ds2) = decimal_double false n e.
Proof.
  intros H1 Hdot H2. apply Forall_cons in H1 as H'. destruct H' as [Hc _].
  apply digit_bounds in Hc as Hb.
  unfold parseFloat. cbn [app].
  rewrite drop_spaces_head by (by apply digit_not_space).
  rewrite no_sign by lia.
  replace (is_prefix (lit "Infinity") (c :: ds1 ++ dot ++ ds2)) with false.
  2:{ symmetry. change (lit "Infinity") with (73%N :: lit "nfinity").
      cbn [is_prefix]. apply andb_false_iff. left. apply N.eqb_neq. lia. }
  change (c :: ds1 ++ dot ++ ds2) with ((c :: ds1) ++ dot ++ ds2).
  rewrite span_digits_app by done.
  destruct Hdot as [->| ->]; cbn [app].
  - rewrite span_digits_all by done. cbn [fst snd].
    rewrite bool_decide_eq_false_2 by (by intros [? _]). by eexists _, _.
  - cbn [span_digits]. replace (is_digit 46) with false by done. cbn [fst snd].
    rewrite app_nil_r, span_digits_all by done.
    rewrite bool_decide_eq_false_2 by (by intros [? _]). by eexists _, _.
Qed.

(** ** App information *)

(** The four patterns of [extractAppInfo] are read to the end. *)
Lemma info_patterns_are_read :
  Forall (λ r, ∃ p, read_all (pattern_source r) (Plain None) [] = Some p
                    ∧ prog r = p ∧ p ≠ [])
    [info_name_pattern; info_developer_pattern; info_totalRatings_pattern]
  ∧ ∃ p, xread_all (markup "rating['\s]*:['\s]*(\d+\.?\d*)") (Plain None) [] = Some p
         ∧ xprog info_rating_pattern = p ∧ p ≠ [].
Proof. split; [repeat constructor; by eexists|by eexists]. Qed.

Lemma trim_keeps_out c s : c ∉ s → c ∉ trim s.
Proof.
  intros Hs Hin. apply Hs. destruct (trim_infix s) as (pre & post & E).
  rewrite E. apply elem_of_app. right. apply elem_of_app. by left.
Qed.

(** What [extractAppInfo] makes of a page, whatever the page: the name is
    a trimmed text without an opening angle bracket, the developer is not
    empty and holds no double quote, the rating is a Number that is neither
    NaN nor negative, and so is [totalRatings] (an integer that is not
    negative or, for a run of digits past the largest Number, the positive
    infinity), and the category, the downloads, the size and the version
    are never read from the page. *)
Theorem extractAppInfo_fields html :
  let info := extractAppInfo (Text html) in
  (∃ n, AppInfo.name info = OwnText n ∧ trimmed n ∧ (60%N ∉ n))
  ∧ (AppInfo.developer info ≠ [] ∧ (34%N ∉ AppInfo.developer info))
  ∧ sign_of (AppInfo.rating info) = Some false
  ∧ not_negative (AppInfo.totalRatings info)
  ∧ AppInfo.category info = lit "Unknown"
  ∧ AppInfo.downloads info = lit "Unknown"
  ∧ AppInfo.size info = lit "Unknown"
  ∧ AppInfo.version info = lit "Unknown".
Proof.
  assert (match_first info_name_pattern html = None
          ∨ ∃ m c run, match_first info_name_pattern html = Some (m, Some (c :: run))
                       ∧ (60%N ∉ c :: run)) as Hname.
  { destruct (match_first info_name_pattern html) as [[m g]|] eqn:E; [right|by left].
    eapply (match_first_one_group _
              (Core <$> [Chr 60%N; Chr 104%N; Chr 49%N; Star (CCompl (COne 62%N)); Chr 62%N])
              [Core (Plus (CCompl (COne 60%N)))]
              (Core <$> [Chr 60%N; Chr 47%N; Chr 104%N; Chr 49%N; Chr 62%N]))
      in E as (t & -> & Ht); [|reflexivity|plain_parts..].
    apply xmatches_plus_only in Ht as (c & run & -> & Hall).
    exists m, c, run. split; [done|]. by eapply compl_one_excludes. }
  assert (∀ developer,
            developer = match match_first info_developer_pattern html with
                        | Some (_, Some group) => group
                        | _ => lit "Unknown"
                        end →
            developer ≠ [] ∧ (34%N ∉ developer)) as Hdeveloper.
  { intros developer ->.
    destruct (match_first info_developer_pattern html) as [[m g]|] eqn:E.
    - eapply (match_first_one_group _
                (Core <$> [Chr 100%N; Chr 101%N; Chr 118%N; Chr 101%N; Chr 108%N;
                           Chr 111%N; Chr 112%N; Chr 101%N; Chr 114%N;
                           Star (CUnion (COne 34%N) CSpace); Chr 58%N;
                           Star (CUnion (COne 34%N) CSpace); Chr 34%N])
                [Core (Plus (CCompl (COne 34%N)))]
                [Core (Chr 34%N)])
        in E as (t & -> & Ht); [|reflexivity|plain_parts..].
      apply xmatches_plus_only in Ht as (c & run & -> & Hall).
      split; [done|]. by eapply compl_one_excludes.
    - split; [done|]. apply (bool_decide_unpack _). by vm_compute. }
  assert (sign_of match xmatch_first info_rating_pattern html with
                  | Some (_, Some group) => parseFloat group
                  | Some (_, None) => S754_nan
                  | None => S754_zero false
                  end = Some false) as Hrating.
  { destruct (xmatch_first info_rating_pattern html) as [[m g]|] eqn:E; [|done].
    eapply (xmatch_first_group _
              (Core <$> [Chr 114%N; Chr 97%N; Chr 116%N; Chr 105%N; Chr 110%N; Chr 103%N;
                         Star (CUnion (COne 34%N) CSpace); Chr 58%N;
                         Star (CUnion (COne 34%N) CSpace)])
              [Core (Plus CDigit); Opt (COne 46%N); Core (Star CDigit)]
              [])
      in E as (t & -> & Ht); [|reflexivity|plain_parts..].
    apply xmatches_decimal in Ht as (c & ds1 & dot & ds2 & -> & H1 & Hdot & H2).
    destruct (parseFloat_of_decimal c ds1 dot ds2 H1 Hdot H2) as (n & e & ->).
    apply decimal_double_sign. }
  assert (not_negative match match_first info_totalRatings_pattern html with
                       | Some (_, Some group) => parseInt group
                       | Some (_, None) => NaN
                       | None => Finite 0
                       end) as Htotal.
  { destruct (match_first info_totalRatings_pattern html) as [[m g]|] eqn:E;
      [|done].
    eapply (match_first_one_group _
              (Core <$> [Chr 116%N; Chr 111%N; Chr 116%N; Chr 97%N; Chr 108%N;
                         Chr 82%N; Chr 97%N; Chr 116%N; Chr 105%N; Chr 110%N;
                         Chr 103%N; Chr 115%N; Star (CUnion (COne 34%N) CSpace);
                         Chr 58%N; Star (CUnion (COne 34%N) CSpace)])
              [Core (Plus CDigit)]
              [])
      in E as (t & -> & Ht); [|reflexivity|plain_parts..].
    apply xmatches_plus_only in Ht as (c & run & -> & Hall).
    by apply parseInt_of_digits. }
  cbv zeta. unfold extractAppInfo.
  destruct Hname as [->|(m & c & run & -> & Hout)];
    cbn [AppInfo.name AppInfo.developer AppInfo.rating AppInfo.totalRatings
         AppInfo.category AppInfo.downloads AppInfo.size AppInfo.version].
  - split_and!; try done; [|by apply Hdeveloper..].
    eexists. split; [done|]. split; [by split; intros c [= <-]|].
    apply (bool_decide_unpack _). by vm_compute.
  - split_and!; try done; [|by apply Hdeveloper..].
    eexists. split; [done|]. split; [apply trim_trimmed|]. by apply trim_keeps_out.
Qed.

(** [getAppInfo] issues one request and never rejects: it answers with the
    sample of the identifier when the request fails or its status is not
    200, with the sample of [unknown], named Sample App, when the body is
    not a text, and with what [extractAppInfo] reads of the page
    otherwise. *)
Theorem getAppInfo_never_rejects net appId log :
  ∃ info,
    run net (getAppInfo appId) log = (Fulfilled info, log ++ [appInfoUrl appId])
    ∧ ((∀ data, net log (appInfoUrl appId) ≠ Resolved 200 data) →
       info = generateSampleAppInfo appId)
    ∧ (net log (appInfoUrl appId) = Resolved 200 NotText →
       info = generateSampleAppInfo (lit "unknown")
       ∧ AppInfo.name info = OwnText (lit "Sample App"))
    ∧ (∀ html, net log (appInfoUrl appId) = Resolved 200 (Text html) →
               info = extractAppInfo (Text html)).
Proof.
  unfold getAppInfo. rewrite run_try_catch, run_bind. cbn [run axios_get].
  destruct (net log (appInfoUrl appId)) as [e|st data] eqn:E; cbn [run].
  - eexists. split; [done|]. split_and!; [done|done|done].
  - cbn [fst snd]. destruct (decide (st = 200%Z)) as [->|Hne].
    + rewrite bool_decide_eq_false_2 by (by intros ?). cbn [run].
      eexists. split; [done|]. split_and!.
      * intros H. by destruct (H data).
      * by intros [= ->].
      * by intros html [= ->].
    + rewrite bool_decide_eq_true_2 by done. cbn [run].
      eexists. split; [done|]. split_and!; [done| |]; intros; simplify_eq.
Qed.

(** ** Configuration *)



(** ** A sort that is not one of the three *)

Lemma getSortParameter_unknown order :
  order ∉ validSortOptions → order ∉ object_prototype_keys →
  getSortParameter order = lit "0".
Proof.
  intros H Hproto. unfold getSortParameter.
  unfold validSortOptions in H. rewrite !not_elem_of_cons in H.
  destruct H as (H1 & H2 & H3 & _).
  by rewrite !bool_decide_eq_false_2 by done.
Qed.

Lemma fetched_unknown_sort decode_json today net appId lim order log :
  order ∉ validSortOptions → order ∉ object_prototype_keys →
  fetched decode_json today net appId
    {| limit := lim; sort := Some order; language := None; country := None |} log
  = fetched decode_json today net appId
      {| limit := lim; sort := Some (lit "recent"); language := None; country := None |}
      log.
Proof.
  intros H Hproto. unfold fetched. cbn [sort limit language country default from_option id].
  unfold buildAppPageUrl. by rewrite getSortParameter_unknown.
Qed.

(** Nothing checks the sort of the comments route: a sort that is not one
    of the three orders is served as [recent] is, with the same requests
    upstream and the same comments, and is echoed in the metadata.  (A sort
    that names a member of [Object.prototype] is left out: the lookup of
    [getSortParameter] finds that member, and the request upstream
    carries its text.) *)
Theorem unknown_sort_is_served_as_recent decode_json today net req order log :
  validateAppId req = None →
  order ∉ validSortOptions →
  order ∉ object_prototype_keys →
  ∃ comments limit log',
    run net (get_comments decode_json today (with_sort req order)) log
    = (Fulfilled {| status := 200;
                    json := CommentsBody (params_appId req) (length comments) comments
                              limit order |}, log')
    ∧ run net (get_comments decode_json today (with_sort req (lit "recent"))) log
      = (Fulfilled {| status := 200;
                      json := CommentsBody (params_appId req) (length comments) comments
                                limit (lit "recent") |}, log').
Proof.
  intros Hvalid Horder Hproto.
  rewrite !run_get_comments by done. cbv zeta.
  cbn [with_sort params_appId query_limit query_sort default from_option id].
  rewrite (fetched_unknown_sort _ _ _ _ _ order) by done.
  by eexists _, _, _.
Qed.

Lemma unknown_sort_is_served_as_recent_witness :
  ∃ comments limit log',
    run unreachable
      (get_comments reject_json (lit "2024-01-15")
         (with_sort {| params_appId := lit "com.whatsapp"; query_limit := Some (lit "2");
                       query_sort := None |} (lit "newest"))) []
    = (Fulfilled {| status := 200;
                    json := CommentsBody (lit "com.whatsapp") (length comments) comments
                              limit (lit "newest") |}, log')
    ∧ run unreachable
        (get_comments reject_json (lit "2024-01-15")
           (with_sort {| params_appId := lit "com.whatsapp"; query_limit := Some (lit "2");
                         query_sort := None |} (lit "recent"))) []
      = (Fulfilled {| status := 200;
                      json := CommentsBody (lit "com.whatsapp") (length comments) comments
                                limit (lit "recent") |}, log').
Proof.
  apply (unknown_sort_is_served_as_recent reject_json (lit "2024-01-15") unreachable
           {| params_appId := lit "com.whatsapp"; query_limit := Some (lit "2");
              query_sort := None |} (lit "newest") []).
  - reflexivity.
  - apply (bool_decide_unpack _). by vm_compute.
  - apply (bool_decide_unpack _). by vm_compute.
Defined.

(** ** The batch route on any body *)

Section AnyBodyProperties.

Context {value : Type} (ToString : value → option jsstring).
Variable decode_json : jsstring → option decoded.
Variable today : jsstring.

Lemma fetchComments_of_never_throws appId id limit sort :
  ToString appId = Some id →
  never_throws (fetchComments_of ToString decode_json today appId limit sort).
Proof.
  intros E. unfold fetchComments_of. rewrite E.
  destruct (sort_of ToString sort); apply try_catch_never_throws; constructor.
Qed.

Lemma fetchComments_of_stages appId id limit sort :
  ToString appId = Some id →
  ∃ url k,
    fetchComments_of ToString decode_json today appId limit sort = Get url k
    ∧ match sort_of ToString sort with
      | Some order =>
          url = buildAppPageUrl id order (lit "en") (lit "US")
          ∧ ∀ o, first_stage (alternativeUrl id (lit "en") (lit "US")) (k o)
      | None =>
          url = alternativeUrl id (lit "en") (lit "US") ∧ ∀ o, last_stage (k o)
      end.
Proof.
  intros E. unfold fetchComments_of. rewrite E.
  destruct (sort_of ToString sort) as [order|].
  - destruct (fetchComments_stages decode_json today id limit order) as (k & -> & Hk).
    by eexists _, _.
  - eexists _, _. split; [reflexivity|]. split; [done|].
    intros [e|st data]; simpl; [by eexists|].
    repeat case_bool_decide; simpl; repeat case_bool_decide; by eexists.
Qed.

Lemma start_batch_cons limit sort appId rest b :
  start_batch ToString decode_json today limit sort (appId :: rest) b
  = let '(t, results, errors) :=
      run_task appId (batch_task ToString decode_json today limit sort appId)
        (pushed b) (caught b) in
    start_batch ToString decode_json today limit sort rest
      {| tasks := tasks b ++ [t]; pushed := results; caught := errors |}.
Proof. reflexivity. Qed.

Lemma answer_all_cons i o events (b : batch value) :
  answer_all ((i, o) :: events) b = answer_all events (answer i o b).
Proof. reflexivity. Qed.

(** Under a limit without a text every task is over at once, with its
    identifier in [errors], and no answer is waited for. *)
Lemma start_batch_no_limit limit sort appIds : ∀ b,
  parseInt_of ToString limit = None →
  start_batch ToString decode_json today limit sort appIds b
  = {| tasks := tasks b ++ replicate (length appIds) Over;
       pushed := pushed b;
       caught := caught b ++ (conversion_error <$> appIds) |}.
Proof.
  induction appIds as [|appId rest IH]; intros b Hl.
  - simpl. rewrite !app_nil_r. by destruct b.
  - rewrite start_batch_cons. unfold batch_task. rewrite Hl. cbn [run_task].
    rewrite IH by done. cbn [tasks pushed caught length replicate fmap list_fmap].
    by rewrite <- !(assoc_L (++)).
Qed.

Lemma start_batch_pushed limit sort appIds : ∀ b,
  pushed (start_batch ToString decode_json today limit sort appIds b) = pushed b.
Proof.
  induction appIds as [|appId rest IH]; intros b; [done|].
  rewrite start_batch_cons. unfold batch_task.
  destruct (parseInt_of ToString limit) as [n|]; [|cbn [run_task]; by rewrite IH].
  destruct (ToString appId) as [id|] eqn:Eid.
  - destruct (fetchComments_of_stages appId id n sort Eid) as (url & k & -> & _).
    cbn [run_task]. by rewrite IH.
  - unfold fetchComments_of. rewrite Eid. cbn [run_task]. by rewrite IH.
Qed.

Lemma start_batch_first limit n sort appIds : ∀ b,
  parseInt_of ToString limit = Some n →
  caught (start_batch ToString decode_json today limit sort appIds b)
  = caught b ++ (conversion_error <$> filter (λ v, ToString v = None) appIds)
  ∧ ∃ started,
      tasks (start_batch ToString decode_json today limit sort appIds b)
      = tasks b ++ started
      ∧ Forall2 (first_task ToString sort) appIds started.
Proof.
  induction appIds as [|appId rest IH]; intros b Hl.
  - split; [by rewrite app_nil_r|]. exists []. by rewrite app_nil_r.
  - rewrite start_batch_cons. unfold batch_task. rewrite Hl.
    destruct (ToString appId) as [id|] eqn:Eid.
    + destruct (fetchComments_of_stages appId id n sort Eid) as (url & k & -> & Hk).
      cbn [run_task].
      destruct (IH {| tasks := tasks b ++ [Waiting appId url k];
                      pushed := pushed b; caught := caught b |} Hl)
        as (-> & started & -> & Hstarted).
      cbn [tasks caught]. split.
      * by rewrite filter_cons_False by (by rewrite Eid).
      * eexists (_ :: started). rewrite <- (assoc_L (++)). split; [done|].
        constructor; [|done]. unfold first_task. rewrite Eid. exists k.
        destruct (sort_of ToString sort); by destruct Hk as [-> Hk].
    + unfold fetchComments_of. rewrite Eid. cbn [run_task].
      destruct (IH {| tasks := tasks b ++ [Over]; pushed := pushed b;
                      caught := caught b ++ [{| failed_appId := appId;
                                               failed_message := cannot_convert |}] |} Hl)
        as (-> & started & -> & Hstarted).
      cbn [tasks caught]. split.
      * rewrite filter_cons_True by done. by rewrite <- (assoc_L (++)).
      * eexists (_ :: started). rewrite <- (assoc_L (++)). split; [done|].
        constructor; [|done]. unfold first_task. by rewrite Eid.
Qed.

Lemma run_task_inv appId p (rs : list (json_result value)) (es : list (json_error value)) :
  never_throws p →
  Forall entry_counted rs →
  ∃ t rs',
    run_task appId p rs es = (t, rs', es)
    ∧ task_ok t
    ∧ Forall entry_counted rs'
    ∧ (entry_appId <$> rs') ++ task_ids t ≡ₚ (entry_appId <$> rs) ++ [appId].
Proof.
  intros Hp Hrs. destruct Hp as [comments|url k Hk]; simpl.
  - eexists _, _. split_and!; [done|done| |].
    + apply Forall_app. split; [done|]. by repeat constructor.
    + simpl. by rewrite fmap_app, (right_id_L [] (++)).
  - eexists _, _. split_and!; done.
Qed.

Lemma start_batch_inv limit n sort appIds : ∀ ids b,
  parseInt_of ToString limit = Some n →
  batch_inv ToString ids b →
  batch_inv ToString (ids ++ appIds)
    (start_batch ToString decode_json today limit sort appIds b).
Proof.
  induction appIds as [|appId rest IH]; intros ids b Hl Hinv.
  - simpl. by rewrite (right_id_L [] (++)).
  - rewrite start_batch_cons. destruct Hinv as [He Hs Hi Hc].
    replace (ids ++ appId :: rest) with ((ids ++ [appId]) ++ rest)
      by (by rewrite <- (assoc_L (++))).
    unfold batch_task. rewrite Hl.
    destruct (ToString appId) as [id|] eqn:Eid.
    + destruct (run_task_inv appId
                  (fetchComments_of ToString decode_json today appId n sort)
                  (pushed b) (caught b))
        as (t & rs' & -> & Hok & Hc' & Hperm);
        [by eapply fetchComments_of_never_throws|done|].
      apply IH; [done|]. split; cbn [tasks pushed caught].
      * rewrite filter_app, filter_cons_False, filter_nil, app_nil_r by (by rewrite Eid).
        done.
      * apply Forall_app. split; [done|]. by repeat constructor.
      * rewrite filter_app, filter_cons_True, filter_nil by (by rewrite Eid).
        rewrite bind_app. simpl. rewrite (right_id_L [] (++)).
        trans (((entry_appId <$> rs') ++ task_ids t) ++ (tasks b ≫= task_ids));
          [solve_Permutation|].
        rewrite Hperm, <- Hi. solve_Permutation.
      * done.
    + unfold fetchComments_of. rewrite Eid. cbn [run_task].
      apply IH; [done|]. split; cbn [tasks pushed caught].
      * rewrite filter_app, filter_cons_True, filter_nil by done.
        by rewrite fmap_app, He.
      * apply Forall_app. split; [done|]. by repeat constructor.
      * rewrite filter_app, filter_cons_False, filter_nil, app_nil_r
          by (rewrite Eid; by intros [? ?]).
        rewrite bind_app. simpl. by rewrite !(right_id_L [] (++)).
      * done.
Qed.

Lemma answer_inv ids i o b :
  batch_inv ToString ids b → batch_inv ToString ids (answer i o b).
Proof.
  intros [He Hs Hi Hc]. unfold answer.
  destruct (tasks b !! i) as [[appId url k|]|] eqn:E; [|done..].
  assert (never_throws (k o)) as Hk.
  { eapply Forall_lookup_1 in Hs; [|exact E]. apply Hs. }
  destruct (run_task_inv appId (k o) (pushed b) (caught b) Hk Hc)
    as (t & rs' & -> & Hok & Hc' & Hperm).
  apply list_elem_of_split_length in E as (l1 & l2 & Hsplit & ->).
  split; simpl; [done|by apply Forall_insert| |done].
  rewrite Hsplit in Hi |- *.
  replace (length l1) with (length l1 + 0) by lia.
  rewrite insert_app_r. simpl.
  rewrite !bind_app, !bind_cons in Hi |- *. simpl in Hi.
  trans (((entry_appId <$> rs') ++ task_ids t) ++ (l1 ≫= task_ids) ++ (l2 ≫= task_ids));
    [solve_Permutation|].
  rewrite Hperm, <- Hi. solve_Permutation.
Qed.

Lemma answer_all_inv ids events : ∀ b,
  batch_inv ToString ids b → batch_inv ToString ids (answer_all events b).
Proof.
  induction events as [|[i o] events IH]; intros b Hinv; [done|].
  rewrite answer_all_cons. by apply IH, answer_inv.
Qed.

Lemma all_over_no_ids (b : batch value) : all_over b = true → tasks b ≫= task_ids = [].
Proof.
  unfold all_over. induction (tasks b) as [|t l IH]; [done|].
  rewrite bind_cons. destruct t; simpl; [done|]. apply IH.
Qed.

Lemma converted_or_not (l : list value) :
  length (filter (λ v, is_Some (ToString v)) l)
  + length (filter (λ v, ToString v = None) l) = length l.
Proof.
  induction l as [|v l IH]; [done|]. destruct (ToString v) as [id|] eqn:E.
  - rewrite filter_cons_True by (by rewrite E).
    rewrite filter_cons_False by (by rewrite E). simpl. lia.
  - rewrite filter_cons_False by (rewrite E; by intros [? ?]).
    rewrite filter_cons_True by done. simpl. lia.
Qed.

Lemma all_converted (l : list value) :
  Forall (λ v, is_Some (ToString v)) l →
  filter (λ v, is_Some (ToString v)) l = l ∧ filter (λ v, ToString v = None) l = [].
Proof.
  induction 1 as [|v l Hv _ [IH1 IH2]]; [done|].
  rewrite filter_cons_True by done.
  rewrite filter_cons_False by (intros E; rewrite E in Hv; by destruct Hv).
  by rewrite IH1, IH2.
Qed.

(** An entry is pushed on [results] when its task finishes. *)
Lemma answer_pushed i o (b : batch value) :
  entry_appId <$> pushed (answer i o b)
  = (entry_appId <$> pushed b) ++ finishes i o b.
Proof.
  unfold answer, finishes.
  destruct (tasks b !! i) as [[appId url k|]|]; [|by rewrite app_nil_r..].
  destruct (k o) as [comments|message|url' k']; simpl;
    by rewrite ?fmap_app, ?app_nil_r.
Qed.

Lemma answer_all_pushed events : ∀ (b : batch value),
  entry_appId <$> pushed (answer_all events b)
  = (entry_appId <$> pushed b) ++ completion_order events b.
Proof.
  induction events as [|[i o] events IH]; intros b; [by rewrite app_nil_r|].
  rewrite answer_all_cons. cbn [completion_order fst snd].
  rewrite IH, answer_pushed. by rewrite <- (assoc_L (++)).
Qed.

(** Every task can be brought to its end. *)
Lemma resume_over (p : proc (list review)) :
  ∀ i (appId : value) (b : batch value) rs es t,
    i < length (tasks b) →
    run_task appId p (pushed b) (caught b) = (t, rs, es) →
    ∃ events,
      tasks (answer_all events
               {| tasks := <[i := t]> (tasks b); pushed := rs; caught := es |})
      = <[i := Over]> (tasks b).
Proof.
  induction p as [comments|message|url k IH]; intros i appId b rs es t Hi Hrun.
  - injection Hrun as <- <- <-. by exists [].
  - injection Hrun as <- <- <-. by exists [].
  - injection Hrun as <- <- <-.
    destruct (run_task appId (k (Rejected [])) (pushed b) (caught b))
      as [[t' rs'] es'] eqn:E.
    destruct (IH (Rejected []) i appId b rs' es' t' Hi E) as [events Hev].
    exists ((i, Rejected []) :: events). rewrite answer_all_cons.
    unfold answer at 1. cbn [tasks pushed caught fst snd].
    rewrite list_lookup_insert_eq by done. rewrite E.
    by rewrite list_insert_insert_eq.
Qed.

Lemma finish_task i (b : batch value) :
  ∃ events, tasks (answer_all events b) = <[i := Over]> (tasks b).
Proof.
  destruct (tasks b !! i) as [[appId url k|]|] eqn:E.
  - destruct (run_task appId (k (Rejected [])) (pushed b) (caught b))
      as [[t rs] es] eqn:Er.
    destruct (resume_over (k (Rejected [])) i appId b rs es t) as [events Hev];
      [by eapply lookup_lt_Some|done|].
    exists ((i, Rejected []) :: events). rewrite answer_all_cons.
    unfold answer at 1. by rewrite E, Er.
  - exists []. simpl. by rewrite list_insert_id.
  - exists []. simpl. rewrite list_insert_ge; [done|by apply lookup_ge_None].
Qed.

Lemma finish_first n (b : batch value) :
  ∃ events,
    length (tasks (answer_all events b)) = length (tasks b)
    ∧ ∀ i, i < n → i < length (tasks b) →
        tasks (answer_all events b) !! i = Some Over.
Proof.
  induction n as [|n (events1 & Hlen & Hset)]; [exists []; split; [done|lia]|].
  destruct (finish_task n (answer_all events1 b)) as [events2 H2].
  exists (events1 ++ events2). unfold answer_all in *. rewrite foldl_app, H2.
  rewrite length_insert. split; [done|]. intros i Hi Hl.
  destruct (decide (i = n)) as [->|Hne].
  - rewrite list_lookup_insert_eq by lia. done.
  - rewrite list_lookup_insert_ne by done. apply Hset; lia.
Qed.

Lemma all_over_lookup (b : batch value) :
  (∀ i, i < length (tasks b) → tasks b !! i = Some Over) → all_over b = true.
Proof.
  intros H. unfold all_over.
  assert (Forall (λ t, t = Over) (tasks b)) as Hall.
  { apply Forall_lookup_2. intros i t Ht.
    rewrite H in Ht by (by eapply lookup_lt_Some). by simplify_eq. }
  clear H. revert Hall. generalize (tasks b). intros l Hall.
  induction Hall as [|t l' -> _ IH]; simpl; done.
Qed.

(** The handler answers, whatever the body: there are answers of the
    store, in some order, after which every task is over and the response
    is sent. *)
Lemma post_batch_json_completes (req : json_body value) :
  ∃ events resp, post_batch_json ToString decode_json today req events = Some resp.
Proof.
  unfold post_batch_json. destruct (json_appIds req) as [appIds|]; [|by eexists [], _].
  case_bool_decide; [by eexists [], _|].
  destruct (10 <? length appIds); [by eexists [], _|].
  set (b := start_batch _ _ _ _ _ _ _).
  destruct (finish_first (length (tasks b)) b) as (events & Hl & Hset).
  exists events. rewrite all_over_lookup.
  - destruct (parseInt_of _ _); by eexists.
  - intros i Hi. apply Hset; lia.
Qed.

End AnyBodyProperties.

(** When the handler comes to wait for the network, before any answer is
    handled, nothing is in [results].  Under a limit with a text, [errors]
    holds the identifiers without a text, in their order, and every other
    identifier has one request in flight: the one for its page, or, under
    a sort without a text, the one for its alternative page.  Under a limit
    without a text no request is issued at all: every task is over and
    every identifier is in [errors].  Nothing limits the rate. *)
Theorem batch_first_requests {value} (ToString : value → option jsstring)
    decode_json today limit sort appIds :
  let b := start_batch ToString decode_json today limit sort appIds
             {| tasks := []; pushed := []; caught := [] |} in
  pushed b = []
  ∧ match parseInt_of ToString limit with
    | Some n =>
        caught b = conversion_error <$> filter (λ v, ToString v = None) appIds
        ∧ Forall2 (first_task ToString sort) appIds (tasks b)
    | None =>
        caught b = conversion_error <$> appIds
        ∧ tasks b = replicate (length appIds) Over
    end.
Proof.
  cbv zeta. split; [by rewrite start_batch_pushed|].
  destruct (parseInt_of ToString limit) as [n|] eqn:El.
  - destruct (start_batch_first ToString decode_json today limit n sort appIds
                {| tasks := []; pushed := []; caught := [] |} El)
      as (-> & started & -> & Hstarted).
    done.
  - by rewrite start_batch_no_limit.
Qed.

(** On a body of texts the handler is [post_batch]. *)

Lemma start_batch_of_texts decode_json today lim order appIds : ∀ b,
  pool_of_texts (start_batch Some decode_json today lim order appIds b)
  = start_tasks decode_json today
      (match lim with Some text => parseInt text | None => Finite 20 end)
      (default (lit "recent") order) appIds (pool_of_texts b).
Proof.
  induction appIds as [|appId rest IH]; intros b; [done|].
  rewrite start_batch_cons, start_tasks_cons.
  assert (batch_task Some decode_json today lim order appId
          = fetchComments decode_json today appId
              {| limit :=
                   Some (match lim with Some text => parseInt text | None => Finite 20 end);
                 sort := Some (default (lit "recent") order);
                 language := None; country := None |}) as ->.
  { unfold batch_task, fetchComments_of, parseInt_of, sort_of.
    by destruct lim, order. }
  destruct (fetchComments_stages decode_json today appId
              (match lim with Some text => parseInt text | None => Finite 20 end)
              (default (lit "recent") order)) as (k & -> & _).
  cbn [run_task advance_task]. rewrite IH. f_equal.
  unfold pool_of_texts. cbn [tasks pushed caught slots results errors].
  by rewrite fmap_app.
Qed.

Lemma answer_of_texts i o b :
  pool_of_texts (answer i o b) = deliver i o (pool_of_texts b).
Proof.
  unfold answer, deliver. cbn [pool_of_texts slots]. rewrite list_lookup_fmap.
  destruct (tasks b !! i) as [[appId url k|]|]; [|done..].
  cbn [fmap option_fmap option_map slot_of_texts]. unfold resume.
  cbn [results errors pool_of_texts].
  destruct (k o) as [comments|message|url' k']; cbn [run_task advance_task];
    unfold pool_of_texts; cbn [tasks pushed caught];
    by rewrite ?list_fmap_insert, ?fmap_app.
Qed.

Lemma answer_all_of_texts events : ∀ b,
  pool_of_texts (answer_all events b) = deliver_all events (pool_of_texts b).
Proof.
  induction events as [|[i o] events IH]; intros b; [done|].
  rewrite answer_all_cons.
  change (deliver_all ((i, o) :: events) ?pl) with (deliver_all events (deliver i o pl)).
  by rewrite IH, answer_of_texts.
Qed.

Lemma all_over_of_texts b : all_settled (pool_of_texts b) = all_over b.
Proof.
  unfold all_settled, all_over. cbn [pool_of_texts slots].
  induction (tasks b) as [|[]]; simpl; done.
Qed.

Lemma post_batch_of_texts decode_json today req events :
  post_batch decode_json today req events
  = response_of_texts
    <$> post_batch_json Some decode_json today (body_of_texts req) events.
Proof.
  unfold post_batch, post_batch_json. cbn [body_of_texts json_appIds json_limit json_sort].
  destruct (body_appIds req) as [appIds|]; [|done].
  case_bool_decide; [done|]. destruct (10 <? length appIds); [done|].
  change {| slots := []; results := []; errors := [] |}
    with (pool_of_texts {| tasks := []; pushed := []; caught := [] |}).
  rewrite <- start_batch_of_texts, <- answer_all_of_texts, all_over_of_texts.
  destruct (all_over _); [|done].
  unfold parseInt_of. destruct (body_limit req); cbn;
    unfold response_of_texts; cbn; by rewrite !length_fmap.
Qed.

(** ** What a block gives

    Whether a block gives a record is a matter of its text alone; the
    rating it states is kept when it is one of 1 to 5 and is 0 otherwise. *)

Lemma extractCommentFromHTML_unusable today html :
  ¬ usable_text (textContent html) → extractCommentFromHTML today html = None.
Proof.
  intros H. unfold extractCommentFromHTML. fold (textContent html).
  destruct (bool_decide (textContent html = []) || (length (textContent html) <? 10))
    eqn:E; [done|].
  apply orb_false_iff in E as [_ E]. apply Nat.ltb_ge in E.
  destruct (_ && _ && _) eqn:Enav; [done|].
  destruct H. split; [done|]. intros (H1 & H2 & H3). by rewrite H1, H2, H3 in Enav.
Qed.

Lemma extractCommentFromHTML_usable today html :
  usable_text (textContent html) →
  ∃ r, extractCommentFromHTML today html = Some r
       ∧ text r = textContent html
       ∧ rating r = match stated_rating html with
                    | Some (Finite z) => if bool_decide (1 ≤ z ≤ 5)%Z then z else 0%Z
                    | _ => 0%Z
                    end.
Proof.
  intros [Hlen Hnav]. unfold extractCommentFromHTML. fold (textContent html).
  replace (bool_decide (textContent html = []) || (length (textContent html) <? 10))
    with false.
  2:{ symmetry. apply orb_false_iff. split.
      - apply bool_decide_eq_false_2. intros E. rewrite E in Hlen. simpl in Hlen. lia.
      - by apply Nat.ltb_ge. }
  destruct (_ && _ && _) eqn:Enav.
  { destruct Hnav. by repeat apply andb_true_iff in Enav as [Enav ?]. }
  eexists. split; [done|]. split; [done|]. cbn [rating]. unfold stated_rating.
  destruct (match_first rating_pattern html) as [[m [digits|]]|]; [|done..].
  destruct (parseInt digits) as [|z|]; [done| |done].
  case_bool_decide as E.
  - by replace ((1 <=? z)%Z && (z <=? 5)%Z) with true by (symmetry; apply andb_true_iff; lia).
  - replace ((1 <=? z)%Z && (z <=? 5)%Z) with false; [done|].
    symmetry. apply andb_false_iff. lia.
Qed.

Lemma stated_rating_not_negative html n :
  stated_rating html = Some n → not_negative n.
Proof.
  unfold stated_rating.
  destruct (match_first rating_pattern html) as [[m g]|] eqn:E; [|done].
  eapply (match_first_one_group _
            (Core <$> [Chr 114%N; Chr 97%N; Chr 116%N; Chr 105%N; Chr 110%N; Chr 103%N;
                       Star (CUnion (COne 34%N) CSpace); Chr 58%N;
                       Star (CUnion (COne 34%N) CSpace)])
            [Core (Plus CDigit)]
            [])
    in E as (t & -> & Ht); [|reflexivity|plain_parts..].
  apply xmatches_plus_only in Ht as (c & run & -> & Hall).
  intros [= <-]. by apply parseInt_of_digits.
Qed.

(** The rating a block states, on a block: where nothing before the first
    [rating: ] can start a match, the stated rating is the number that
    follows, and the record has it when it is 1 to 5 and has 0 otherwise. *)

Lemma rating_prog :
  prog rating_pattern
  = [Chr 114; Chr 97; Chr 116; Chr 105; Chr 110; Chr 103;
     Star (CUnion (COne 34) CSpace); Chr 58; Star (CUnion (COne 34) CSpace);
     GroupOpen; Plus CDigit; GroupClose]%N
  ∧ ignore_case rating_pattern = true.
Proof. split; reflexivity. Qed.

Lemma attempt_rating_not_r c s :
  chr_eq true 114 c = false → attempt rating_pattern (c :: s) = None.
Proof.
  intros H. unfold attempt. destruct rating_prog as [-> ->].
  cbn [match_here]. by rewrite H.
Qed.

Lemma attempt_rating_not_a c c' s :
  chr_eq true 97 c' = false → attempt rating_pattern (c :: c' :: s) = None.
Proof.
  intros H. unfold attempt. destruct rating_prog as [-> ->].
  cbn [match_here]. destruct (chr_eq true 114 c); [|done]. by rewrite H.
Qed.

Lemma star_greedy_run_close mem s : ∀ st,
  star_greedy mem (λ _ st, Some (close_group st)) s st
  = Some {| consumed := consumed st + leading mem s;
            group_start := group_start st;
            group_end := Some (consumed st + leading mem s) |}.
Proof.
  induction s as [|c s IH]; intros st; simpl.
  - rewrite Nat.add_0_r. done.
  - destruct (mem c); [|by rewrite Nat.add_0_r].
    rewrite IH. simpl. by rewrite Nat.add_succ_r.
Qed.

Lemma digits_of_digits d : Forall (λ c, is_digit c = true) (digits_of d).
Proof.
  induction d; unfold digits_of in *; simpl; [constructor|..]; by constructor.
Qed.

Lemma decimal_digits z :
  (0 ≤ z)%Z → ∃ c ds, decimal z = c :: ds ∧ Forall (λ c, is_digit c = true) (c :: ds).
Proof.
  intros Hz. unfold decimal. destruct z as [|p|p]; [| |lia]; simpl Z.to_int.
  - exists 48%N, []. split; [done|]. by repeat constructor.
  - pose proof (Unsigned.to_uint_nonnil p) as Hnil.
    pose proof (digits_of_digits (Pos.to_uint p)) as Hd.
    replace (lit (NilZero.string_of_int (Decimal.Pos (Pos.to_uint p))))
      with (digits_of (Pos.to_uint p)) by (by destruct (Pos.to_uint p)).
    destruct (digits_of (Pos.to_uint p)) as [|c ds] eqn:E.
    + destruct (Pos.to_uint p); done.
    + by exists c, ds.
Qed.

Lemma leading_run mem run rest :
  Forall (λ c, mem c = true) run →
  (∀ c, head rest = Some c → mem c = false) →
  leading mem (run ++ rest) = length run.
Proof.
  intros Hrun Hrest. induction Hrun as [|c run Hc _ IH]; simpl.
  - destruct rest as [|c rest]; [done|]. simpl. by rewrite (Hrest c).
  - by rewrite Hc, IH.
Qed.

Lemma digit_not_separator c :
  is_digit c = true → cset_mem true (CUnion (COne 34) CSpace) c = false.
Proof.
  intros Hd. pose proof Hd as H. apply digit_bounds in H. cbn [cset_mem].
  apply orb_false_iff. split.
  - unfold chr_eq, ascii_upper.
    replace ((97 <=? c)%N && (c <=? 122)%N) with false
      by (symmetry; apply andb_false_iff; left; apply N.leb_gt; lia).
    change ((97 <=? 34)%N && (34 <=? 122)%N) with false. cbv iota.
    apply N.eqb_neq. lia.
  - by apply digit_not_space.
Qed.

Lemma attempt_rating_here c ds post :
  Forall (λ c, is_digit c = true) (c :: ds) →
  (∀ c, head post = Some c → is_digit c = false) →
  attempt rating_pattern (lit "rating: " ++ (c :: ds) ++ post)
  = Some {| consumed := 9 + length ds; group_start := Some 8;
            group_end := Some (9 + length ds) |}.
Proof.
  intros Hds Hpost. apply Forall_cons in Hds as [Hc Hds].
  unfold attempt. destruct rating_prog as [-> ->].
  change (lit "rating: " ++ (c :: ds) ++ post)
    with (114 :: 97 :: 116 :: 105 :: 110 :: 103 :: 58 :: 32 :: c :: (ds ++ post))%N.
  cbn [match_here].
  replace (chr_eq true 114 114) with true by done.
  replace (chr_eq true 97 97) with true by done.
  replace (chr_eq true 116 116) with true by done.
  replace (chr_eq true 105 105) with true by done.
  replace (chr_eq true 110 110) with true by done.
  replace (chr_eq true 103 103) with true by done.
  cbn [star_greedy].
  replace (cset_mem true (CUnion (COne 34) CSpace) 58) with false by done.
  cbn [match_here].
  replace (chr_eq true 58 58) with true by done.
  cbn [star_greedy].
  replace (cset_mem true (CUnion (COne 34) CSpace) 32) with true by done.
  rewrite (digit_not_separator c Hc).
  cbn [match_here cset_mem]. rewrite Hc.
  rewrite (star_greedy_run_close is_digit).
  rewrite leading_run by done. done.
Qed.

Lemma match_first_here r s st :
  attempt r s = Some st → match_first r s = Some (take (consumed st) s, group_text s st).
Proof. intros H. destruct s; simpl; by rewrite H. Qed.

Lemma match_first_skip r c s :
  attempt r (c :: s) = None → match_first r (c :: s) = match_first r s.
Proof. intros H. simpl. by rewrite H. Qed.

Lemma match_first_rating pre c ds post :
  no_ra pre = true →
  Forall (λ c, is_digit c = true) (c :: ds) →
  (∀ c, head post = Some c → is_digit c = false) →
  match_first rating_pattern (pre ++ lit "rating: " ++ (c :: ds) ++ post)
  = Some (lit "rating: " ++ c :: ds, Some (c :: ds)).
Proof.
  intros Hpre Hds Hpost. induction pre as [|a pre IH].
  - change ([] ++ ?x) with x.
    rewrite (match_first_here _ _ _ (attempt_rating_here c ds post Hds Hpost)).
    cbn [consumed]. f_equal. f_equal.
    + rewrite (assoc_L (++)).
      replace (9 + length ds) with (length (lit "rating: " ++ c :: ds))
        by (rewrite length_app; simpl; lia).
      by rewrite take_app_length.
    + unfold group_text. cbn [group_start group_end]. f_equal.
      change (drop 8 (lit "rating: " ++ ?x)) with x.
      replace (9 + length ds - 8) with (length (c :: ds)) by (simpl; lia).
      apply take_app_length.
  - cbn [no_ra] in Hpre. apply andb_true_iff in Hpre as [Ha Hpre].
    change ((a :: pre) ++ ?x) with (a :: (pre ++ x)).
    rewrite match_first_skip; [by apply IH|].
    destruct (chr_eq true 114 a) eqn:Er; [|by apply attempt_rating_not_r].
    destruct pre as [|a' pre].
    + by apply attempt_rating_not_a.
    + apply attempt_rating_not_a. by destruct (chr_eq true 97 a').
Qed.

Lemma stated_rating_of pre z post :
  no_ra pre = true → (0 ≤ z)%Z →
  (∀ c, head post = Some c → is_digit c = false) →
  stated_rating (pre ++ lit "rating: " ++ decimal z ++ post) = Some (Number_of_Z z).
Proof.
  intros Hpre Hz Hpost. destruct (decimal_digits z Hz) as (c & ds & E & Hds).
  pose proof (parseInt_decimal z [] ltac:(done) ltac:(done)) as Hp.
  rewrite app_nil_r in Hp. rewrite E in Hp |- *.
  unfold stated_rating. rewrite match_first_rating by done. by rewrite Hp.
Qed.

Lemma stated_rating_kept z :
  match Number_of_Z z with
  | Finite x => if bool_decide (1 ≤ x ≤ 5)%Z then x else 0%Z
  | _ => 0%Z
  end = if bool_decide (1 ≤ z ≤ 5)%Z then z else 0%Z.
Proof.
  destruct (decide (Z.abs z ≤ 2 ^ 53)%Z) as [Hz|Hz].
  - by rewrite Number_of_Z_exact.
  - rewrite (bool_decide_eq_false_2 (1 ≤ z ≤ 5)%Z) by lia.
    destruct (Number_of_Z_beyond z) as [->|(x & -> & Hx & _)]; [lia|done|].
    by rewrite bool_decide_eq_false_2 by lia.
Qed.

Lemma block_with_rating today pre z post :
  no_ra pre = true → (0 ≤ z)%Z →
  (∀ c, head post = Some c → is_digit c = false) →
  usable_text (textContent (pre ++ lit "rating: " ++ decimal z ++ post)) →
  ∃ r, extractCommentFromHTML today (pre ++ lit "rating: " ++ decimal z ++ post) = Some r
       ∧ rating r = if bool_decide (1 ≤ z ≤ 5)%Z then z else 0%Z.
Proof.
  intros Hpre Hz Hpost Husable.
  destruct (extractCommentFromHTML_usable today _ Husable) as (r & Hr & _ & Hrating).
  exists r. split; [done|].
  rewrite Hrating, stated_rating_of by done. apply stated_rating_kept.
Qed.

Lemma example_is_a_block :
  no_ra (markup "<div class='review'>") = true
  ∧ usable_text
      (textContent (markup "<div class='review'>" ++ lit "rating: " ++ decimal 9
                    ++ lit " Too many ads in this app</div>")).
Proof.
  split; [reflexivity|].
  split; [vm_compute; lia|]. intros (H & _). by vm_compute in H.
Qed.

Lemma container_branch_records today decode_json matches pattern z :
  (0 ≤ z)%Z →
  includes (pattern_source pattern) (lit "reviews") = false →
  includes (pattern_source pattern) (lit "reviewText") = false →
  processReviewMatches decode_json today matches pattern (Finite z)
  = take (Z.to_nat z) (omap (extractCommentFromHTML today) matches).
Proof.
  intros Hz H1 H2. unfold processReviewMatches. rewrite H1, H2.
  rewrite each_container_take by (simpl; lia). simpl. by rewrite Nat.sub_0_r.
Qed.

(* ================================================================== *)
(** * The claims *)

(** C1. With an integer [limit] of at least 1 (the one of the options, or
    the default of 50), [fetchComments] returns at least one record and at
    most [limit] records, whatever the network answers and whatever the
    extraction finds. *)
Theorem fetchComments_length decode_json today net appId opts z log :
  default (Finite 50) (limit opts) = Finite z →
  (1 ≤ z)%Z →
  ∃ comments log',
    run net (fetchComments decode_json today appId opts) log = (Fulfilled comments, log')
    ∧ 1 ≤ length comments ∧ (Z.of_nat (length comments) ≤ z)%Z.
Proof.
  intros Hlimit Hz. rewrite run_fetchComments. eexists _, _. split; [done|].
  unfold fetched. rewrite Hlimit. simpl.
  set (c1 := page_records _ _ _ _). set (c2 := page_records _ _ _ _).
  assert (length c1 ≤ Z.to_nat z) by (apply page_records_length; lia).
  assert (length c2 ≤ Z.to_nat z) by (apply page_records_length; lia).
  case_bool_decide as E1; [case_bool_decide as E2|]; simpl.
  - rewrite generateSampleReviews_length by done. lia.
  - destruct c2; [done|]. simpl in *. lia.
  - destruct c1; [done|]. simpl in *. lia.
Qed.

Lemma fetchComments_length_witness :
  ∃ comments log',
    run unreachable
      (fetchComments reject_json (lit "2024-01-15") (lit "com.whatsapp")
         {| limit := Some (Finite 3); sort := None; language := None; country := None |})
      []
    = (Fulfilled comments, log')
    ∧ 1 ≤ length comments ∧ (Z.of_nat (length comments) ≤ 3)%Z.
Proof.
  apply (fetchComments_length reject_json (lit "2024-01-15") unreachable
           (lit "com.whatsapp") _ 3 []); [reflexivity|lia].
Defined.

(** C2. [fetchComments] never raises and follows the fallback order: the
    primary method first, its records when there are some; the secondary
    method only when the primary gave none, its records when there are some;
    the sample when both gave none, and also when either method throws.  The
    second part reads the same order off the two methods of the class, with
    the requests issued and in which order. *)
Theorem fetchComments_fallback_order decode_json today net appId opts log :
  let limit := default (Finite 50) (limit opts) in
  let sort := default (lit "recent") (sort opts) in
  let language := default (lit "en") (language opts) in
  let country := default (lit "US") (country opts) in
  let sample := generateSampleReviews appId limit in
  (∀ page alternative : strategy,
     run net (fetchCommentsVia page alternative appId opts) log =
     match run net (page appId limit sort language country) log with
     | (Failed _, log1) => (Fulfilled sample, log1)
     | (Fulfilled c1, log1) =>
         if bool_decide (c1 = []) then
           match run net (alternative appId limit sort language country) log1 with
           | (Failed _, log2) => (Fulfilled sample, log2)
           | (Fulfilled c2, log2) =>
               if bool_decide (c2 = []) then (Fulfilled sample, log2)
               else (Fulfilled c2, log2)
           end
         else (Fulfilled c1, log1)
     end)
  ∧ run net (fetchComments decode_json today appId opts) log =
    let url1 := buildAppPageUrl appId sort language country in
    let url2 := alternativeUrl appId language country in
    let c1 := page_records decode_json today limit (net log url1) in
    let c2 := page_records decode_json today limit (net (log ++ [url1]) url2) in
    if bool_decide (c1 = []) then
      if bool_decide (c2 = []) then (Fulfilled sample, log ++ [url1; url2])
      else (Fulfilled c2, log ++ [url1; url2])
    else (Fulfilled c1, log ++ [url1]).
Proof.
  intros limit sort language country sample. split.
  - intros page alternative. apply run_fetchCommentsVia.
  - rewrite run_fetchComments. unfold fetched.
    fold limit sort language country sample.
    by repeat case_bool_decide.
Qed.

(** C3. Every record handed to a caller has a text that is not empty and a
    rating between 0 and 5: the records of the extraction engine, those of
    the sample generator, and so those [fetchComments] returns.  Whether a
    block of markup gives a record is a matter of its text alone: a block
    without usable text is dropped, and every block with usable text gives
    a record, whatever rating it states.  The rating of the record is the
    stated one when that is 1 to 5, and 0 when it is out of range (0, more
    than 5, or past the largest Number) or when none is stated; a stated
    rating is never negative nor NaN.  So a block that reads [rating: z]
    before any other place where the rating pattern could match gives,
    when its text is usable, a record with the rating [z] for 1 to 5 and
    with the rating 0 for every other [z], as the block of the last example
    does for 9.  The loop over the blocks of a container pattern keeps the
    records of the blocks in order and drops nothing else, up to the
    limit. *)
Theorem returned_records_valid decode_json today :
  (∀ html limit,
     Forall valid_review (extractReviewsFromHTML decode_json today html limit))
  ∧ (∀ appId limit, Forall valid_review (generateSampleReviews appId limit))
  ∧ (∀ net appId opts log,
       ∃ comments log',
         run net (fetchComments decode_json today appId opts) log
         = (Fulfilled comments, log')
         ∧ Forall valid_review comments)
  ∧ (∀ html, ¬ usable_text (textContent html) →
             extractCommentFromHTML today html = None)
  ∧ (∀ html, usable_text (textContent html) →
             ∃ r, extractCommentFromHTML today html = Some r
                  ∧ text r = textContent html
                  ∧ rating r = match stated_rating html with
                               | Some (Finite z) =>
                                   if bool_decide (1 ≤ z ≤ 5)%Z then z else 0%Z
                               | _ => 0%Z
                               end)
  ∧ (∀ html n, stated_rating html = Some n → not_negative n)
  ∧ (∀ pre z post,
       no_ra pre = true → (0 ≤ z)%Z →
       (∀ c, head post = Some c → is_digit c = false) →
       usable_text (textContent (pre ++ lit "rating: " ++ decimal z ++ post)) →
       ∃ r, extractCommentFromHTML today (pre ++ lit "rating: " ++ decimal z ++ post)
            = Some r
            ∧ rating r = if bool_decide (1 ≤ z ≤ 5)%Z then z else 0%Z)
  ∧ (no_ra (markup "<div class='review'>") = true
     ∧ usable_text
         (textContent (markup "<div class='review'>" ++ lit "rating: " ++ decimal 9
                       ++ lit " Too many ads in this app</div>")))
  ∧ (∀ matches pattern z,
       (0 ≤ z)%Z →
       includes (pattern_source pattern) (lit "reviews") = false →
       includes (pattern_source pattern) (lit "reviewText") = false →
       processReviewMatches decode_json today matches pattern (Finite z)
       = take (Z.to_nat z) (omap (extractCommentFromHTML today) matches))
  ∧ extractReviewsFromHTML decode_json today
      (Text (markup "<div class='review'><img src='star.png'></div>")) (Finite 5)
    = []
  ∧ extractReviewsFromHTML decode_json today
      (Text (markup "<div class='review'>rating: 9 Too many ads in this app</div>"))
      (Finite 5)
    = [ {| text := lit "rating: 9 Too many ads in this app"; rating := 0;
           date := today; author := lit "Unknown"; helpful := 0;
           source := lit "html" |} ].
Proof.
  split_and!; [| | | | | | | | | |by vm_compute..].
  - apply extractReviewsFromHTML_valid.
  - apply generateSampleReviews_valid.
  - intros. rewrite run_fetchComments. eexists _, _. split; [done|].
    apply fetched_valid.
  - apply extractCommentFromHTML_unusable.
  - apply extractCommentFromHTML_usable.
  - apply stated_rating_not_negative.
  - intros. by apply block_with_rating.
  - apply example_is_a_block.
  - apply example_is_a_block.
  - intros. by apply container_branch_records.
Qed.

(** C4. The routes run [validateAppId], or a check of the array, and
    nothing else before their handlers.  A request with [limit=999], which
    [validateCommentParams] refuses with 400, reaches [fetchComments] with a
    limit of 999 and is answered with 200; so is a batch with a limit of
    101, which [validateBatchRequest] refuses. *)
Theorem limit_999_reaches_fetchComments decode_json today net :
  let req := {| params_appId := lit "com.whatsapp";
                query_limit := Some (lit "999"); query_sort := None |} in
  let got := fetched decode_json today net (lit "com.whatsapp")
               {| limit := Some (Finite 999); sort := Some (lit "recent");
                  language := None; country := None |} [] in
  let batch := {| body_appIds := Some [lit "com.whatsapp"];
                  body_limit := Some (lit "101"); body_sort := None |} in
  validateCommentParams req
  = Some (bad_request (lit "Invalid limit parameter")
            (Some (lit "Limit must be a number between 1 and 200")))
  ∧ run net (get_comments decode_json today req) []
    = (Fulfilled {| status := 200;
                    json := CommentsBody (lit "com.whatsapp") (length got.1) got.1
                              (Finite 999) (lit "recent") |},
       got.2)
  ∧ validateBatchRequest batch
    = Some (bad_request (lit "Invalid limit parameter")
              (Some (lit "Limit must be a number between 1 and 100 for batch requests")))
  ∧ post_batch decode_json today batch
      [(0, Rejected (lit "ECONNREFUSED")); (0, Rejected (lit "ECONNREFUSED"))]
    = Some {| status := 200;
              json := BatchBody 1 1 0
                        [ {| result_appId := lit "com.whatsapp";
                             result_totalComments := 10;
                             result_comments := sampleReviews |} ]
                        [] (Finite 101) (lit "recent") |}.
Proof.
  intros req got batch. split_and!; [by vm_compute| |by vm_compute..].
  by rewrite run_get_comments by (by vm_compute).
Qed.

(** C5, as the code has it.  A batch that passes the structural check is
    answered once every task is over, and there are answers of the store
    after which every task is over.  Under a limit that has no text the
    answer is 500.  Otherwise it is 200 with
    [successful + failed = totalApps]: [errors] holds the identifiers that
    have no text, in the order of the request, each with the message of the
    TypeError, and nothing else; [results] holds one entry for every other
    identifier, in the order in which the answers of the store finish the
    tasks.  No failure upstream puts an identifier in [errors]: when every
    identifier has a text, [failed] is 0. *)
Theorem batch_counts_and_errors {value} (ToString : value → option jsstring)
    decode_json today (req : json_body value) appIds :
  json_appIds req = Some appIds →
  1 ≤ length appIds ≤ 10 →
  (∃ events resp, post_batch_json ToString decode_json today req events = Some resp)
  ∧ ∀ events resp,
      post_batch_json ToString decode_json today req events = Some resp →
      match parseInt_of ToString (json_limit req) with
      | None =>
          resp = {| reply_status := 500;
                    reply_json := ErrorReply (lit "Failed to process batch request")
                                    (Some cannot_convert) |}
      | Some limit =>
          ∃ results errors,
            resp = {| reply_status := 200;
                      reply_json :=
                        BatchReply (length appIds) (length results) (length errors)
                          results errors limit (json_sort req) |}
            ∧ length results + length errors = length appIds
            ∧ errors = conversion_error <$> filter (λ v, ToString v = None) appIds
            ∧ entry_appId <$> results ≡ₚ filter (λ v, is_Some (ToString v)) appIds
            ∧ entry_appId <$> results
              = completion_order events
                  (start_batch ToString decode_json today (json_limit req)
                     (json_sort req) appIds {| tasks := []; pushed := []; caught := [] |})
            ∧ Forall entry_counted results
            ∧ (Forall (λ v, is_Some (ToString v)) appIds →
               errors = [] ∧ entry_appId <$> results ≡ₚ appIds)
      end.
Proof.
  intros Hids Hlen. split; [apply post_batch_json_completes|]. intros events resp.
  unfold post_batch_json. rewrite Hids.
  rewrite bool_decide_eq_false_2 by lia.
  destruct (10 <? length appIds) eqn:E; [apply Nat.ltb_lt in E; lia|].
  set (b0 := start_batch _ _ _ _ _ _ _). set (b := answer_all _ _).
  destruct (all_over b) eqn:Hdone; [|done].
  destruct (parseInt_of ToString (json_limit req)) as [n|] eqn:El; [|by intros [= <-]].
  intros [= <-].
  assert (batch_inv ToString appIds b) as [He Hs Hi Hc].
  { apply answer_all_inv.
    apply (start_batch_inv ToString decode_json today (json_limit req) n
             (json_sort req) appIds []); [done|].
    by split. }
  rewrite all_over_no_ids, (right_id_L [] (++)) in Hi by done.
  exists (pushed b), (caught b). split_and!; [done| |done|done| |done|].
  - rewrite He, length_fmap, <- (length_fmap entry_appId), Hi.
    apply converted_or_not.
  - unfold b. rewrite answer_all_pushed. unfold b0 at 1.
    by rewrite start_batch_pushed.
  - intros Hall. rewrite He, Hi.
    by destruct (all_converted ToString appIds Hall) as [-> ->].
Qed.

Lemma batch_counts_and_errors_witness :
  let req := {| json_appIds := Some [Some (lit "com.whatsapp"); None;
                                     Some (lit "com.example.down")];
                json_limit := Some (Some (lit "3")); json_sort := None |} in
  let events := [ (2, Rejected (lit "ECONNREFUSED")); (2, Rejected (lit "ECONNREFUSED"));
                  (0, Rejected (lit "ETIMEDOUT")); (0, Rejected (lit "ETIMEDOUT")) ] in
  ∃ resp,
    post_batch_json id reject_json (lit "2024-01-15") req events = Some resp
    ∧ ∃ results errors,
        resp = {| reply_status := 200;
                  reply_json := BatchReply 3 (length results) (length errors)
                                  results errors (Finite 3) None |}
        ∧ length results + length errors = 3
        ∧ errors = [conversion_error None]
        ∧ entry_appId <$> results
          ≡ₚ [Some (lit "com.whatsapp"); Some (lit "com.example.down")]
        ∧ entry_appId <$> results
          = [Some (lit "com.example.down"); Some (lit "com.whatsapp")]
        ∧ Forall entry_counted results
        ∧ (Forall (λ v : option jsstring, is_Some (id v))
             [Some (lit "com.whatsapp"); None; Some (lit "com.example.down")] →
           errors = []
           ∧ entry_appId <$> results
             ≡ₚ [Some (lit "com.whatsapp"); None; Some (lit "com.example.down")]).
Proof.
  intros req events. eexists. split; [by vm_compute|].
  refine (proj2 (batch_counts_and_errors id reject_json (lit "2024-01-15") req
                   [Some (lit "com.whatsapp"); None; Some (lit "com.example.down")]
                   _ _) events _ _);
    [reflexivity|simpl; lia|by vm_compute].
Defined.

(** C5, as stated, fails: of two identifiers, the store is out of reach for
    the first and answers for the second.  The response is 200 with both
    entries in [results], the first with the ten sample records, and
    [errors] is empty. *)
Lemma upstream_failure_is_not_in_errors :
  ∃ (req : json_body jsstring) events, ∀ decode_json today,
    json_appIds req = Some [lit "com.example.down"; lit "com.whatsapp"]
    ∧ post_batch_json Some decode_json today req events
      = Some {| reply_status := 200;
                reply_json := BatchReply 2 2 0
                  [ {| entry_appId := lit "com.whatsapp";
                       entry_totalComments := 1;
                       entry_comments :=
                         [ {| text := lit "Works well on my phone"; rating := 0;
                              date := today; author := lit "Unknown"; helpful := 0;
                              source := lit "html" |} ] |};
                    {| entry_appId := lit "com.example.down";
                       entry_totalComments := 10;
                       entry_comments := sampleReviews |} ]
                  [] (Finite 20) None |}.
Proof.
  exists {| json_appIds := Some [lit "com.example.down"; lit "com.whatsapp"];
            json_limit := None; json_sort := None |},
         [ (1, Resolved 200 (Text (markup "<div class='review'>Works well on my phone</div>")));
           (0, Rejected (lit "ECONNREFUSED"));
           (0, Rejected (lit "ECONNREFUSED")) ].
  intros decode_json today. split; [done|]. by vm_compute.
Qed.

(** C6. With a comment or more, the average of the response is the text
    that [toFixed] returns, not a number.  With the store out of reach,
    [/com.whatsapp/stats?limit=10] works on the ten sample records, whose
    ratings add up to 41: its average is the text 4.10. *)
Theorem averageRating_is_text decode_json today :
  let req := {| params_appId := lit "com.whatsapp";
                query_limit := Some (lit "10"); query_sort := None |} in
  (∀ c comments, ∃ t, averageRating (computeStats (c :: comments)) = Str t)
  ∧ ∃ s log,
      run unreachable (get_stats decode_json today req) []
      = (Fulfilled {| status := 200; json := StatsBody (lit "com.whatsapp") s 10 |}, log)
      ∧ stats_totalComments s = 10
      ∧ totalRating s = 41%Z
      ∧ averageRating s = Str (lit "4.10").
Proof.
  intros req. split.
  - intros c comments. rewrite averageRating_nonempty. by eexists.
  - eexists _, _. split.
    + rewrite run_get_stats by (by vm_compute). reflexivity.
    + by vm_compute.
Qed.

(** C7. The embedded-data strategy decodes nothing.  On a script element
    that holds a reviews array with one review, the engine returns no record;
    and on every markup its output is the same whatever [JSON.parse] would
    decode, because the text it is given is never the array. *)
Theorem embedded_reviews_not_decoded decode_json today :
  extractReviewsFromHTML decode_json today
    (Text (markup "<script>window.data = {'reviews': [{'text':'Great app','rating':5}]};</script>"))
    (Finite 10)
  = []
  ∧ ∀ decode_json' html limit,
      extractReviewsFromHTML decode_json today html limit
      = extractReviewsFromHTML decode_json' today html limit.
Proof.
  split; [by vm_compute|].
  intros decode_json' [s|] limit; [|done].
  unfold extractReviewsFromHTML. f_equal. by apply each_pattern_decoder.
Qed.

(** C8. The bare-text strategy drops the first occurrence and keeps the
    whole match, key included, as the text of the others.  Within the limit,
    its records are those of the matches but the first; one occurrence gives
    no record, two give one record, for the second. *)
Theorem bare_text_first_occurrence_dropped decode_json today :
  (∀ s z,
     (Z.of_nat (length (scan text_pattern s 0)) ≤ z)%Z →
     processReviewMatches decode_json today (scan text_pattern s 0) text_pattern (Finite z)
     = text_record today <$> tail (scan text_pattern s 0))
  ∧ extractReviewsFromHTML decode_json today
      (Text (markup "{'reviewText': 'Great app'}")) (Finite 10)
    = []
  ∧ extractReviewsFromHTML decode_json today
      (Text (markup "{'reviewText': 'Great app'}, {'reviewText': 'Crashes a lot'}"))
      (Finite 10)
    = [text_record today (markup "'reviewText': 'Crashes a lot'")].
Proof.
  split_and!; [|by vm_compute..].
  intros s z Hz. unfold processReviewMatches.
  replace (includes _ (lit "reviews")) with false by (by vm_compute).
  replace (includes _ (lit "reviewText")) with true by (by vm_compute).
  by rewrite each_text_keeps_all.
Qed.

(** C9, as the code has it.  The engine reads the clock: the records it
    extracts on one date are those it extracts on any other date, with the
    date field replaced by the date of the call.  It never throws: a payload
    that is not a text gives no record. *)
Theorem extraction_date_dependence decode_json d d' html limit :
  extractReviewsFromHTML decode_json d' html limit
  = with_date d' <$> extractReviewsFromHTML decode_json d html limit.
Proof.
  destruct html as [s|]; [|done]. unfold extractReviewsFromHTML.
  rewrite <- slice0_fmap. f_equal.
  by apply (each_pattern_date decode_json d d' reviewPatterns s limit []).
Qed.

(** C9, as stated, fails: the same markup and limit give different records
    on two dates. *)
Lemma extraction_reads_the_clock :
  ∃ html limit d1 d2, ∀ decode_json,
    extractReviewsFromHTML decode_json d1 html limit
    ≠ extractReviewsFromHTML decode_json d2 html limit.
Proof.
  exists (Text (markup "<div class='review'>Works well on my phone</div>")),
         (Finite 5), (lit "2024-01-01"), (lit "2024-01-02").
  intros decode_json. vm_compute. discriminate.
Qed.

(** C10. When the [limit] that reaches [fetchComments] is NaN, it returns
    the empty array: both retrieval methods and the sample generator slice
    their records down to none.  The route lets such a limit through:
    [limit=abc] is parsed to NaN and answered with 200 and no comment. *)
Theorem fetchComments_NaN_limit decode_json today net appId sort language country log :
  (run net
     (fetchComments decode_json today appId
        {| limit := Some NaN; sort := sort; language := language; country := country |})
     log).1
  = Fulfilled []
  ∧ parseInt (lit "abc") = NaN
  ∧ (run net
       (get_comments decode_json today
          {| params_appId := lit "com.whatsapp"; query_limit := Some (lit "abc");
             query_sort := None |})
       log).1
    = Fulfilled {| status := 200;
                   json := CommentsBody (lit "com.whatsapp") 0 [] NaN (lit "recent") |}.
Proof.
  assert (∀ appId opts, limit opts = Some NaN →
            (fetched decode_json today net appId opts log).1 = []) as Hnone.
  { intros a o Ho. unfold fetched. rewrite Ho. simpl.
    by rewrite !page_records_NaN. }
  split_and!; [|done|].
  - rewrite run_fetchComments. simpl. by rewrite Hnone.
  - rewrite run_get_comments by (by vm_compute). simpl.
    change (parseInt (lit "abc")) with NaN. by rewrite Hnone.
Qed.
